(** * RZIPv1 archive reader and writer (core/archive/rzip.cpp)

    A shallow embedding of [RZipFile::Open], [Close], [Read], [Skip] and
    [Write], together with the C stdio stream and the zlib entry points
    they call, and the properties of the container format proved about
    them. *)

From Stdlib Require Import ZArith Lia List Bool.
From Stdlib Require Import Strings.String.
From coqutil Require Import Byte Word.LittleEndianList.
From stdpp Require Import base option list gmap strings.
Import ListNotations.
Local Open Scope Z_scope.

(** ** Machine integers

    [u32] and [u64] are the fixed-width types of the emulator.  [size_t]
    and zlib's [uLongf] are 32 bits wide on the build target (ARMv7,
    ILP32); the call [std::min(chunkSize - chunkIndex, (u32)length - rv)]
    in [Read] only type-checks when [size_t] and [u32] coincide. *)

Definition u32 (z : Z) : Z := z mod 2 ^ 32.
Definition u64 (z : Z) : Z := z mod 2 ^ 64.
Definition size_t (z : Z) : Z := z mod 2 ^ 32.
Definition uLongf (z : Z) : Z := z mod 2 ^ 32.

(** Length of a buffer as an integer. *)
Definition len {A : Type} (l : list A) : Z := Z.of_nat (length l).

(** ** The C stdio stream

    A stream is the byte content of the file it is attached to, a file
    position, and the mode it was opened in.  [f_limit] is the largest
    size the device lets the file grow to; a write that would exceed it
    is a short write.  Seeking past the end is allowed and does not
    change the file; a later write there fills the gap with zero bytes.

    The stream has no buffer of its own: a write that the device cannot
    take is refused by the [fwrite] that makes it.  A C library that
    buffers may accept such a write and report the failure at a later
    [fwrite], [fseek] or [fclose]; the properties below that speak of a
    full device are properties of the unbuffered stream. *)

Record FILE : Type := mkFILE {
  f_path : string;
  f_wr : bool;
  f_bytes : list byte;
  f_pos : Z;
  f_limit : Z
}.

(** The files by path, the room of the device, and the paths that the
    system refuses to open for writing (a directory that does not exist,
    a file that may not be written). *)
Record FileSystem : Type := mkFS {
  fs_files : gmap string (list byte);
  fs_limit : Z;
  fs_denied : gset string
}.

Definition set_pos (p : Z) (f : FILE) : FILE :=
  mkFILE (f_path f) (f_wr f) (f_bytes f) p (f_limit f).

Definition set_bytes (b : list byte) (f : FILE) : FILE :=
  mkFILE (f_path f) (f_wr f) b (f_pos f) (f_limit f).

(** [fopen(path, write ? "wb" : "rb")]: [None] is the null pointer.
    Write mode truncates the file, unless the system refuses the path;
    read mode needs the file to exist.  The bytes written to a stream
    are kept in the stream and reach [fs_files] at [fclose]; what the
    device holds of them in between is not followed. *)
Definition fopen (fs : FileSystem) (path : string) (write : bool)
  : FileSystem * option FILE :=
  if write then
    if bool_decide (path ∈ fs_denied fs) then (fs, None)
    else
      (mkFS (<[path := []]> (fs_files fs)) (fs_limit fs) (fs_denied fs),
       Some (mkFILE path true [] 0 (fs_limit fs)))
  else
    match fs_files fs !! path with
    | Some b => (fs, Some (mkFILE path false b 0 (fs_limit fs)))
    | None => (fs, None)
    end.

(** [fclose(file)]: the content of a stream opened for writing reaches
    the file system. *)
Definition fclose (fs : FileSystem) (f : FILE) : FileSystem :=
  if f_wr f then
    mkFS (<[f_path f := f_bytes f]> (fs_files fs)) (fs_limit fs) (fs_denied fs)
  else fs.

(** [fread(buf, n, 1, file) == 1]: all [n] bytes or a failure; a short
    read leaves the position at the end of the file. *)
Definition fread (n : Z) (f : FILE) : FILE * option (list byte) :=
  if f_wr f || (n <=? 0) || (f_pos f <? 0) then (f, None)
  else if f_pos f + n <=? len (f_bytes f) then
    (set_pos (f_pos f + n) f,
     Some (firstn (Z.to_nat n) (skipn (Z.to_nat (f_pos f)) (f_bytes f))))
  else (set_pos (Z.max (f_pos f) (len (f_bytes f))) f, None).

(** The file content after [data] has been stored at offset [pos]. *)
Definition write_at (pos : Z) (data bytes : list byte) : list byte :=
  match data with
  | [] => bytes
  | _ =>
    firstn (Z.to_nat pos)
           (bytes ++ repeat Byte.x00 (Z.to_nat pos - length bytes))
    ++ data ++ skipn (Z.to_nat pos + length data) bytes
  end.

(** [fwrite(buf, n, 1, file) == 1]: all of [data] or a short write that
    stores the part that still fits. *)
Definition fwrite (data : list byte) (f : FILE) : FILE * bool :=
  if negb (f_wr f) || (len data =? 0) then (f, false)
  else if f_pos f + len data <=? f_limit f then
    (set_pos (f_pos f + len data) (set_bytes (write_at (f_pos f) data (f_bytes f)) f),
     true)
  else
    let k := Z.max 0 (f_limit f - f_pos f) in
    (set_pos (f_pos f + k)
       (set_bytes (write_at (f_pos f) (firstn (Z.to_nat k) data) (f_bytes f)) f),
     false).

(** [fseek(file, off, SEEK_CUR) == 0] and [fseek(file, off, SEEK_SET) == 0]. *)
Definition fseek_cur (off : Z) (f : FILE) : FILE * bool :=
  if f_pos f + off <? 0 then (f, false) else (set_pos (f_pos f + off) f, true).

Definition fseek_set (off : Z) (f : FILE) : FILE * bool :=
  if off <? 0 then (f, false) else (set_pos off f, true).

Definition ftell (f : FILE) : Z := f_pos f.

(** ** zlib

    The two primitives are parameters: [deflate] is the stream
    [compress] produces for an input when the destination has room
    ([None]: it reports an error), [inflate] what [uncompress] recovers
    from a stream ([None]: the data is rejected).  Both entry points
    answer [Z_BUF_ERROR] when the result does not fit the destination
    size passed in [destLen]. *)

Class Codec : Type := mkCodec {
  deflate : list byte -> option (list byte);
  inflate : list byte -> option (list byte)
}.

(** What zlib guarantees: every input compresses to a non-empty stream
    within the documented bound (0.1% larger plus 12 bytes), and the
    stream decompresses to the input. *)
Class CodecOk (c : Codec) : Prop := mkCodecOk {
  deflate_inflate : forall d : list byte,
    exists z, deflate d = Some z /\ inflate z = Some d /\
              0 < len z <= len d + len d / 1000 + 12
}.

(** [compress(dest, &destLen, src, srcLen) == Z_OK], with the bytes
    stored in [dest]. *)
Definition compress `{Codec} (destLen : Z) (src : list byte)
  : option (list byte) :=
  match deflate src with
  | Some z => if len z <=? destLen then Some z else None
  | None => None
  end.

(** [uncompress(dest, &destLen, src, srcLen) == Z_OK], with the bytes
    stored in [dest]. *)
Definition uncompress `{Codec} (destLen : Z) (src : list byte)
  : option (list byte) :=
  match inflate src with
  | Some d => if len d <=? destLen then Some d else None
  | None => None
  end.

(** ** The archive handle *)

(** const u8 RZipHeader[8] = { '#', 'R', 'Z', 'I', 'P', 'v', 1, '#' } *)
Definition RZipHeader : list byte :=
  [Byte.x23; Byte.x52; Byte.x5a; Byte.x49; Byte.x50; Byte.x76; Byte.x01; Byte.x23].

(** [memcmp(a, b, n) == 0] for two buffers of [n] bytes. *)
Fixpoint bytes_eqb (a b : list byte) : bool :=
  match a, b with
  | [], [] => true
  | x :: a', y :: b' => Byte.eqb x y && bytes_eqb a' b'
  | _, _ => false
  end.

(** The members of [class RZipFile].  [file = None] and [chunk = None]
    are the null pointers.  An allocated chunk buffer is represented by
    the bytes the last successful [uncompress] stored in it (none right
    after [new u8[maxChunkSize]]). *)
Record RZipFile : Type := mkRZipFile {
  file : option FILE;
  size : Z;
  maxChunkSize : Z;
  chunk : option (list byte);
  chunkSize : Z;
  chunkIndex : Z;
  writing : bool
}.

Definition set_file (x : option FILE) (h : RZipFile) : RZipFile :=
  mkRZipFile x (size h) (maxChunkSize h) (chunk h) (chunkSize h) (chunkIndex h) (writing h).
Definition set_size (x : Z) (h : RZipFile) : RZipFile :=
  mkRZipFile (file h) x (maxChunkSize h) (chunk h) (chunkSize h) (chunkIndex h) (writing h).
Definition set_maxChunkSize (x : Z) (h : RZipFile) : RZipFile :=
  mkRZipFile (file h) (size h) x (chunk h) (chunkSize h) (chunkIndex h) (writing h).
Definition set_chunk (x : option (list byte)) (h : RZipFile) : RZipFile :=
  mkRZipFile (file h) (size h) (maxChunkSize h) x (chunkSize h) (chunkIndex h) (writing h).
Definition set_chunkSize (x : Z) (h : RZipFile) : RZipFile :=
  mkRZipFile (file h) (size h) (maxChunkSize h) (chunk h) x (chunkIndex h) (writing h).
Definition set_chunkIndex (x : Z) (h : RZipFile) : RZipFile :=
  mkRZipFile (file h) (size h) (maxChunkSize h) (chunk h) (chunkSize h) x (writing h).
Definition set_writing (x : bool) (h : RZipFile) : RZipFile :=
  mkRZipFile (file h) (size h) (maxChunkSize h) (chunk h) (chunkSize h) (chunkIndex h) x.

(** The messages passed to [WARN_LOG(SAVESTATE, ...)]. *)
Inductive warning : Type :=
| FailedToValidateHeader
| FailedToWriteHeader
| FailedToReadSize
| FailedToReadData
| DecompressionError
| CompressionError
| FailedToWriteData.

(** How a call ends: it returns, a [verify] stops the process, or the
    loop bound of the model is used up. *)
Inductive outcome (A : Type) : Type :=
| Returns (a : A)
| Aborts
| OutOfFuel.
Arguments Returns {A} a.
Arguments Aborts {A}.
Arguments OutOfFuel {A}.

(** [void RZipFile::Close()] *)
Definition Close (fs : FileSystem) (h : RZipFile) : FileSystem * RZipFile :=
  match file h with
  | Some f => (fclose fs f, set_chunk None (set_file None h))
  | None => (fs, h)
  end.

(** [bool RZipFile::Open(const std::string& path, bool write)] *)
Definition Open (fs : FileSystem) (h : RZipFile) (path : string) (write : bool)
  : outcome (FileSystem * RZipFile * bool * list warning) :=
  match file h with
  | Some _ => Aborts
  | None =>
    match fopen fs path write with
    | (fs, None) => Returns (fs, h, false, [])
    | (fs, Some f) =>
      if negb write then
        let fail f h :=
          let '(fs, h) := Close fs (set_file (Some f) h) in
          Returns (fs, h, false, [FailedToValidateHeader]) in
        match fread (len RZipHeader) f with
        | (f, None) => fail f h
        | (f, Some header) =>
          if negb (bytes_eqb header RZipHeader) then fail f h
          else
            match fread 4 f with
            | (f, None) => fail f h
            | (f, Some b) =>
              let h := set_maxChunkSize (le_combine b) h in
              match fread 8 f with
              | (f, None) => fail f h
              | (f, Some b) =>
                let h := set_size (le_combine b) h in
                let '(f, h) :=
                  if negb (Z.shiftr (size h) 32 =? 0) then
                    (fst (fseek_cur (-4) f),
                     set_size (Z.land (size h) 4294967295) h)
                  else (f, h) in
                let h := set_chunk (Some []) h in
                let h := set_chunkIndex 0 h in
                let h := set_chunkSize 0 h in
                let h := set_writing false h in
                Returns (fs, set_file (Some f) h, true, [])
              end
            end
        end
      else
        let h := set_writing true h in
        let h := set_size 0 h in
        let h := set_maxChunkSize (u32 (1024 * 1024)) h in
        let fail f h :=
          let '(fs, h) := Close fs (set_file (Some f) h) in
          Returns (fs, h, false, [FailedToWriteHeader]) in
        match fwrite RZipHeader f with
        | (f, false) => fail f h
        | (f, true) =>
          match fwrite (le_split 4 (maxChunkSize h)) f with
          | (f, false) => fail f h
          | (f, true) =>
            match fseek_cur 8 f with
            | (f, false) => fail f h
            | (f, true) => Returns (fs, set_file (Some f) h, true, [])
            end
          end
        end
    end
  end.

(** ** Read and Skip *)

(** What the block run on an exhausted chunk buffer leads to: a [break]
    after a warning, a [continue], or the copy that ends the iteration. *)
Inductive refilled : Type :=
| Break (f : FILE) (h : RZipFile) (w : warning)
| Continue (f : FILE) (h : RZipFile)
| Proceed (f : FILE) (h : RZipFile).

(** The body of [if (chunkIndex == chunkSize) { ... }]; [Read] and [Skip]
    contain the same statements. *)
Definition refill `{Codec} (f : FILE) (h : RZipFile) : refilled :=
  let h := set_chunkSize 0 h in
  let h := set_chunkIndex 0 h in
  match fread 4 f with
  | (f, None) => Break f h FailedToReadSize
  | (f, Some b) =>
    let zippedSize := le_combine b in
    if zippedSize =? 0 then Continue f h
    else
      match fread zippedSize f with
      | (f, None) => Break f h FailedToReadData
      | (f, Some zipped) =>
        let tl := uLongf (maxChunkSize h) in
        match uncompress tl zipped with
        | None => Break f h DecompressionError
        | Some d =>
          let tl := len d in
          Proceed f (set_chunkSize (u32 tl) (set_chunk (Some d) h))
        end
      end
  end.

(** [std::min(chunkSize - chunkIndex, (u32)length - rv)] *)
Definition copy_length (h : RZipFile) (length rv : Z) : Z :=
  Z.min (u32 (chunkSize h - chunkIndex h)) (u32 (u32 length - rv)).

(** The [l] bytes at [chunk + chunkIndex]. *)
Definition chunk_bytes (h : RZipFile) (l : Z) : list byte :=
  firstn (Z.to_nat l) (skipn (Z.to_nat (chunkIndex h)) (default [] (chunk h))).

(** The loop of [Read]: [p] collects the bytes stored through the
    output pointer so far. *)
Fixpoint Read_loop `{Codec} (fuel : nat) (length : Z) (f : FILE) (h : RZipFile)
    (p : list byte) (rv : Z)
  : outcome (FILE * RZipFile * list byte * Z * list warning) :=
  if rv <? length then
    match fuel with
    | O => OutOfFuel
    | S fuel =>
      match (if chunkIndex h =? chunkSize h then refill f h else Proceed f h) with
      | Break f h w => Returns (f, h, p, rv, [w])
      | Continue f h => Read_loop fuel length f h p rv
      | Proceed f h =>
        let l := copy_length h length rv in
        Read_loop fuel length f (set_chunkIndex (u32 (chunkIndex h + l)) h)
                  (p ++ chunk_bytes h l) (size_t (rv + l))
      end
    end
  else Returns (f, h, p, rv, []).

(** The loop of [Skip]. *)
Fixpoint Skip_loop `{Codec} (fuel : nat) (length : Z) (f : FILE) (h : RZipFile)
    (rv : Z)
  : outcome (FILE * RZipFile * Z * list warning) :=
  if rv <? length then
    match fuel with
    | O => OutOfFuel
    | S fuel =>
      match (if chunkIndex h =? chunkSize h then refill f h else Proceed f h) with
      | Break f h w => Returns (f, h, rv, [w])
      | Continue f h => Skip_loop fuel length f h rv
      | Proceed f h =>
        let l := copy_length h length rv in
        Skip_loop fuel length f (set_chunkIndex (u32 (chunkIndex h + l)) h)
                  (size_t (rv + l))
      end
    end
  else Returns (f, h, rv, []).

(** Bytes left between the file position and the end of the file. *)
Definition remaining (f : FILE) : nat := Z.to_nat (len (f_bytes f) - f_pos f).

(** A bound on the iterations of the two loops: all but the first pull
    a frame, which takes at least four bytes from the file. *)
Definition read_fuel (f : FILE) : nat := S (S (2 * remaining f)).

(** The destination buffer after the bytes [p] have been stored at its
    start. *)
Definition stored (data p : list byte) : list byte :=
  p ++ skipn (length p) data.

(** [size_t RZipFile::Read(void *data, size_t length)]; [data] is the
    destination buffer and the result carries its new content. *)
Definition Read `{Codec} (h : RZipFile) (data : list byte) (length : Z)
  : outcome (RZipFile * list byte * Z * list warning) :=
  match file h with
  | None => Aborts
  | Some f =>
    match Read_loop (read_fuel f) length f h [] 0 with
    | Returns (f, h, p, rv, log) => Returns (set_file (Some f) h, stored data p, rv, log)
    | Aborts => Aborts
    | OutOfFuel => OutOfFuel
    end
  end.

(** [size_t RZipFile::Skip(size_t length)] *)
Definition Skip `{Codec} (h : RZipFile) (length : Z)
  : outcome (RZipFile * Z * list warning) :=
  match file h with
  | None => Aborts
  | Some f =>
    match Skip_loop (read_fuel f) length f h 0 with
    | Returns (f, h, rv, log) => Returns (set_file (Some f) h, rv, log)
    | Aborts => Aborts
    | OutOfFuel => OutOfFuel
    end
  end.

(** ** Write *)

(** The loop of [Write]: [p] is the input from the source pointer on. *)
Fixpoint Write_loop `{Codec} (fuel : nat) (length maxZippedSize : Z) (f : FILE)
    (h : RZipFile) (p : list byte) (rv : Z)
  : outcome (FILE * RZipFile * Z * list warning) :=
  if rv <? length then
    match fuel with
    | O => OutOfFuel
    | S fuel =>
      let zippedSize := maxZippedSize in
      let uncompressedSize := uLongf (Z.min (maxChunkSize h) (u32 (length - rv))) in
      match compress zippedSize (firstn (Z.to_nat uncompressedSize) p) with
      | None => Returns (f, h, rv, [CompressionError])
      | Some zipped =>
        let zippedSize := len zipped in
        let sz := u32 zippedSize in
        match fwrite (le_split 4 sz) f with
        | (f, false) => Returns (f, h, rv, [FailedToWriteData])
        | (f, true) =>
          match fwrite zipped f with
          | (f, false) => Returns (f, h, rv, [FailedToWriteData])
          | (f, true) =>
            Write_loop fuel length maxZippedSize f
                       (set_size (u64 (size h + uncompressedSize)) h)
                       (skipn (Z.to_nat uncompressedSize) p)
                       (size_t (rv + uncompressedSize))
          end
        end
      end
    end
  else Returns (f, h, rv, []).

(** The three [verify] lines that close [Write]: store [size] in the
    header and come back to [pos]. *)
Definition rewrite_size (f : FILE) (h : RZipFile) : option FILE :=
  let pos := u64 (ftell f) in
  match fseek_set (len RZipHeader + 4) f with
  | (f, false) => None
  | (f, true) =>
    match fwrite (le_split 8 (size h)) f with
    | (f, false) => None
    | (f, true) =>
      match fseek_set pos f with
      | (f, false) => None
      | (f, true) => Some f
      end
    end
  end.

(** [size_t RZipFile::Write(const void *data, size_t length)] *)
Definition Write `{Codec} (h : RZipFile) (data : list byte) (length : Z)
  : outcome (RZipFile * Z * list warning) :=
  match file h with
  | None => Aborts
  | Some f =>
    let maxZippedSize :=
      uLongf (u32 (u32 (maxChunkSize h + maxChunkSize h / 1000) + 12)) in
    match Write_loop (S (Z.to_nat length)) length maxZippedSize f h data 0 with
    | Returns (f, h, rv, log) =>
      match rewrite_size f h with
      | Some f => Returns (set_file (Some f) h, rv, log)
      | None => Aborts
      end
    | Aborts => Aborts
    | OutOfFuel => OutOfFuel
    end
  end.

(** ** Runs of calls and the states they go through *)

(** The reader chunk-buffer invariant. *)
Definition buffer_inv (h : RZipFile) : Prop :=
  0 <= chunkIndex h /\ chunkIndex h <= chunkSize h /\
  chunkSize h <= maxChunkSize h /\ maxChunkSize h < 2 ^ 32.

(** The bytes announced by [chunkSize] are in the buffer. *)
Definition chunk_inv (h : RZipFile) : Prop :=
  chunkSize h <= len (default [] (chunk h)).

(** What bounds the iterations still to come in [Read] and [Skip]. *)
Definition measure (f : FILE) (h : RZipFile) : nat :=
  (2 * remaining f + (if Z.eqb (chunkIndex h) (chunkSize h) then 0 else 1))%nat.

(** The handle as the refill block leaves it before it reads the file. *)
Definition emptied (h : RZipFile) : RZipFile :=
  set_chunkIndex 0 (set_chunkSize 0 h).


(** What [Skip] keeps of a run of the loop of [Read]. *)
Definition forget_bytes
    (o : outcome (FILE * RZipFile * list byte * Z * list warning))
  : outcome (FILE * RZipFile * Z * list warning) :=
  match o with
  | Returns (f, h, _, rv, log) => Returns (f, h, rv, log)
  | Aborts => Aborts
  | OutOfFuel => OutOfFuel
  end.

(** A handle that is open, with its chunk buffer in a consistent state. *)
Definition open_handle (h : RZipFile) : Prop :=
  (exists f, file h = Some f) /\ buffer_inv h /\ chunk_inv h.

(** The states a handle opened for reading goes through. *)
Inductive reader_state `{Codec} : RZipFile -> Prop :=
| reader_opened fs h path fs' h' log :
    Open fs h path false = Returns (fs', h', true, log) ->
    reader_state h'
| reader_read h data length h' data' rv log :
    reader_state h ->
    Read h data length = Returns (h', data', rv, log) ->
    reader_state h'
| reader_skipped h length h' rv log :
    reader_state h ->
    Skip h length = Returns (h', rv, log) ->
    reader_state h'.

(** ** Sample data

    A codec that stores its input behind a one-byte tag, a handle that
    was never opened, and a small archive. *)

Definition stored_codec : Codec :=
  mkCodec (fun d => Some (Byte.x78 :: d))
          (fun z => match z with
                    | Byte.x78 :: d => Some d
                    | _ => None
                    end).

Definition closed_handle : RZipFile := mkRZipFile None 0 0 None 0 0 false.

Definition empty_disk : FileSystem := mkFS ∅ 65536 ∅.

Definition hello : list byte :=
  [Byte.x48; Byte.x65; Byte.x6c; Byte.x6c; Byte.x6f].

(** Header, total size 10, and two frames that each hold [hello]. *)
Definition sample_archive : list byte :=
  RZipHeader ++ le_split 4 1048576 ++ le_split 8 10
  ++ (le_split 4 6 ++ Byte.x78 :: hello)
  ++ (le_split 4 6 ++ Byte.x78 :: hello).

Definition sample_disk : FileSystem :=
  mkFS (<["state.rzip" := sample_archive]> ∅) 65536 ∅.

(** The handle [Open] returns for the sample archive. *)
Definition sample_reader : RZipFile :=
  mkRZipFile (Some (mkFILE "state.rzip" false sample_archive 20 65536))
             10 1048576 (Some []) 0 0 false.

(** An archive written on a 32-bit platform: the size 5 in four bytes,
    then one frame that holds [hello]. *)
Definition legacy_archive : list byte :=
  RZipHeader ++ le_split 4 1048576 ++ le_split 4 5
  ++ (le_split 4 6 ++ Byte.x78 :: hello).

(** File offsets that fit the signed 64-bit offsets of the platform. *)
Definition offsets_ok (f : FILE) : Prop :=
  0 <= f_pos f < 2 ^ 63 /\ f_limit f < 2 ^ 63.

(** The total-size field of the header: eight bytes at offset 12. *)
Definition header_size (bytes : list byte) : Z :=
  le_combine (firstn 8 (skipn 12 bytes)).

(** A run of Write calls, one per buffer, with the counts returned. *)
Fixpoint Writes `{Codec} (h : RZipFile) (ds : list (list byte))
  : outcome (RZipFile * list Z) :=
  match ds with
  | [] => Returns (h, [])
  | d :: ds =>
    match Write h d (len d) with
    | Returns (h, rv, _) =>
      match Writes h ds with
      | Returns (h, rvs) => Returns (h, rv :: rvs)
      | Aborts => Aborts
      | OutOfFuel => OutOfFuel
      end
    | Aborts => Aborts
    | OutOfFuel => OutOfFuel
    end
  end.

Definition sum (l : list Z) : Z := fold_right Z.add 0 l.

(** Two handles that differ at most in [file] and [size]. *)
Definition same_reader_fields (h' h : RZipFile) : Prop :=
  maxChunkSize h' = maxChunkSize h /\ chunk h' = chunk h /\
  chunkSize h' = chunkSize h /\ chunkIndex h' = chunkIndex h /\
  writing h' = writing h.

(** A handle open for writing on a stream with representable offsets. *)
Definition writer_inv (h : RZipFile) : Prop :=
  exists f, file h = Some f /\ offsets_ok f /\ 0 < maxChunkSize h < 2 ^ 32.

(** [maxZippedSize] in [Write]. *)
Definition maxZippedSize_of (h : RZipFile) : Z :=
  uLongf (u32 (u32 (maxChunkSize h + maxChunkSize h / 1000) + 12)).

(** The sample archive in the making: the disk and the handle after
    Open in write mode, after one Write of [hello], and after two. *)
Definition fresh_disk : FileSystem :=
  mkFS (<["state.rzip" := []]> ∅) 65536 ∅.

Definition fresh_writer : RZipFile :=
  mkRZipFile (Some (mkFILE "state.rzip" true (RZipHeader ++ le_split 4 1048576)
                           20 65536))
             0 1048576 None 0 0 true.

Definition writer_after_one : RZipFile :=
  mkRZipFile (Some (mkFILE "state.rzip" true
                           (RZipHeader ++ le_split 4 1048576 ++ le_split 8 5
                            ++ (le_split 4 6 ++ Byte.x78 :: hello))
                           30 65536))
             5 1048576 None 0 0 true.

Definition writer_after_two : RZipFile :=
  mkRZipFile (Some (mkFILE "state.rzip" true sample_archive 40 65536))
             10 1048576 None 0 0 true.

(** ** The container format *)

(** A chunk frame: the length of the compressed payload in four bytes,
    then the payload. *)
Definition frame (z : list byte) : list byte := le_split 4 (len z) ++ z.

Definition frames (zs : list (list byte)) : list byte := concat (map frame zs).

(** The content of the file up to the position, with the gap a write at
    the position would fill. *)
Definition padded (f : FILE) : list byte :=
  f_bytes f ++ repeat Byte.x00 (Z.to_nat (f_pos f) - length (f_bytes f)).

(** Chunks of one Write call: all of size [m] but the last, which is
    not empty. *)
Inductive uniform (m : Z) : list (list byte) -> Prop :=
| uniform_nil : uniform m []
| uniform_last d : 0 < len d <= m -> uniform m [d]
| uniform_cons d ds :
    len d = m -> ds <> [] -> uniform m ds -> uniform m (d :: ds).

(** The bytes of a stream opened for reading from its position on. *)
Definition rest (f : FILE) : list byte :=
  skipn (Z.to_nat (f_pos f)) (f_bytes f).

Definition readable (f : FILE) : Prop := f_wr f = false /\ 0 <= f_pos f.

(** The bytes of the chunk buffer that are still to be handed out. *)
Definition avail (h : RZipFile) : list byte :=
  chunk_bytes h (chunkSize h - chunkIndex h).

(** What Open in write mode writes: the magic and the maximum chunk
    size. *)
Definition header12 (m : Z) : list byte := RZipHeader ++ le_split 4 m.

(** An archive: header with the total size, then the frames. *)
Definition archive_bytes (m total : Z) (zs : list (list byte)) : list byte :=
  header12 m ++ le_split 8 total ++ frames zs.

(** The stream of a handle open for writing whose file holds the
    frames [zs]: right after Open the size field is not in the file
    yet; after a Write it is and holds [size]. *)
Definition writer_at (h : RZipFile) (f : FILE) (zs : list (list byte)) : Prop :=
  f_pos f = 20 + len (frames zs) /\
  (zs = [] /\ f_bytes f = header12 (maxChunkSize h) \/
   f_bytes f = archive_bytes (maxChunkSize h) (size h) zs).

(** The compressed payloads of the frames in [bytes], as the readers
    cut them out: four bytes of length, then that many bytes. *)
Fixpoint parse_frames (fuel : nat) (bytes : list byte) : list (list byte) :=
  match fuel with
  | O => []
  | S fuel =>
    match bytes with
    | [] => []
    | _ =>
      let n := Z.to_nat (le_combine (firstn 4 bytes)) in
      firstn n (skipn 4 bytes) :: parse_frames fuel (skipn (4 + n) bytes)
    end
  end.

(** What the chunk frames of an archive decompress to. *)
Definition archive_chunks `{Codec} (bytes : list byte)
  : list (option (list byte)) :=
  map inflate (parse_frames (length bytes) (skipn 20 bytes)).

(** The maximum chunk size recorded in the header of an archive. *)
Definition header_maxChunkSize (bytes : list byte) : Z :=
  le_combine (firstn 4 (skipn 8 bytes)).

(** A frame payload [z] that the reader of an archive with maximum
    chunk size [m] turns into the chunk [d]. *)
Definition decodes `{Codec} (m : Z) (z d : list byte) : Prop :=
  inflate z = Some d /\ 0 < len z < 2 ^ 32 /\ len d <= m.

(** The result of the loop of Read when the bytes ahead, in the buffer
    and in the frames still in the file, are [ahead] and [k] of them are
    asked for: they are appended to [p], and the rest stays ahead. *)
Definition stream_post `{Codec} (more ahead : list byte) (k m size0 : Z)
    (bytes0 p : list byte) (length : Z)
    (r : outcome (FILE * RZipFile * list byte * Z * list warning)) : Prop :=
  exists f' h' zs' chunks',
    r = Returns (f', h', p ++ firstn (Z.to_nat k) ahead, length, []) /\
    readable f' /\ rest f' = frames zs' ++ more /\
    Forall2 (decodes m) zs' chunks' /\
    buffer_inv h' /\ chunk_inv h' /\
    avail h' ++ concat chunks' = skipn (Z.to_nat k) ahead /\
    maxChunkSize h' = m /\ size h' = size0 /\ f_bytes f' = bytes0.

(** A run of Read calls, one per destination buffer and each for the
    whole buffer, with the buffers as they come back and the counts. *)
Fixpoint Reads `{Codec} (h : RZipFile) (dests : list (list byte))
  : outcome (RZipFile * list (list byte) * list Z) :=
  match dests with
  | [] => Returns (h, [], [])
  | data :: dests =>
    match Read h data (len data) with
    | Returns (h, data', rv, _) =>
      match Reads h dests with
      | Returns (h, datas, rvs) => Returns (h, data' :: datas, rv :: rvs)
      | Aborts => Aborts
      | OutOfFuel => OutOfFuel
      end
    | Aborts => Aborts
    | OutOfFuel => OutOfFuel
    end
  end.

(** A handle open for reading with the bytes [ahead] still to come:
    what is left of the chunk in the buffer, then what the frames left
    in the file decompress to; [more] is what follows those frames. *)
Definition reader_at `{Codec} (h : RZipFile) (ahead more : list byte) : Prop :=
  exists f zs chunks,
    file h = Some f /\ readable f /\ rest f = frames zs ++ more /\
    Forall2 (decodes (maxChunkSize h)) zs chunks /\
    buffer_inv h /\ chunk_inv h /\ avail h ++ concat chunks = ahead.


(** Two streams open for reading with the same bytes ahead. *)
Definition same_rest (f f' : FILE) : Prop :=
  readable f /\ readable f' /\ rest f' = rest f.

(** [f'] reads the archive of [f] with one frame of length zero
    inserted at a frame boundary: either both are before that frame,
    with the same complete frames [zs] to read first, or both have
    passed it. *)
Definition behind (f f' : FILE) : Prop :=
  same_rest f f' \/
  readable f /\ readable f' /\
  exists zs more,
    Forall (fun z : list byte => len z < 2 ^ 32) zs /\
    rest f = frames zs ++ more /\
    rest f' = frames zs ++ le_split 4 0 ++ more.

(** Calls on a handle open for reading, and what each gives back. *)
Inductive request : Type :=
| DoRead (data : list byte) (length : Z)
| DoSkip (length : Z).

Inductive reply : Type :=
| ReadReply (data : list byte) (rv : Z) (log : list warning)
| SkipReply (rv : Z) (log : list warning).


Fixpoint run `{Codec} (h : RZipFile) (reqs : list request)
  : outcome (RZipFile * list reply) :=
  match reqs with
  | [] => Returns (h, [])
  | DoRead data length :: reqs =>
    match Read h data length with
    | Returns (h, data', rv, log) =>
      match run h reqs with
      | Returns (h, replies) => Returns (h, ReadReply data' rv log :: replies)
      | Aborts => Aborts
      | OutOfFuel => OutOfFuel
      end
    | Aborts => Aborts
    | OutOfFuel => OutOfFuel
    end
  | DoSkip length :: reqs =>
    match Skip h length with
    | Returns (h, rv, log) =>
      match run h reqs with
      | Returns (h, replies) => Returns (h, SkipReply rv log :: replies)
      | Aborts => Aborts
      | OutOfFuel => OutOfFuel
      end
    | Aborts => Aborts
    | OutOfFuel => OutOfFuel
    end
  end.


(** The sample archive with a frame of length zero between its two
    frames. *)
Definition sample_archive_0 : list byte :=
  RZipHeader ++ le_split 4 1048576 ++ le_split 8 10
  ++ (le_split 4 6 ++ Byte.x78 :: hello)
  ++ le_split 4 0
  ++ (le_split 4 6 ++ Byte.x78 :: hello).

(** The round trip without a bound on what is written: whatever the
    Write calls accepted comes back from Read calls whose lengths add
    up to it. *)
Definition round_trip_claim (codec : Codec) (fs : FileSystem) (h0 : RZipFile)
    (path : string) (ds dests : list (list byte)) : Prop :=
  forall fs1 h1 log0 h2 fs3 h3,
    Open fs h0 path true = Returns (fs1, h1, true, log0) ->
    Writes h1 ds = Returns (h2, map len ds) ->
    Close fs1 h2 = (fs3, h3) ->
    sum (map len dests) = len (concat ds) ->
    exists fs4 h4 log h5 datas,
      Open fs3 h3 path false = Returns (fs4, h4, true, log) /\
      Reads h4 dests = Returns (h5, datas, map len dests) /\
      concat datas = concat ds.

(** A disk with room for a terabyte, and two gibibytes of zeros. *)
Definition big_disk : FileSystem := mkFS ∅ (2 ^ 40) ∅.

Definition two_GiB : list byte := repeat Byte.x00 (Z.to_nat (2 ^ 31)).


(** What is left of a file that ends before the next frame is complete:
    fewer than the four bytes of a length, or a length with less payload
    than it announces; [w] is the warning the readers log there. *)
Definition truncated (more : list byte) (w : warning) : Prop :=
  (len more < 4 /\ w = FailedToReadSize) \/
  (exists n part, more = le_split 4 n ++ part /\ 0 < n < 2 ^ 32 /\
                  len part < n /\ w = FailedToReadData).

(** An archive written on a 32-bit platform: the total size takes four
    bytes and the frames start at offset 16. *)
Definition legacy_bytes (m total : Z) (zs : list (list byte)) : list byte :=
  header12 m ++ le_split 4 total ++ frames zs.

(** The bytes [more] make every refill of the chunk buffer of a handle
    with maximum chunk size [m] end in a [break] that logs [w], with
    [behind] left in the file. *)
Definition stops_at `{Codec} (m : Z) (more : list byte) (w : warning)
    (behind : list byte) : Prop :=
  forall f h, readable f -> rest f = more -> maxChunkSize h = m ->
    exists f', refill f h = Break f' (emptied h) w /\ readable f' /\
               rest f' = behind /\ f_bytes f' = f_bytes f.

(** A disk on which the system refuses to create [state.rzip]. *)
Definition locked_disk : FileSystem := mkFS ∅ 65536 {["state.rzip"]}.

(** The sample reader after a Read of three bytes: the first chunk is
    in the buffer and two of its bytes are still to be handed out. *)
Definition sample_reader_3 : RZipFile :=
  mkRZipFile (Some (mkFILE "state.rzip" false sample_archive 30 65536))
             10 1048576 (Some hello) 5 3 false.
(** * Properties *)

(** Projections of updated records. *)
Ltac rsimpl :=
  cbn [file size maxChunkSize chunk chunkSize chunkIndex writing
       set_file set_size set_maxChunkSize set_chunk set_chunkSize
       set_chunkIndex set_writing emptied
       f_path f_wr f_bytes f_pos f_limit set_pos set_bytes fst snd] in *.

(** ** Integers and buffers *)

Lemma u32_range z : 0 <= u32 z < 2 ^ 32.
Proof. unfold u32. apply Z.mod_pos_bound. lia. Qed.

Lemma u32_small z : 0 <= z < 2 ^ 32 -> u32 z = z.
Proof. intros. unfold u32. apply Z.mod_small. lia. Qed.

Lemma u64_small z : 0 <= z < 2 ^ 64 -> u64 z = z.
Proof. intros. unfold u64. apply Z.mod_small. lia. Qed.

Lemma len_nonneg {A} (l : list A) : 0 <= len l.
Proof. unfold len. lia. Qed.

Lemma len_app {A} (l k : list A) : len (l ++ k) = len l + len k.
Proof. unfold len. rewrite length_app. lia. Qed.

Lemma len_firstn {A} (n : Z) (l : list A) :
  0 <= n <= len l -> len (firstn (Z.to_nat n) l) = n.
Proof. unfold len. intros. rewrite length_firstn. lia. Qed.

Lemma len_skipn {A} (n : Z) (l : list A) :
  0 <= n -> len (skipn (Z.to_nat n) l) = Z.max 0 (len l - n).
Proof. unfold len. intros. rewrite length_skipn. lia. Qed.

(** ** The stream *)

Lemma fread_Some n f f' b :
  fread n f = (f', Some b) ->
  f_wr f = false /\ 0 < n /\ 0 <= f_pos f /\
  f_pos f + n <= len (f_bytes f) /\
  f' = set_pos (f_pos f + n) f /\
  b = firstn (Z.to_nat n) (skipn (Z.to_nat (f_pos f)) (f_bytes f)).
Proof.
  unfold fread. destruct (f_wr f); simpl; [discriminate|].
  destruct (Z.leb_spec n 0); simpl; [discriminate|].
  destruct (Z.ltb_spec (f_pos f) 0); simpl; [discriminate|].
  destruct (Z.leb_spec (f_pos f + n) (len (f_bytes f))); [|discriminate].
  intros [= <- <-]. repeat split; auto; lia.
Qed.

Lemma fread_None n f f' :
  fread n f = (f', None) ->
  f_bytes f' = f_bytes f /\ f_wr f' = f_wr f /\ f_path f' = f_path f /\
  f_limit f' = f_limit f /\ (remaining f' <= remaining f)%nat.
Proof.
  unfold fread, remaining. destruct (f_wr f) eqn:Hw; simpl.
  { intros [= <-]. repeat split; auto; lia. }
  destruct (Z.leb_spec n 0); simpl.
  { intros [= <-]. repeat split; auto; lia. }
  destruct (Z.ltb_spec (f_pos f) 0); simpl.
  { intros [= <-]. repeat split; auto; lia. }
  destruct (Z.leb_spec (f_pos f + n) (len (f_bytes f))); [discriminate|].
  intros [= <-]. simpl. repeat split; auto. lia.
Qed.

Lemma fread_remaining n f f' b :
  fread n f = (f', Some b) ->
  (remaining f' + Z.to_nat n = remaining f)%nat /\ len b = n /\
  f_bytes f' = f_bytes f.
Proof.
  intros (Hw & Hn & H0 & Hp & -> & ->)%fread_Some. unfold remaining. simpl.
  split; [lia|]. split; [|reflexivity].
  rewrite len_firstn; [reflexivity|].
  rewrite len_skipn by lia. lia.
Qed.

(** ** The refill block *)

Lemma uncompress_Some `{Codec} n z d :
  uncompress n z = Some d -> inflate z = Some d /\ len d <= n.
Proof.
  unfold uncompress. destruct (inflate z) as [d'|]; [|discriminate].
  destruct (Z.leb_spec (len d') n); [|discriminate].
  intros [= ->]. auto.
Qed.

Lemma refill_cases `{Codec} f h :
  match refill f h with
  | Break f' h' w =>
    h' = emptied h /\ (remaining f' <= remaining f)%nat /\
    f_bytes f' = f_bytes f
  | Continue f' h' =>
    h' = emptied h /\ (remaining f' + 4 <= remaining f)%nat /\
    f_bytes f' = f_bytes f
  | Proceed f' h' =>
    exists d, h' = set_chunkSize (len d) (set_chunk (Some d) (emptied h)) /\
              len d <= maxChunkSize h mod 2 ^ 32 /\
              (remaining f' + 5 <= remaining f)%nat /\
              f_bytes f' = f_bytes f
  end.
Proof.
  unfold refill. fold (emptied h).
  destruct (fread 4 f) as [f1 [b|]] eqn:E1.
  2:{ apply fread_None in E1. tauto. }
  apply fread_remaining in E1 as (R1 & L1 & B1).
  destruct (Z.eqb_spec (le_combine b) 0) as [|Hz].
  { repeat split; [lia|assumption]. }
  destruct (fread (le_combine b) f1) as [f2 [zipped|]] eqn:E2.
  2:{ apply fread_None in E2 as (B2 & _ & _ & _ & R2).
      repeat split; [lia|congruence]. }
  pose proof (fread_Some _ _ _ _ E2) as (_ & Hpos & _).
  apply fread_remaining in E2 as (R2 & L2 & B2).
  destruct (uncompress _ zipped) as [d|] eqn:E3.
  2:{ repeat split; [lia|congruence]. }
  apply uncompress_Some in E3 as [_ Hd].
  exists d. unfold uLongf in Hd. simpl in Hd.
  assert (0 <= maxChunkSize h mod 2 ^ 32 < 2 ^ 32) by (apply Z.mod_pos_bound; lia).
  rewrite u32_small by (pose proof (len_nonneg d); lia).
  repeat split; [assumption|lia|congruence].
Qed.

(** ** The loops of Read and Skip *)

Lemma copy_length_spec h length rv :
  buffer_inv h -> 0 <= rv < length -> length < 2 ^ 32 ->
  let l := copy_length h length rv in
  0 <= l /\ chunkIndex h + l <= chunkSize h /\ rv + l <= length /\
  (l = chunkSize h - chunkIndex h \/ l = length - rv) /\
  u32 (chunkIndex h + l) = chunkIndex h + l /\
  size_t (rv + l) = rv + l.
Proof.
  intros (H0 & H1 & H2 & H3) Hrv Hl. unfold copy_length, size_t.
  rewrite (u32_small length) by lia.
  rewrite !u32_small by lia.
  rewrite Z.mod_small by lia. lia.
Qed.

Lemma len_chunk_bytes h l :
  chunk_inv h -> 0 <= chunkIndex h -> 0 <= l ->
  chunkIndex h + l <= chunkSize h ->
  len (chunk_bytes h l) = l.
Proof.
  unfold chunk_inv, chunk_bytes. intros.
  rewrite len_firstn; [reflexivity|]. rewrite len_skipn by lia. lia.
Qed.

Lemma Read_loop_done `{Codec} fuel length f h p rv :
  length <= rv -> Read_loop fuel length f h p rv = Returns (f, h, p, rv, []).
Proof.
  intros. destruct fuel; simpl; destruct (Z.ltb_spec rv length); auto; lia.
Qed.

Lemma Skip_loop_Read_loop `{Codec} fuel : forall length f h p rv,
  Skip_loop fuel length f h rv = forget_bytes (Read_loop fuel length f h p rv).
Proof.
  induction fuel as [|fuel IH]; intros; simpl;
    destruct (rv <? length); try reflexivity.
  destruct (if chunkIndex h =? chunkSize h then refill f h else Proceed f h);
    auto.
Qed.

Lemma enter_cases `{Codec} f h :
  buffer_inv h -> chunk_inv h ->
  match (if chunkIndex h =? chunkSize h then refill f h else Proceed f h) with
  | Break f' h' w =>
    buffer_inv h' /\ chunk_inv h' /\ maxChunkSize h' = maxChunkSize h /\
    size h' = size h /\ writing h' = writing h /\ f_bytes f' = f_bytes f
  | Continue f' h' =>
    buffer_inv h' /\ chunk_inv h' /\ maxChunkSize h' = maxChunkSize h /\
    size h' = size h /\ writing h' = writing h /\ f_bytes f' = f_bytes f /\
    (measure f' h' < measure f h)%nat
  | Proceed f' h' =>
    buffer_inv h' /\ chunk_inv h' /\ maxChunkSize h' = maxChunkSize h /\
    size h' = size h /\ writing h' = writing h /\ f_bytes f' = f_bytes f /\
    (2 * remaining f' + 1 <= measure f h)%nat
  end.
Proof.
  intros Hb Hc. pose proof Hb as (H0 & H1 & H2 & H3).
  unfold measure. destruct (Z.eqb_spec (chunkIndex h) (chunkSize h)) as [E|E].
  2:{ repeat split; auto; lia. }
  pose proof (refill_cases f h) as R. destruct (refill f h) as [f' h' w|f' h'|f' h'].
  - destruct R as (-> & R & B). unfold buffer_inv, chunk_inv. simpl.
    pose proof (len_nonneg (default [] (chunk h))). repeat split; auto; lia.
  - destruct R as (-> & R & B). unfold buffer_inv, chunk_inv. simpl.
    pose proof (len_nonneg (default [] (chunk h))). repeat split; auto; lia.
  - destruct R as (d & -> & Hd & R & B). unfold buffer_inv, chunk_inv. simpl.
    pose proof (len_nonneg d). rewrite Z.mod_small in Hd by lia.
    repeat split; auto; lia.
Qed.

Lemma consume_cases h length rv :
  buffer_inv h -> chunk_inv h -> 0 <= rv < length -> length < 2 ^ 32 ->
  let l := copy_length h length rv in
  let h' := set_chunkIndex (u32 (chunkIndex h + l)) h in
  buffer_inv h' /\ chunk_inv h' /\ len (chunk_bytes h l) = l /\
  size_t (rv + l) = rv + l /\ 0 <= l /\ rv + l <= length /\
  (rv + l < length -> chunkIndex h' = chunkSize h') /\
  (chunkIndex h < chunkSize h -> 0 < l).
Proof.
  intros Hb Hc Hrv Hl l h'.
  pose proof (copy_length_spec h length rv Hb Hrv Hl) as (L0 & L1 & L2 & L3 & L4 & L5).
  fold l in L0, L1, L2, L3, L4, L5.
  pose proof Hb as (H0 & H1 & H2 & H3).
  subst h'. unfold buffer_inv, chunk_inv in *. simpl. rewrite L4.
  rewrite len_chunk_bytes by (auto; lia).
  repeat split; auto; lia.
Qed.

Lemma Read_loop_spec `{Codec} fuel : forall length f h p rv,
  buffer_inv h -> chunk_inv h -> 0 <= rv <= length -> length < 2 ^ 32 ->
  (rv < length -> (measure f h < fuel)%nat) ->
  exists f' h' q log,
    Read_loop fuel length f h p rv = Returns (f', h', p ++ q, rv + len q, log) /\
    buffer_inv h' /\ chunk_inv h' /\ rv + len q <= length /\
    (log = [] /\ rv + len q = length \/
     exists w, log = [w] /\ rv + len q < length) /\
    maxChunkSize h' = maxChunkSize h /\ size h' = size h /\
    writing h' = writing h /\ f_bytes f' = f_bytes f.
Proof.
  induction fuel as [|fuel IH]; intros length f h p rv Hb Hc Hrv Hl Hm.
  { destruct (Z.le_gt_cases length rv) as [Hd|Hd]; [|specialize (Hm Hd); lia].
    rewrite Read_loop_done by assumption.
    exists f, h, [], []. rewrite app_nil_r. unfold len. simpl.
    rewrite Z.add_0_r. intuition (auto; lia). }
  destruct (Z.le_gt_cases length rv) as [Hd|Hd].
  { rewrite Read_loop_done by assumption.
    exists f, h, [], []. rewrite app_nil_r. unfold len. simpl.
    rewrite Z.add_0_r. intuition (auto; lia). }
  specialize (Hm Hd). simpl.
  destruct (Z.ltb_spec rv length) as [_|]; [|lia].
  pose proof (enter_cases f h Hb Hc) as E.
  destruct (if chunkIndex h =? chunkSize h then refill f h else Proceed f h)
    as [f1 h1 w|f1 h1|f1 h1].
  - destruct E as (Hb1 & Hc1 & E1 & E2 & E3 & E4).
    exists f1, h1, [], [w]. rewrite app_nil_r. unfold len. simpl.
    rewrite Z.add_0_r. intuition (eauto; lia).
  - destruct E as (Hb1 & Hc1 & E1 & E2 & E3 & E4 & M).
    destruct (IH length f1 h1 p rv Hb1 Hc1 Hrv Hl) as (f' & h' & q & log & R & I);
      [lia|].
    exists f', h', q, log. rewrite R. intuition congruence.
  - destruct E as (Hb1 & Hc1 & E1 & E2 & E3 & E4 & M).
    pose proof (consume_cases h1 length rv Hb1 Hc1 (conj (proj1 Hrv) Hd) Hl)
      as (Hb2 & Hc2 & C1 & C2 & C3 & C4 & C5 & _).
    set (l := copy_length h1 length rv) in *.
    set (h2 := set_chunkIndex (u32 (chunkIndex h1 + l)) h1) in *.
    rewrite C2.
    destruct (IH length f1 h2 (p ++ chunk_bytes h1 l) (rv + l) Hb2 Hc2)
      as (f' & h' & q & log & R & I); [lia|lia| |].
    { intros Hlt. unfold measure. rewrite (C5 Hlt), Z.eqb_refl. lia. }
    exists f', h', (chunk_bytes h1 l ++ q), log.
    rewrite R, app_assoc, len_app, C1, Z.add_assoc.
    replace (maxChunkSize h2) with (maxChunkSize h1) in I by reflexivity.
    replace (size h2) with (size h1) in I by reflexivity.
    replace (writing h2) with (writing h1) in I by reflexivity.
    intuition congruence.
Qed.

Lemma Read_loop_buffer_inv `{Codec} fuel : forall length f h p rv r,
  buffer_inv h ->
  Read_loop fuel length f h p rv = Returns r ->
  buffer_inv (snd (fst (fst (fst r)))).
Proof.
  induction fuel as [|fuel IH]; intros length f h p rv r Hb; simpl;
    destruct (rv <? length); try discriminate;
    try (intros [= <-]; exact Hb).
  assert (E : match (if chunkIndex h =? chunkSize h then refill f h
                     else Proceed f h) with
              | Break _ h' _ | Continue _ h' | Proceed _ h' => buffer_inv h'
              end).
  { destruct (chunkIndex h =? chunkSize h); [|exact Hb].
    pose proof Hb as (H0 & H1 & H2 & H3).
    pose proof (refill_cases f h) as R.
    destruct (refill f h); [destruct R as (-> & _)..|destruct R as (d & -> & Hd & _)];
      unfold buffer_inv; simpl; try lia.
    pose proof (len_nonneg d). rewrite Z.mod_small in Hd by lia. lia. }
  destruct (if chunkIndex h =? chunkSize h then refill f h else Proceed f h)
    as [f1 h1 w|f1 h1|f1 h1].
  - intros [= <-]. exact E.
  - apply IH, E.
  - apply IH. destruct E as (H0 & H1 & H2 & H3).
    pose proof (u32_range (chunkSize h1 - chunkIndex h1)).
    pose proof (u32_range (u32 length - rv)).
    unfold buffer_inv, copy_length. simpl.
    rewrite u32_small; rewrite (u32_small (chunkSize h1 - chunkIndex h1)); lia.
Qed.

(** ** Read and Skip as calls *)

Lemma set_file_same h f : file h = Some f -> set_file (Some f) h = h.
Proof. destruct h. simpl. intros ->. reflexivity. Qed.

Lemma Read_spec `{Codec} h f data length :
  file h = Some f -> buffer_inv h -> chunk_inv h -> 0 <= length < 2 ^ 32 ->
  exists f' h' q log,
    Read_loop (read_fuel f) length f h [] 0 = Returns (f', h', q, len q, log) /\
    Read h data length = Returns (set_file (Some f') h', stored data q, len q, log) /\
    buffer_inv h' /\ chunk_inv h' /\ len q <= length /\
    (log = [] /\ len q = length \/ exists w, log = [w] /\ len q < length) /\
    maxChunkSize h' = maxChunkSize h /\ size h' = size h /\
    writing h' = writing h /\ f_bytes f' = f_bytes f.
Proof.
  intros Hf Hb Hc Hl.
  destruct (Read_loop_spec (read_fuel f) length f h [] 0 Hb Hc) as
    (f' & h' & q & log & R & I); [lia|lia| |].
  { intros _. unfold measure, read_fuel.
    destruct (chunkIndex h =? chunkSize h); lia. }
  change ([] ++ q) with q in R. rewrite Z.add_0_l in R, I.
  exists f', h', q, log. unfold Read. rewrite Hf, R. intuition.
Qed.

Lemma Skip_as_Read `{Codec} h data length :
  Skip h length =
  match Read h data length with
  | Returns (h', _, rv, log) => Returns (h', rv, log)
  | Aborts => Aborts
  | OutOfFuel => OutOfFuel
  end.
Proof.
  unfold Skip, Read. destruct (file h) as [f|]; [|reflexivity].
  rewrite (Skip_loop_Read_loop _ _ _ _ [] 0).
  destruct (Read_loop (read_fuel f) length f h [] 0) as [[[[[f' h'] p] rv] log]| |];
    reflexivity.
Qed.

Lemma open_handle_set_file h' f' :
  buffer_inv h' -> chunk_inv h' -> open_handle (set_file (Some f') h').
Proof. intros. split; [eexists; reflexivity|]. split; assumption. Qed.

(** ** Open *)

Lemma fread_app f pre b post :
  f_wr f = false -> f_bytes f = pre ++ b ++ post -> f_pos f = len pre ->
  0 < len b ->
  fread (len b) f = (set_pos (len pre + len b) f, Some b).
Proof.
  intros Hw Hb Hp Hn. unfold fread. rewrite Hw, Hp, Hb. simpl.
  pose proof (len_nonneg pre).
  destruct (Z.leb_spec (len b) 0); [lia|].
  destruct (Z.ltb_spec (len pre) 0); [lia|]. simpl.
  rewrite !len_app. pose proof (len_nonneg post).
  destruct (Z.leb_spec (len pre + len b) (len pre + (len b + len post))); [|lia].
  f_equal. f_equal. unfold len. rewrite !Nat2Z.id.
  rewrite drop_app_length. apply take_app_length.
Qed.

Lemma len_le_split n z : len (le_split n z) = Z.of_nat n.
Proof. unfold len. rewrite length_le_split. reflexivity. Qed.

Lemma bytes_eqb_refl a : bytes_eqb a a = true.
Proof.
  induction a as [|x a IH]; simpl; [reflexivity|].
  rewrite IH, (Byte.byte_dec_lb eq_refl). reflexivity.
Qed.

Lemma Open_read_header fs h path mcs sz rest :
  file h = None -> length mcs = 4%nat -> length sz = 8%nat ->
  fs_files fs !! path = Some (RZipHeader ++ mcs ++ sz ++ rest) ->
  Open fs h path false =
  Returns (fs,
           mkRZipFile
             (Some (mkFILE path false (RZipHeader ++ mcs ++ sz ++ rest)
                           (if Z.shiftr (le_combine sz) 32 =? 0 then 20 else 16)
                           (fs_limit fs)))
             (if Z.shiftr (le_combine sz) 32 =? 0 then le_combine sz
              else Z.land (le_combine sz) 4294967295)
             (le_combine mcs) (Some []) 0 0 false,
           true, []).
Proof.
  intros Hf Hm Hs Hlook. unfold Open, fopen. rewrite Hf, Hlook.
  change (negb false) with true. cbv iota.
  set (bytes := RZipHeader ++ mcs ++ sz ++ rest).
  rewrite (fread_app _ [] RZipHeader (mcs ++ sz ++ rest)); try reflexivity.
  rewrite bytes_eqb_refl. change (negb true) with false. cbv iota.
  replace 4 with (len mcs) at 1 by (unfold len; lia).
  rewrite (fread_app _ RZipHeader mcs (sz ++ rest));
    try reflexivity; [|unfold len; lia].
  replace 8 with (len sz) at 1 by (unfold len; lia).
  rewrite (fread_app _ (RZipHeader ++ mcs) sz rest); try reflexivity;
    [|rewrite len_app; reflexivity|unfold len; lia].
  rsimpl. rewrite !len_app.
  replace (len RZipHeader + len mcs + len sz) with 20
    by (unfold len; rewrite Hm, Hs; reflexivity).
  unfold fseek_cur. rsimpl. change (20 + -4 <? 0) with false. cbv iota.
  destruct (Z.shiftr (le_combine sz) 32 =? 0); reflexivity.
Qed.

Lemma Open_read_buffer_inv fs h path fs' h' log :
  Open fs h path false = Returns (fs', h', true, log) -> buffer_inv h'.
Proof.
  unfold Open. destruct (file h); [discriminate|].
  destruct (fopen fs path false) as [fs1 [f|]]; [|discriminate].
  change (negb false) with true. cbv iota.
  unfold Close.
  destruct (fread (len RZipHeader) f) as [f1 [hd|]]; [|discriminate].
  destruct (bytes_eqb hd RZipHeader); [|discriminate].
  change (negb true) with false. cbv iota.
  destruct (fread 4 f1) as [f2 [b|]] eqn:E; [|discriminate].
  apply fread_remaining in E as (_ & Lb & _).
  destruct (fread 8 f2) as [f3 [b8|]]; [|discriminate].
  pose proof (le_combine_bound b) as Hb.
  replace (8 * Z.of_nat (length b)) with 32 in Hb by (unfold len in Lb; lia).
  destruct (negb _); intros [= <- <- <-]; unfold buffer_inv; simpl; lia.
Qed.

Lemma reader_state_buffer_inv `{Codec} h : reader_state h -> buffer_inv h.
Proof.
  intros R.
  induction R as [fs h path fs' h' log HO
                 |h data length h' data' rv log _ IH HR
                 |h length h' rv log _ IH HS].
  - eapply Open_read_buffer_inv, HO.
  - unfold Read in HR. destruct (file h) as [f|]; [|discriminate].
    destruct (Read_loop _ _ _ _ _ _) as [r| |] eqn:E; try discriminate.
    pose proof (Read_loop_buffer_inv _ _ _ _ _ _ _ IH E) as Hb.
    destruct r as [[[[f1 h1] p] rv1] log1]. injection HR as <- _ _ _. exact Hb.
  - rewrite (Skip_as_Read h [] length) in HS. unfold Read in HS.
    destruct (file h) as [f|]; [|discriminate].
    destruct (Read_loop _ _ _ _ _ _) as [r| |] eqn:E; try discriminate.
    pose proof (Read_loop_buffer_inv _ _ _ _ _ _ _ IH E) as Hb.
    destruct r as [[[[f1 h1] p] rv1] log1]. injection HS as <- _ _. exact Hb.
Qed.

Lemma refill_stores_within `{Codec} f h f' h' :
  buffer_inv h -> refill f h = Proceed f' h' ->
  chunkIndex h' = 0 /\ 0 <= chunkSize h' <= maxChunkSize h' /\
  maxChunkSize h' = maxChunkSize h.
Proof.
  intros (H0 & H1 & H2 & H3) E. pose proof (refill_cases f h) as R.
  rewrite E in R. destruct R as (d & -> & Hd & _). rsimpl.
  rewrite Z.mod_small in Hd by lia. pose proof (len_nonneg d). auto.
Qed.

Lemma Read_from_buffer `{Codec} h f data length :
  file h = Some f -> buffer_inv h ->
  0 < length <= chunkSize h - chunkIndex h ->
  Read h data length =
    Returns (set_chunkIndex (chunkIndex h + length) h,
             stored data (chunk_bytes h length), length, []).
Proof.
  intros Hf (H0 & H1 & H2 & H3) Hl. unfold Read, read_fuel. rewrite Hf.
  cbn [Read_loop]. destruct (Z.ltb_spec 0 length); [|lia].
  destruct (Z.eqb_spec (chunkIndex h) (chunkSize h)); [lia|].
  assert (L : copy_length h length 0 = length).
  { unfold copy_length. rewrite (u32_small length) by lia.
    rewrite Z.sub_0_r, (u32_small length) by lia.
    rewrite (u32_small (chunkSize h - chunkIndex h)) by lia.
    apply Z.min_r. lia. }
  rewrite L. unfold size_t. rewrite Z.add_0_l, Z.mod_small by lia.
  rewrite u32_small by lia.
  destruct (Z.ltb_spec length length); [lia|].
  destruct (remaining f + (remaining f + 0))%nat;
    cbn [Read_loop]; destruct (Z.ltb_spec length length); try lia;
    cbn [app]; rewrite (set_file_same _ f) by exact Hf; reflexivity.
Qed.

(** C9: the reader chunk-buffer invariant
    0 <= chunkIndex <= chunkSize <= maxChunkSize holds for the handle a
    successful Open in read mode returns and for every handle reached
    from it by Read and Skip calls.  On such a handle the buffer is
    refilled only when chunkIndex = chunkSize: while they differ, an
    iteration of Read or Skip takes its bytes from the buffer and leaves
    the file and the buffer content alone, so that a request for no more
    than the chunkSize - chunkIndex bytes left is served without a read
    from the file; and a refill that succeeds stores a chunk size within
    maxChunkSize and sets chunkIndex to 0. *)
Theorem reader_buffer_invariant `{Codec} (h : RZipFile) :
  reader_state h ->
  0 <= chunkIndex h /\ chunkIndex h <= chunkSize h /\
  chunkSize h <= maxChunkSize h /\
  (forall fuel length f p rv,
     rv < length -> chunkIndex h <> chunkSize h ->
     Read_loop (S fuel) length f h p rv =
       Read_loop fuel length f
         (set_chunkIndex (u32 (chunkIndex h + copy_length h length rv)) h)
         (p ++ chunk_bytes h (copy_length h length rv))
         (size_t (rv + copy_length h length rv)) /\
     Skip_loop (S fuel) length f h rv =
       Skip_loop fuel length f
         (set_chunkIndex (u32 (chunkIndex h + copy_length h length rv)) h)
         (size_t (rv + copy_length h length rv))) /\
  (forall f data length,
     file h = Some f -> 0 < length <= chunkSize h - chunkIndex h ->
     Read h data length =
       Returns (set_chunkIndex (chunkIndex h + length) h,
                stored data (chunk_bytes h length), length, []) /\
     Skip h length =
       Returns (set_chunkIndex (chunkIndex h + length) h, length, [])) /\
  (forall f f' h',
     refill f h = Proceed f' h' ->
     chunkIndex h' = 0 /\ 0 <= chunkSize h' <= maxChunkSize h' /\
     maxChunkSize h' = maxChunkSize h).
Proof.
  intros R. pose proof (reader_state_buffer_inv h R) as Hb.
  pose proof Hb as (H0 & H1 & H2 & _).
  split; [exact H0|]. split; [exact H1|]. split; [exact H2|].
  split.
  { intros fuel length f p rv Hrv Hne. cbn [Read_loop Skip_loop].
    destruct (Z.ltb_spec rv length); [|lia].
    destruct (Z.eqb_spec (chunkIndex h) (chunkSize h)); [contradiction|].
    split; reflexivity. }
  split.
  { intros f data length Hf Hl.
    pose proof (Read_from_buffer h f data length Hf Hb Hl) as E.
    split; [exact E|]. rewrite (Skip_as_Read h data length), E. reflexivity. }
  intros f f' h' E. exact (refill_stores_within f h f' h' Hb E).
Qed.

Lemma sample_reader_opened :
  Open sample_disk closed_handle "state.rzip" false =
  Returns (sample_disk, sample_reader, true, []).
Proof. vm_compute. reflexivity. Qed.

Lemma reader_buffer_invariant_witness :
  0 <= chunkIndex sample_reader_3 /\
  chunkIndex sample_reader_3 <= chunkSize sample_reader_3 /\
  chunkSize sample_reader_3 <= maxChunkSize sample_reader_3 /\
  (forall fuel length f p rv,
     rv < length -> chunkIndex sample_reader_3 <> chunkSize sample_reader_3 ->
     Read_loop (H := stored_codec) (S fuel) length f sample_reader_3 p rv =
       Read_loop (H := stored_codec) fuel length f
         (set_chunkIndex
            (u32 (chunkIndex sample_reader_3
                  + copy_length sample_reader_3 length rv)) sample_reader_3)
         (p ++ chunk_bytes sample_reader_3
                 (copy_length sample_reader_3 length rv))
         (size_t (rv + copy_length sample_reader_3 length rv)) /\
     Skip_loop (H := stored_codec) (S fuel) length f sample_reader_3 rv =
       Skip_loop (H := stored_codec) fuel length f
         (set_chunkIndex
            (u32 (chunkIndex sample_reader_3
                  + copy_length sample_reader_3 length rv)) sample_reader_3)
         (size_t (rv + copy_length sample_reader_3 length rv))) /\
  (forall f data length,
     file sample_reader_3 = Some f ->
     0 < length <= chunkSize sample_reader_3 - chunkIndex sample_reader_3 ->
     Read (H := stored_codec) sample_reader_3 data length =
       Returns (set_chunkIndex (chunkIndex sample_reader_3 + length)
                               sample_reader_3,
                stored data (chunk_bytes sample_reader_3 length), length, []) /\
     Skip (H := stored_codec) sample_reader_3 length =
       Returns (set_chunkIndex (chunkIndex sample_reader_3 + length)
                               sample_reader_3, length, [])) /\
  (forall f f' h',
     refill (H := stored_codec) f sample_reader_3 = Proceed f' h' ->
     chunkIndex h' = 0 /\ 0 <= chunkSize h' <= maxChunkSize h' /\
     maxChunkSize h' = maxChunkSize sample_reader_3).
Proof.
  refine (reader_buffer_invariant (H := stored_codec) sample_reader_3 _).
  eapply (reader_read (H := stored_codec) sample_reader [] 3).
  - eapply reader_opened. exact sample_reader_opened.
  - vm_compute. reflexivity.
Defined.

(** C10: a Read or a Skip of length zero on an open handle returns 0,
    reports nothing, and leaves the handle (file position, chunkIndex,
    chunkSize and all other members) and the destination as they were. *)
Theorem zero_length_request_is_noop `{Codec} (h : RZipFile) (f : FILE)
    (data : list byte) :
  file h = Some f ->
  Read h data 0 = Returns (h, data, 0, []) /\
  Skip h 0 = Returns (h, 0, []).
Proof.
  intros Hf. unfold Read, Skip. rewrite Hf.
  rewrite Read_loop_done by lia.
  destruct (read_fuel f); simpl; rewrite (set_file_same h f Hf); auto.
Qed.

Lemma zero_length_request_is_noop_witness :
  Read (H := stored_codec) sample_reader hello 0 =
    Returns (sample_reader, hello, 0, []) /\
  Skip (H := stored_codec) sample_reader 0 = Returns (sample_reader, 0, []).
Proof.
  apply (zero_length_request_is_noop (H := stored_codec) sample_reader
           (mkFILE "state.rzip" false sample_archive 20 65536) hello).
  reflexivity.
Defined.

(** C2: on an open handle, Skip(n) returns the count, the warnings and
    the handle state that Read(n) returns, so the Read(m) that follows
    either of them is the same call on the same state and yields the
    same bytes and the same final state. *)
Theorem Skip_then_Read_is_Read_then_Read `{Codec} (h : RZipFile)
    (scratch data : list byte) (n m : Z) :
  open_handle h -> 0 <= n < 2 ^ 32 -> 0 <= m < 2 ^ 32 ->
  exists h1 scratch' rv1 log1 h2 data' rv2 log2,
    Skip h n = Returns (h1, rv1, log1) /\
    Read h scratch n = Returns (h1, scratch', rv1, log1) /\
    Read h1 data m = Returns (h2, data', rv2, log2).
Proof.
  intros ([f Hf] & Hb & Hc) Hn Hm.
  destruct (Read_spec h f scratch n Hf Hb Hc Hn)
    as (f1 & h1 & q1 & log1 & _ & R1 & Hb1 & Hc1 & _).
  destruct (Read_spec (set_file (Some f1) h1) f1 data m eq_refl Hb1 Hc1 Hm)
    as (f2 & h2 & q2 & log2 & _ & R2 & _).
  exists (set_file (Some f1) h1), (stored scratch q1), (len q1), log1.
  exists (set_file (Some f2) h2), (stored data q2), (len q2), log2.
  rewrite (Skip_as_Read h scratch n), R1. auto.
Qed.

Lemma sample_reader_open : open_handle sample_reader.
Proof.
  split; [eexists; reflexivity|].
  unfold buffer_inv, chunk_inv. simpl. unfold len. simpl. lia.
Qed.

Lemma Skip_then_Read_is_Read_then_Read_witness :
  exists h1 scratch' rv1 log1 h2 data' rv2 log2,
    Skip (H := stored_codec) sample_reader 3 = Returns (h1, rv1, log1) /\
    Read (H := stored_codec) sample_reader hello 3 =
      Returns (h1, scratch', rv1, log1) /\
    Read (H := stored_codec) h1 hello 4 = Returns (h2, data', rv2, log2).
Proof.
  apply (Skip_then_Read_is_Read_then_Read (H := stored_codec)
           sample_reader hello hello 3 4).
  - exact sample_reader_open.
  - lia.
  - lia.
Defined.

(** C3: when Open in read mode has read the 8-byte size field, either
    some of its high 32 bits are set, and then [size] becomes the low
    32 bits and the file position goes back by 4 (to offset 16, four
    bytes after the start of the field), or they are all zero, and then
    [size] is the field and the position stays behind it (offset 20). *)
Theorem Open_legacy_size_rule (fs : FileSystem) (h : RZipFile) (path : string)
    (mcs sz rest : list byte) :
  file h = None -> length mcs = 4%nat -> length sz = 8%nat ->
  fs_files fs !! path = Some (RZipHeader ++ mcs ++ sz ++ rest) ->
  exists h' f',
    Open fs h path false = Returns (fs, h', true, []) /\
    file h' = Some f' /\
    f_bytes f' = RZipHeader ++ mcs ++ sz ++ rest /\
    (Z.shiftr (le_combine sz) 32 <> 0 ->
     size h' = le_combine sz mod 2 ^ 32 /\
     size h' = le_combine (firstn 4 sz) /\
     f_pos f' = 20 - 4) /\
    (Z.shiftr (le_combine sz) 32 = 0 ->
     size h' = le_combine sz /\ f_pos f' = 20).
Proof.
  intros Hf Hm Hs Hl.
  rewrite (Open_read_header fs h path mcs sz rest Hf Hm Hs Hl).
  eexists _, _. split; [reflexivity|]. split; [reflexivity|]. rsimpl.
  split; [reflexivity|].
  destruct (Z.eqb_spec (Z.shiftr (le_combine sz) 32) 0) as [E|E].
  - split; [contradiction|]. auto.
  - split; [|contradiction]. intros _.
    assert (L : Z.land (le_combine sz) 4294967295 = le_combine sz mod 2 ^ 32).
    { change 4294967295 with (Z.ones 32). apply Z.land_ones. lia. }
    rewrite L. split; [reflexivity|]. split; [|reflexivity].
    rewrite le_combine_firstn. reflexivity.
Qed.

Lemma Open_legacy_size_rule_witness :
  exists h' f',
    Open (mkFS (<["old.rzip" := legacy_archive]> ∅) 65536 ∅) closed_handle
         "old.rzip" false =
      Returns (mkFS (<["old.rzip" := legacy_archive]> ∅) 65536 ∅, h', true, []) /\
    file h' = Some f' /\
    f_bytes f' = legacy_archive /\
    (Z.shiftr 25769803781 32 <> 0 ->
     size h' = 5 /\ size h' = 5 /\ f_pos f' = 16) /\
    (Z.shiftr 25769803781 32 = 0 ->
     size h' = 25769803781 /\ f_pos f' = 20).
Proof.
  apply (Open_legacy_size_rule
           (mkFS (<["old.rzip" := legacy_archive]> ∅) 65536 ∅) closed_handle
           "old.rzip" (le_split 4 1048576)
           (le_split 4 5 ++ le_split 4 6)
           (Byte.x78 :: hello)).
  - reflexivity.
  - reflexivity.
  - reflexivity.
  - vm_compute. reflexivity.
Defined.





(** The sample archive holds ten bytes: a Read of twelve returns ten,
    leaves the last two bytes of the destination alone and logs the
    failed read of the next frame length. *)
Example Read_past_end_of_sample :
  Read (H := stored_codec) sample_reader (repeat Byte.xff 12) 12 =
  Returns (mkRZipFile (Some (mkFILE "state.rzip" false sample_archive 40 65536))
                      10 1048576 (Some hello) 0 0 false,
           hello ++ hello ++ [Byte.xff; Byte.xff], 10, [FailedToReadSize]).
Proof. vm_compute. reflexivity. Qed.

(** C5: Open in write mode followed at once by Close leaves a file of
    12 bytes, the magic and the maximum chunk size: the 8 reserved bytes
    are never written.  Open in read mode then fails on the header. *)
Theorem Open_write_Close_leaves_12_bytes :
  exists fs1 h1 fs2 h2,
    Open empty_disk closed_handle "state.rzip" true = Returns (fs1, h1, true, []) /\
    Close fs1 h1 = (fs2, h2) /\
    fs_files fs2 !! "state.rzip" = Some (RZipHeader ++ le_split 4 1048576) /\
    len (RZipHeader ++ le_split 4 1048576) = 12 /\
    Open fs2 h2 "state.rzip" false =
      Returns (fs2, h2, false, [FailedToValidateHeader]).
Proof.
  eexists _, _, _, _. split; [vm_compute; reflexivity|].
  split; [vm_compute; reflexivity|].
  split; [vm_compute; reflexivity|].
  split; vm_compute; reflexivity.
Qed.

(** ** Writing to the stream *)

Lemma fwrite_true data f f' :
  fwrite data f = (f', true) ->
  f_wr f = true /\ 0 < len data /\ f_pos f + len data <= f_limit f /\
  f' = set_pos (f_pos f + len data)
               (set_bytes (write_at (f_pos f) data (f_bytes f)) f).
Proof.
  unfold fwrite. destruct (f_wr f); simpl; [|discriminate].
  pose proof (len_nonneg data).
  destruct (Z.eqb_spec (len data) 0); [discriminate|].
  destruct (Z.leb_spec (f_pos f + len data) (f_limit f)); [|discriminate].
  intros [= <-]. repeat split; auto. lia.
Qed.

Lemma fwrite_offsets data f f' ok :
  fwrite data f = (f', ok) -> offsets_ok f ->
  offsets_ok f' /\ f_pos f <= f_pos f' /\ f_wr f' = f_wr f /\
  f_limit f' = f_limit f /\ f_path f' = f_path f.
Proof.
  unfold fwrite, offsets_ok. intros E [Hp Hl]. pose proof (len_nonneg data).
  destruct (negb (f_wr f) || (len data =? 0)).
  { injection E as <- _. repeat split; auto; lia. }
  destruct (Z.leb_spec (f_pos f + len data) (f_limit f));
    injection E as <- _; simpl; repeat split; auto; lia.
Qed.

Lemma skipn_write_at pos data bytes :
  0 <= pos -> data <> [] ->
  firstn (length data) (skipn (Z.to_nat pos) (write_at pos data bytes)) = data.
Proof.
  intros Hp Hd. unfold write_at. destruct data as [|x data]; [contradiction|].
  set (d := x :: data).
  assert (L : length (firstn (Z.to_nat pos)
                (bytes ++ repeat Byte.x00 (Z.to_nat pos - length bytes)))
              = Z.to_nat pos).
  { rewrite length_firstn, length_app, repeat_length. lia. }
  rewrite <- L at 1. rewrite drop_app_length. apply take_app_length.
Qed.

Lemma rewrite_size_spec f h f' :
  rewrite_size f h = Some f' -> offsets_ok f ->
  f_pos f' = f_pos f /\ offsets_ok f' /\ f_wr f' = f_wr f /\
  f_limit f' = f_limit f /\ f_path f' = f_path f /\
  f_bytes f' = write_at 12 (le_split 8 (size h)) (f_bytes f) /\
  firstn 8 (skipn 12 (f_bytes f')) = le_split 8 (size h).
Proof.
  unfold rewrite_size, ftell, fseek_set, offsets_ok. intros E [Hp Hl].
  change (len RZipHeader + 4) with 12 in E. simpl in E.
  destruct (fwrite _ _) as [f1 [|]] eqn:W; [|discriminate].
  apply fwrite_true in W as (Hw & _ & _ & ->). simpl in *.
  rewrite u64_small in E by lia.
  destruct (Z.ltb_spec (f_pos f) 0); [lia|]. injection E as <-. simpl.
  repeat split; auto; try lia.
  apply (skipn_write_at 12 (le_split 8 (size h)) (f_bytes f)); [lia|discriminate].
Qed.

(** ** The loop of Write *)

Lemma u64_add_l a b : u64 (u64 a + b) = u64 (a + b).
Proof. unfold u64. apply Zplus_mod_idemp_l. Qed.

Lemma Write_loop_done `{Codec} fuel length mz f h p rv :
  length <= rv -> Write_loop fuel length mz f h p rv = Returns (f, h, rv, []).
Proof.
  intros. destruct fuel; simpl; destruct (Z.ltb_spec rv length); auto; lia.
Qed.

Lemma uncompressedSize_spec m length rv :
  0 < m < 2 ^ 32 -> 0 <= rv < length -> length < 2 ^ 32 ->
  let n := uLongf (Z.min m (u32 (length - rv))) in
  n = Z.min m (length - rv) /\ 0 < n /\ size_t (rv + n) = rv + n.
Proof.
  intros Hm Hrv Hl. unfold uLongf, size_t. rewrite u32_small by lia.
  rewrite Z.mod_small by lia. rewrite Z.mod_small by lia. lia.
Qed.

Lemma Write_loop_spec `{Codec} fuel : forall length mz f h p rv,
  0 < maxChunkSize h < 2 ^ 32 -> 0 <= rv <= length -> length < 2 ^ 32 ->
  offsets_ok f -> (Z.to_nat (length - rv) < fuel)%nat ->
  exists f' h' rv' log,
    Write_loop fuel length mz f h p rv = Returns (f', h', rv', log) /\
    rv <= rv' <= length /\
    u64 (size h') = u64 (size h + (rv' - rv)) /\
    file h' = file h /\ same_reader_fields h' h /\
    offsets_ok f' /\ f_wr f' = f_wr f /\ f_limit f' = f_limit f /\
    f_path f' = f_path f /\
    (log = [] /\ rv' = length \/ exists w, log = [w] /\ rv' < length).
Proof.
  induction fuel as [|fuel IH]; intros length mz f h p rv Hm Hrv Hl Ho Hf; [lia|].
  destruct (Z.le_gt_cases length rv) as [Hd|Hd].
  { rewrite Write_loop_done by assumption. exists f, h, rv, [].
    rewrite Z.sub_diag, Z.add_0_r. unfold same_reader_fields.
    intuition (auto; lia). }
  simpl. destruct (Z.ltb_spec rv length); [|lia].
  pose proof (uncompressedSize_spec (maxChunkSize h) length rv Hm
                (conj (proj1 Hrv) Hd) Hl) as (N1 & N2 & N3).
  set (n := uLongf (Z.min (maxChunkSize h) (u32 (length - rv)))) in *.
  assert (Stop : forall f1 (w : warning), offsets_ok f1 -> f_wr f1 = f_wr f ->
            f_limit f1 = f_limit f -> f_path f1 = f_path f ->
            exists f' h' rv' log,
              Returns (f1, h, rv, [w]) = Returns (f', h', rv', log) /\
              rv <= rv' <= length /\
              u64 (size h') = u64 (size h + (rv' - rv)) /\
              file h' = file h /\ same_reader_fields h' h /\
              offsets_ok f' /\ f_wr f' = f_wr f /\ f_limit f' = f_limit f /\
              f_path f' = f_path f /\
              (log = [] /\ rv' = length \/ exists w, log = [w] /\ rv' < length)).
  { intros f1 w ? ? ? ?. exists f1, h, rv, [w].
    rewrite Z.sub_diag, Z.add_0_r. unfold same_reader_fields.
    intuition (eauto; lia). }
  destruct (compress mz _) as [zipped|]; [|apply Stop; auto].
  destruct (fwrite (le_split 4 _) f) as [f1 ok1] eqn:W1.
  apply fwrite_offsets in W1 as (O1 & P1 & A1 & B1 & C1); [|assumption].
  destruct ok1; [|apply Stop; auto].
  destruct (fwrite zipped f1) as [f2 ok2] eqn:W2.
  apply fwrite_offsets in W2 as (O2 & P2 & A2 & B2 & C2); [|assumption].
  destruct ok2; [|apply Stop; congruence].
  rewrite N3.
  destruct (IH length mz f2 (set_size (u64 (size h + n)) h)
               (skipn (Z.to_nat n) p) (rv + n))
    as (f' & h' & rv' & log & R & I1 & I2 & I3 & I4 & I5 & I6 & I7 & I8 & I9);
    [assumption|lia|lia|assumption|lia|].
  exists f', h', rv', log. rewrite R. simpl in I2. rewrite u64_add_l in I2.
  replace (size h + n + (rv' - (rv + n))) with (size h + (rv' - rv)) in I2 by lia.
  split; [reflexivity|]. split; [lia|]. split; [assumption|].
  split; [assumption|]. split; [exact I4|]. split; [assumption|].
  split; [congruence|]. split; [congruence|]. split; [congruence|].
  destruct I9 as [[-> ->]|(w & -> & ?)]; [left; auto|right; eauto].
Qed.

(** ** Write as a call *)

Lemma Open_write_spec fs h path fs1 h1 log :
  Open fs h path true = Returns (fs1, h1, true, log) ->
  exists f, file h1 = Some f /\
    f_bytes f = RZipHeader ++ le_split 4 1048576 /\ f_pos f = 20 /\
    f_wr f = true /\ f_limit f = fs_limit fs /\ f_path f = path /\
    20 <= fs_limit fs + 8 /\
    size h1 = 0 /\ maxChunkSize h1 = 1048576 /\ log = [] /\
    fs1 = mkFS (<[path := []]> (fs_files fs)) (fs_limit fs) (fs_denied fs).
Proof.
  unfold Open. destruct (file h); [discriminate|]. unfold fopen, Close.
  cbv iota. destruct (bool_decide (path ∈ fs_denied fs)); [discriminate|].
  change (negb true) with false. cbv iota.
  destruct (fwrite RZipHeader _) as [f1 [|]] eqn:W1; [|discriminate].
  apply fwrite_true in W1 as (_ & _ & L1 & ->).
  destruct (fwrite (le_split 4 _) _) as [f2 [|]] eqn:W2; [|discriminate].
  apply fwrite_true in W2 as (_ & _ & L2 & ->).
  unfold fseek_cur. rsimpl.
  match goal with |- context [?a <? 0] => destruct (Z.ltb_spec a 0) end;
    [discriminate|].
  intros [= <- <- <-]. eexists. split; [reflexivity|].
  rsimpl. rewrite len_le_split in *. change (len RZipHeader) with 8 in *.
  repeat split; try reflexivity; lia.
Qed.

Lemma Write_unfold `{Codec} h f data length :
  file h = Some f -> offsets_ok f -> 0 < maxChunkSize h < 2 ^ 32 ->
  0 <= length < 2 ^ 32 ->
  exists f1 h1 rv log,
    Write_loop (S (Z.to_nat length)) length (maxZippedSize_of h) f h data 0 =
      Returns (f1, h1, rv, log) /\
    Write h data length =
      match rewrite_size f1 h1 with
      | Some f' => Returns (set_file (Some f') h1, rv, log)
      | None => Aborts
      end /\
    0 <= rv <= length /\ u64 (size h1) = u64 (size h + rv) /\
    same_reader_fields h1 h /\ offsets_ok f1 /\ f_wr f1 = f_wr f /\
    f_limit f1 = f_limit f /\ f_path f1 = f_path f /\
    (log = [] /\ rv = length \/ exists w, log = [w] /\ rv < length).
Proof.
  intros Hf Ho Hm Hl.
  destruct (Write_loop_spec (S (Z.to_nat length)) length (maxZippedSize_of h)
              f h data 0 Hm) as (f1 & h1 & rv & log & R & I1 & I2 & I3 & I4 & I);
    [lia|lia|assumption|lia|].
  exists f1, h1, rv, log. rewrite Z.sub_0_r in I2.
  unfold Write. rewrite Hf. fold (maxZippedSize_of h). rewrite R.
  split; [reflexivity|]. split; [reflexivity|]. split; [lia|].
  split; [assumption|]. split; [assumption|]. exact I.
Qed.

Lemma header_size_written bytes s :
  firstn 8 (skipn 12 bytes) = le_split 8 s -> header_size bytes = u64 s.
Proof.
  unfold header_size, u64. intros ->. rewrite le_combine_split. reflexivity.
Qed.

Lemma Write_returns `{Codec} h data h' rv log :
  writer_inv h -> len data < 2 ^ 32 ->
  Write h data (len data) = Returns (h', rv, log) ->
  writer_inv h' /\ 0 <= rv <= len data /\
  u64 (size h') = u64 (size h + rv) /\
  exists f', file h' = Some f' /\ header_size (f_bytes f') = u64 (size h').
Proof.
  intros (f & Hf & Ho & Hm) Hl E. pose proof (len_nonneg data).
  destruct (Write_unfold h f data (len data) Hf Ho Hm)
    as (f1 & h1 & rv1 & log1 & _ & W & I1 & I2 & I3 & I4 & _); [lia|].
  rewrite W in E. destruct (rewrite_size f1 h1) as [f'|] eqn:S; [|discriminate].
  injection E as <- <- <-.
  apply rewrite_size_spec in S as (S1 & S2 & S3 & S4 & S5 & S6 & S7);
    [|assumption].
  destruct I3 as (M & _). repeat split; auto; try lia.
  - exists f'. simpl. rewrite M. auto.
  - exists f'. split; [reflexivity|]. apply header_size_written, S7.
Qed.

Lemma Writes_returns `{Codec} ds : forall h h' rvs,
  writer_inv h -> Forall (fun d : list byte => len d < 2 ^ 32) ds ->
  Writes h ds = Returns (h', rvs) ->
  writer_inv h' /\ Forall (fun rv => 0 <= rv) rvs /\
  u64 (size h') = u64 (size h + sum rvs) /\
  (ds <> [] -> exists f', file h' = Some f' /\
                          header_size (f_bytes f') = u64 (size h')).
Proof.
  induction ds as [|d ds IH]; intros h h' rvs Hw Hd E; simpl in E.
  { injection E as <- <-. simpl. rewrite Z.add_0_r.
    split; [assumption|]. split; [constructor|]. split; [reflexivity|].
    intros C. contradiction. }
  inversion Hd as [|? ? Hd1 Hd2]; subst.
  destruct (Write h d (len d)) as [[[h1 rv] log]| |] eqn:W; try discriminate.
  destruct (Writes h1 ds) as [[h2 rvs2]| |] eqn:Ws; try discriminate.
  injection E as <- <-.
  apply Write_returns in W as (Hw1 & Hrv & Hs1 & Hh1); auto.
  destruct (IH _ _ _ Hw1 Hd2 Ws) as (Hw2 & Hrvs & Hs2 & Hh2).
  split; [assumption|]. split; [constructor; [lia|assumption]|].
  split.
  - rewrite Hs2. simpl. rewrite <- u64_add_l, Hs1, u64_add_l. f_equal. lia.
  - intros _. destruct ds as [|d' ds'].
    + simpl in Ws. injection Ws as <- <-. exact Hh1.
    + apply Hh2. discriminate.
Qed.

Lemma sum_nonneg rvs : Forall (fun rv => 0 <= rv) rvs -> 0 <= sum rvs.
Proof. induction 1; simpl; lia. Qed.

(** C7: on a handle opened for writing, after any earlier Write calls,
    a Write call that returns (its loop ran to the end, or stopped on a
    codec error or a short write, as its log tells) leaves in the 8
    bytes at offset 12 the number of bytes accepted by all the calls so
    far, and the file position where its loop left it, which is where
    the next frame goes. *)
Theorem header_size_is_fresh `{Codec} (fs fs1 : FileSystem)
    (h0 h1 h h' : RZipFile) (path : string) (log0 log : list warning)
    (ds : list (list byte)) (d : list byte) (rvs : list Z) (rv : Z) :
  Open fs h0 path true = Returns (fs1, h1, true, log0) ->
  fs_limit fs < 2 ^ 63 ->
  Forall (fun d : list byte => len d < 2 ^ 32) ds -> len d < 2 ^ 32 ->
  Writes h1 ds = Returns (h, rvs) ->
  Write h d (len d) = Returns (h', rv, log) ->
  sum rvs + rv < 2 ^ 64 ->
  exists f f1 hl f',
    file h = Some f /\
    Write_loop (S (Z.to_nat (len d))) (len d) (maxZippedSize_of h) f h d 0 =
      Returns (f1, hl, rv, log) /\
    (log = [] /\ rv = len d \/ exists w, log = [w] /\ rv < len d) /\
    file h' = Some f' /\
    header_size (f_bytes f') = sum rvs + rv /\
    f_pos f' = f_pos f1.
Proof.
  intros HO Hlim Hds Hd HWs HW Hsum.
  apply Open_write_spec in HO
    as (f0 & F0 & _ & P0 & _ & L0 & _ & _ & S0 & M0 & _).
  assert (W1 : writer_inv h1).
  { exists f0. unfold offsets_ok. rewrite P0, L0, M0. repeat split; auto; lia. }
  apply Writes_returns in HWs as (Wh & Hrvs & Hs & _); auto.
  rewrite S0, Z.add_0_l in Hs. apply sum_nonneg in Hrvs.
  destruct Wh as (f & Hf & Ho & Hm). pose proof (len_nonneg d).
  destruct (Write_unfold h f d (len d) Hf Ho Hm)
    as (f1 & hl & rv1 & log1 & L & W & I1 & I2 & _ & I4 & _ & _ & _ & I5); [lia|].
  rewrite W in HW. destruct (rewrite_size f1 hl) as [f'|] eqn:S; [|discriminate].
  injection HW as <- <- <-.
  apply rewrite_size_spec in S as (S1 & _ & _ & _ & _ & _ & S7); [|assumption].
  exists f, f1, hl, f'. repeat split; auto.
  rewrite (header_size_written _ _ S7), I2, <- u64_add_l, Hs, u64_add_l.
  apply u64_small. lia.
Qed.

Lemma fresh_writer_opened :
  Open empty_disk closed_handle "state.rzip" true =
  Returns (fresh_disk, fresh_writer, true, []).
Proof. vm_compute. reflexivity. Qed.

Lemma first_Write_hello :
  Write (H := stored_codec) fresh_writer hello (len hello) =
  Returns (writer_after_one, 5, []).
Proof. vm_compute. reflexivity. Qed.

Lemma second_Write_hello :
  Write (H := stored_codec) writer_after_one hello (len hello) =
  Returns (writer_after_two, 5, []).
Proof. vm_compute. reflexivity. Qed.

Lemma header_size_is_fresh_witness :
  exists f f1 hl f',
    file writer_after_one = Some f /\
    Write_loop (H := stored_codec) (S (Z.to_nat (len hello))) (len hello)
               (maxZippedSize_of writer_after_one) f writer_after_one hello 0 =
      Returns (f1, hl, 5, []) /\
    (@nil warning = [] /\ 5 = len hello \/
     exists w, @nil warning = [w] /\ 5 < len hello) /\
    file writer_after_two = Some f' /\
    header_size (f_bytes f') = sum [5] + 5 /\
    f_pos f' = f_pos f1.
Proof.
  apply (header_size_is_fresh (H := stored_codec) empty_disk fresh_disk
           closed_handle fresh_writer writer_after_one writer_after_two
           "state.rzip" [] [] [hello] hello [5] 5).
  - exact fresh_writer_opened.
  - vm_compute. reflexivity.
  - constructor; [vm_compute; reflexivity|constructor].
  - vm_compute. reflexivity.
  - vm_compute. reflexivity.
  - vm_compute. reflexivity.
  - vm_compute. reflexivity.
Defined.

(** ** The bytes Write puts in the file *)

Lemma write_at_padded pos data bytes :
  len bytes <= pos -> data <> [] ->
  write_at pos data bytes =
  (bytes ++ repeat Byte.x00 (Z.to_nat pos - length bytes)) ++ data.
Proof.
  intros Hp Hd. unfold write_at, len in *.
  destruct data as [|x data]; [contradiction|].
  rewrite firstn_all2 by (rewrite length_app, repeat_length; lia).
  rewrite skipn_all2 by lia. rewrite app_nil_r. reflexivity.
Qed.

Lemma write_at_patch pre old post data :
  length old = length data -> data <> [] ->
  write_at (len pre) data (pre ++ old ++ post) = pre ++ data ++ post.
Proof.
  intros Hl Hd. unfold write_at, len.
  destruct data as [|x data]; [contradiction|]. rewrite Nat2Z.id.
  rewrite <- app_assoc, take_app_length. f_equal. f_equal.
  rewrite <- Hl, app_assoc, <- length_app. apply drop_app_length.
Qed.

Lemma padded_full f : len (f_bytes f) = f_pos f -> padded f = f_bytes f.
Proof.
  unfold padded, len. intros E.
  replace (Z.to_nat (f_pos f) - length (f_bytes f))%nat with 0%nat by lia.
  apply app_nil_r.
Qed.

Lemma fwrite_padded data f f' :
  fwrite data f = (f', true) -> len (f_bytes f) <= f_pos f ->
  f_bytes f' = padded f ++ data /\ f_pos f' = f_pos f + len data /\
  len (f_bytes f') = f_pos f' /\ padded f' = padded f ++ data.
Proof.
  intros (Hw & Hn & Hl & ->)%fwrite_true Hp. rsimpl.
  assert (Hd : data <> []) by (intros ->; unfold len in Hn; simpl in Hn; lia).
  rewrite (write_at_padded _ _ _ Hp Hd). fold (padded f).
  assert (L : len (padded f ++ data) = f_pos f + len data).
  { unfold padded. rewrite !len_app. unfold len in *.
    rewrite repeat_length. lia. }
  split; [reflexivity|]. split; [reflexivity|]. split; [exact L|].
  apply (padded_full (mkFILE _ _ _ _ _)). exact L.
Qed.

Lemma compress_Some `{Codec} n d z :
  compress n d = Some z -> deflate d = Some z /\ len z <= n.
Proof.
  unfold compress. destruct (deflate d) as [z'|]; [|discriminate].
  destruct (Z.leb_spec (len z') n); [|discriminate].
  intros [= ->]. auto.
Qed.

Lemma len_nil_inv {A} (l : list A) : len l = 0 -> l = [].
Proof. destruct l; [reflexivity|]. unfold len. simpl. lia. Qed.

Lemma uniform_concat m cs :
  0 < m -> uniform m cs -> cs <> [] -> concat cs <> [].
Proof.
  intros Hm U Hne. destruct U as [|d Hd|d ds Hd _ _]; [contradiction| |];
    cbn [concat]; intros E; apply app_eq_nil in E as [E _];
    rewrite E in Hd; unfold len in Hd; simpl in Hd; lia.
Qed.

Lemma uniform_Forall m cs :
  uniform m cs -> Forall (fun c : list byte => len c <= m) cs.
Proof. induction 1; constructor; auto; lia. Qed.

Lemma frames_cons z zs : frames (z :: zs) = frame z ++ frames zs.
Proof. reflexivity. Qed.

Lemma Write_loop_content `{Codec} fuel : forall length mz f h p rv f' h' log,
  0 < maxChunkSize h < 2 ^ 32 -> mz < 2 ^ 32 ->
  0 <= rv <= length -> length < 2 ^ 32 -> len p = length - rv ->
  len (f_bytes f) <= f_pos f ->
  Write_loop fuel length mz f h p rv = Returns (f', h', length, log) ->
  exists zs chunks,
    Forall2 (fun z d => compress mz d = Some z) zs chunks /\
    concat chunks = p /\ uniform (maxChunkSize h) chunks /\
    padded f' = padded f ++ frames zs /\
    f_pos f' = f_pos f + len (frames zs) /\
    (zs = [] -> f' = f) /\
    (zs <> [] -> len (f_bytes f') = f_pos f') /\ log = [].
Proof.
  assert (Base : forall (f f' : FILE) (h h' : RZipFile) p rv length log m,
            len p = length - rv ->
            Returns (f, h, rv, @nil warning) = Returns (f', h', length, log) ->
            exists zs chunks,
              Forall2 (fun z d => compress m d = Some z) zs chunks /\
              concat chunks = p /\ uniform (maxChunkSize h) chunks /\
              padded f' = padded f ++ frames zs /\
              f_pos f' = f_pos f + len (frames zs) /\
              (zs = [] -> f' = f) /\
              (zs <> [] -> len (f_bytes f') = f_pos f') /\ log = []).
  { intros f f' h h' p rv length log m Hp [= <- <- -> <-].
    rewrite Z.sub_diag in Hp. apply len_nil_inv in Hp as ->.
    exists [], []. cbn [frames map concat]. rewrite app_nil_r.
    change (len []) with 0. rewrite Z.add_0_r.
    repeat split; auto; try constructor. intros C; contradiction. }
  induction fuel as [|fuel IH];
    intros length mz f h p rv f' h' log Hm Hmz Hrv Hl Hp Hb E; simpl in E.
  { destruct (rv <? length); [discriminate|]. eapply Base; eauto. }
  destruct (Z.ltb_spec rv length) as [Hd|Hd]; [|eapply Base; eauto].
  pose proof (uncompressedSize_spec (maxChunkSize h) length rv Hm
                (conj (proj1 Hrv) Hd) Hl) as (N1 & N2 & N3).
  set (n := uLongf (Z.min (maxChunkSize h) (u32 (length - rv)))) in *.
  destruct (compress mz _) as [z|] eqn:C; [|injection E; lia].
  destruct (fwrite (le_split 4 _) f) as [f1 [|]] eqn:W1; [|injection E; lia].
  destruct (fwrite z f1) as [f2 [|]] eqn:W2; [|injection E; lia].
  rewrite N3 in E.
  pose proof (compress_Some _ _ _ C) as [_ Hz]. pose proof (len_nonneg z).
  rewrite u32_small in W1 by lia.
  apply fwrite_padded in W1 as (B1 & P1 & L1 & D1); [|assumption].
  apply fwrite_padded in W2 as (B2 & P2 & L2 & D2); [|lia].
  rewrite len_le_split in P1.
  assert (Hn : 0 <= n <= len p) by lia.
  apply IH in E as (zs & chunks & F & Cc & U & D & P & E0 & E1 & ->);
    try assumption; try lia.
  2:{ rewrite len_skipn by lia. lia. }
  rsimpl.
  exists (z :: zs), (firstn (Z.to_nat n) p :: chunks).
  split; [constructor; assumption|].
  split; [cbn [concat]; rewrite Cc; apply firstn_skipn|].
  split.
  { destruct chunks as [|c chunks].
    - apply uniform_last. rewrite len_firstn by assumption. lia.
    - apply uniform_cons; [|discriminate|assumption].
      rewrite len_firstn by assumption.
      assert (Hne : concat (c :: chunks) <> [])
        by (apply (uniform_concat (maxChunkSize h)); [lia|assumption|discriminate]).
      rewrite Cc in Hne.
      assert (len (skipn (Z.to_nat n) p) <> 0).
      { intros Z0. apply len_nil_inv in Z0. contradiction. }
      rewrite len_skipn in * by lia. lia. }
  rewrite frames_cons, len_app. unfold frame at 2. rewrite len_app, len_le_split.
  split.
  { rewrite D, D2, D1. unfold frame. rewrite <- !app_assoc. reflexivity. }
  split; [lia|]. split; [discriminate|]. split; [|reflexivity].
  intros _. destruct zs as [|z' zs'].
  - rewrite (E0 eq_refl). exact L2.
  - apply E1. discriminate.
Qed.

Lemma len_header12 m : len (header12 m) = 12.
Proof. unfold header12. rewrite len_app, len_le_split. reflexivity. Qed.

Lemma len_archive_bytes m total zs :
  len (archive_bytes m total zs) = 20 + len (frames zs).
Proof.
  unfold archive_bytes. rewrite !len_app, len_header12, len_le_split. lia.
Qed.

Lemma frames_app zs1 zs2 : frames (zs1 ++ zs2) = frames zs1 ++ frames zs2.
Proof. unfold frames. rewrite map_app, concat_app. reflexivity. Qed.

Lemma patch_header m old post s :
  length old = 8%nat ->
  write_at 12 (le_split 8 s) (header12 m ++ old ++ post) =
  header12 m ++ le_split 8 s ++ post.
Proof.
  intros Ho. rewrite <- (len_header12 m). apply write_at_patch.
  - rewrite length_le_split. exact Ho.
  - discriminate.
Qed.

Lemma maxZippedSize_of_lt h : maxZippedSize_of h < 2 ^ 32.
Proof. unfold maxZippedSize_of, uLongf. apply Z.mod_pos_bound. lia. Qed.

Lemma Write_archive `{Codec} h f data h' log zs0 :
  file h = Some f -> offsets_ok f -> 0 < maxChunkSize h < 2 ^ 32 ->
  len data < 2 ^ 32 -> writer_at h f zs0 ->
  Write h data (len data) = Returns (h', len data, log) ->
  exists f' zs chunks,
    file h' = Some f' /\
    Forall2 (fun z d => compress (maxZippedSize_of h) d = Some z) zs chunks /\
    concat chunks = data /\ uniform (maxChunkSize h) chunks /\
    f_bytes f' = archive_bytes (maxChunkSize h) (size h') (zs0 ++ zs) /\
    skipn (Z.to_nat (f_pos f)) (f_bytes f') = frames zs /\
    f_pos f' = f_pos f + len (frames zs) /\
    writer_at h' f' (zs0 ++ zs) /\
    u64 (size h') = u64 (size h + len data) /\
    maxChunkSize h' = maxChunkSize h /\ offsets_ok f' /\
    f_wr f' = f_wr f /\ f_limit f' = f_limit f /\ f_path f' = f_path f /\
    log = [].
Proof.
  intros Hf Ho Hm Hl [Hpos Hby] E. pose proof (len_nonneg data) as Hd0.
  destruct (Write_unfold h f data (len data) Hf Ho Hm)
    as (f1 & hl & rv1 & log1 & L & W & I1 & I2 & I3 & I4 & I5 & I6 & I7 & _);
    [lia|].
  rewrite W in E. destruct (rewrite_size f1 hl) as [f'|] eqn:S; [|discriminate].
  injection E as <- -> ->.
  assert (Hle : len (f_bytes f) <= f_pos f).
  { destruct Hby as [[-> ->]| ->].
    - rewrite len_header12, Hpos. change (len (frames [])) with 0. lia.
    - rewrite len_archive_bytes. lia. }
  apply Write_loop_content in L
    as (zs & chunks & F & Cc & U & D & P & E0 & E1 & ->);
    try assumption; try lia; [|apply maxZippedSize_of_lt].
  apply rewrite_size_spec in S as (S1 & S2 & S3 & S4 & S5 & S6 & _);
    [|assumption].
  destruct I3 as (M & _).
  assert (B : f_bytes f' =
              archive_bytes (maxChunkSize h) (size hl) (zs0 ++ zs)).
  { rewrite S6. unfold archive_bytes. rewrite frames_app.
    destruct zs as [|z zs].
    - rewrite (E0 eq_refl), app_nil_r. destruct Hby as [[-> ->]| ->].
      + rewrite write_at_padded;
          [|rewrite len_header12; lia|discriminate].
        replace (Z.to_nat 12 - length (header12 (maxChunkSize h)))%nat
          with 0%nat
          by (pose proof (len_header12 (maxChunkSize h)); unfold len in *; lia).
        cbn [repeat frames map concat]. rewrite !app_nil_r. reflexivity.
      + unfold archive_bytes. apply patch_header, length_le_split.
    - assert (E2 : f_bytes f1 = padded f ++ frames (z :: zs)).
      { rewrite <- D. symmetry. apply padded_full, E1. discriminate. }
      rewrite E2. destruct Hby as [[-> Hb]|Hb].
      + unfold padded. rewrite Hb, Hpos. change (len (frames [])) with 0.
        replace (Z.to_nat (20 + 0) - length (header12 (maxChunkSize h)))%nat
          with 8%nat
          by (pose proof (len_header12 (maxChunkSize h)); unfold len in *; lia).
        rewrite <- app_assoc. cbn [frames map concat app].
        apply patch_header. reflexivity.
      + rewrite padded_full by (rewrite Hb, len_archive_bytes; lia).
        rewrite Hb. unfold archive_bytes. rewrite <- !app_assoc.
        apply patch_header, length_le_split. }
  assert (Pf : f_pos f' = 20 + len (frames (zs0 ++ zs))).
  { rewrite S1, P, Hpos, frames_app, len_app. lia. }
  exists f', zs, chunks. rsimpl. rewrite M.
  split; [reflexivity|]. split; [assumption|]. split; [assumption|].
  split; [assumption|]. split; [exact B|].
  split.
  { rewrite B. unfold archive_bytes. rewrite frames_app, Hpos.
    rewrite !app_assoc.
    replace (Z.to_nat (20 + len (frames zs0))) with
      (length ((header12 (maxChunkSize h) ++ le_split 8 (size hl)) ++ frames zs0)).
    - apply drop_app_length.
    - rewrite !length_app, length_le_split.
      pose proof (len_header12 (maxChunkSize h)). unfold len in *. lia. }
  split; [lia|].
  split; [split; [exact Pf|right; rsimpl; rewrite M; exact B]|].
  split; [assumption|]. split; [reflexivity|]. split; [assumption|].
  split; [congruence|]. split; [congruence|]. split; [congruence|reflexivity].
Qed.

Lemma compress_inflate `{Codec} {ok : CodecOk _} n d z :
  compress n d = Some z -> n < 2 ^ 32 ->
  inflate z = Some d /\ 0 < len z < 2 ^ 32.
Proof.
  intros [Hd Hz]%compress_Some Hn.
  destruct (deflate_inflate d) as (z' & Hd' & Hi & Hl).
  rewrite Hd in Hd'. injection Hd' as <-. split; [assumption|lia].
Qed.

Lemma Open_write_writer_at fs h path fs1 h1 log :
  Open fs h path true = Returns (fs1, h1, true, log) -> fs_limit fs < 2 ^ 63 ->
  exists f, file h1 = Some f /\ writer_at h1 f [] /\ offsets_ok f /\
            maxChunkSize h1 = 1048576 /\ size h1 = 0 /\
            f_wr f = true /\ f_path f = path /\ f_limit f = fs_limit fs /\
            fs1 = mkFS (<[path := []]> (fs_files fs)) (fs_limit fs) (fs_denied fs).
Proof.
  intros (f & Hf & Hb & Hp & Hw & Hl & Hpa & _ & Hs & Hm & _ & Hfs)%Open_write_spec
         Hlim.
  exists f. unfold writer_at, offsets_ok. rewrite Hp, Hl, Hm, Hb.
  change (len (frames [])) with 0.
  repeat split; auto; try lia.
Qed.

Lemma Writes_archive `{Codec} ds : forall h f zs0 h',
  file h = Some f -> offsets_ok f -> 0 < maxChunkSize h < 2 ^ 32 ->
  Forall (fun d : list byte => len d < 2 ^ 32) ds -> writer_at h f zs0 ->
  Writes h ds = Returns (h', map len ds) ->
  exists f' zs chunks,
    file h' = Some f' /\ writer_at h' f' (zs0 ++ zs) /\ offsets_ok f' /\
    maxChunkSize h' = maxChunkSize h /\
    Forall2 (fun z d => compress (maxZippedSize_of h) d = Some z) zs chunks /\
    concat chunks = concat ds /\
    u64 (size h') = u64 (size h + len (concat ds)) /\
    f_wr f' = f_wr f /\ f_limit f' = f_limit f /\ f_path f' = f_path f /\
    (ds <> [] ->
     f_bytes f' = archive_bytes (maxChunkSize h) (size h') (zs0 ++ zs)) /\
    Forall (fun c => len c <= maxChunkSize h) chunks.
Proof.
  induction ds as [|d ds IH]; intros h f zs0 h' Hf Ho Hm Hds Hat E;
    cbn [Writes map] in E.
  { injection E as <-. exists f, [], []. rewrite app_nil_r.
    change (len (concat [])) with 0. rewrite Z.add_0_r.
    split; [assumption|]. split; [assumption|]. split; [assumption|].
    split; [reflexivity|]. split; [constructor|]. split; [reflexivity|].
    split; [reflexivity|]. split; [reflexivity|]. split; [reflexivity|].
    split; [reflexivity|]. split; [intros C; contradiction|constructor]. }
  inversion Hds as [|? ? Hd1 Hd2]; subst.
  destruct (Write h d (len d)) as [[[h1 rv] log]| |] eqn:W; try discriminate.
  destruct (Writes h1 ds) as [[h2 rvs]| |] eqn:Ws; try discriminate.
  injection E as <- -> ->.
  destruct (Write_archive h f d h1 log zs0 Hf Ho Hm Hd1 Hat W)
    as (f1 & zs1 & cs1 & Hf1 & F1 & C1 & U1 & B1 & _ & _ & At1 & S1 & M1 & O1
        & W1 & L1 & P1 & _).
  destruct (IH h1 f1 (zs0 ++ zs1) h2 Hf1 O1) as
    (f2 & zs2 & cs2 & Hf2 & At2 & O2 & M2 & F2 & C2 & S2 & W2 & L2 & P2 & B2
     & Fa2);
    [lia|assumption|assumption|assumption|].
  exists f2, (zs1 ++ zs2), (cs1 ++ cs2). rewrite app_assoc.
  split; [assumption|]. split; [assumption|]. split; [assumption|].
  split; [congruence|].
  split.
  { apply Forall2_app; [assumption|].
    replace (maxZippedSize_of h) with (maxZippedSize_of h1)
      by (unfold maxZippedSize_of; rewrite M1; reflexivity).
    assumption. }
  split; [rewrite concat_app, C1, C2; reflexivity|].
  split.
  { rewrite S2. cbn [concat]. rewrite len_app, <- u64_add_l, S1, u64_add_l.
    f_equal. lia. }
  split; [congruence|]. split; [congruence|]. split; [congruence|].
  split.
  2:{ apply Forall_app. split; [apply (uniform_Forall _ _ U1)|].
      rewrite <- M1. exact Fa2. }
  intros _. destruct ds as [|d' ds'].
  - cbn [Writes] in Ws. injection Ws as <-.
    destruct zs2 as [|? ?].
    + rewrite app_nil_r. rewrite Hf1 in Hf2. injection Hf2 as <-. exact B1.
    + destruct At2 as [_ [[C _]| B]].
      * apply app_eq_nil in C as [_ C]. discriminate.
      * rewrite M1 in B. exact B.
  - rewrite <- M1. apply B2. discriminate.
Qed.

Lemma header_maxChunkSize_archive m total zs :
  header_maxChunkSize (archive_bytes m total zs) = m mod 2 ^ 32.
Proof.
  unfold header_maxChunkSize, archive_bytes, header12.
  rewrite <- !app_assoc.
  change (skipn 8 (RZipHeader ++ ?x)) with x.
  replace 4%nat with (length (le_split 4 m)) at 1 by apply length_le_split.
  rewrite take_app_length, le_combine_split. reflexivity.
Qed.

(** C6, as stated: the archive made by two Write calls of five bytes
    each has two chunk frames of five bytes, so its first frame, which is
    not the last, does not decompress to the maximum chunk size of the
    header. *)
Lemma two_Writes_not_uniform :
  Open empty_disk closed_handle "state.rzip" true =
    Returns (fresh_disk, fresh_writer, true, []) /\
  Writes (H := stored_codec) fresh_writer [hello; hello] =
    Returns (writer_after_two, [5; 5]) /\
  file writer_after_two =
    Some (mkFILE "state.rzip" true sample_archive 40 65536) /\
  header_maxChunkSize sample_archive = 1048576 /\
  archive_chunks (H := stored_codec) sample_archive = [Some hello; Some hello] /\
  ~ uniform 1048576 [hello; hello].
Proof.
  split; [vm_compute; reflexivity|]. split; [vm_compute; reflexivity|].
  split; [reflexivity|]. split; [vm_compute; reflexivity|].
  split; [vm_compute; reflexivity|].
  intros U. inversion U as [| |d ds Hd Hne Hu]. vm_compute in Hd. discriminate.
Qed.

(** C6, amended: the frames that one Write call appends when it accepts
    all of its input decompress to pieces of that input, in order, all
    of the maximum chunk size of the header but the last one, which
    holds what remains; the frames of earlier calls are left as they
    are. *)
Theorem one_Write_chunks_uniform `{Codec} {ok : CodecOk _}
    (fs fs1 : FileSystem) (h0 h1 h h' : RZipFile) (path : string)
    (log0 log : list warning) (ds : list (list byte)) (d : list byte) :
  Open fs h0 path true = Returns (fs1, h1, true, log0) ->
  fs_limit fs < 2 ^ 63 ->
  Forall (fun d : list byte => len d < 2 ^ 32) ds -> len d < 2 ^ 32 ->
  Writes h1 ds = Returns (h, map len ds) ->
  Write h d (len d) = Returns (h', len d, log) ->
  exists f f' zs chunks,
    file h = Some f /\ file h' = Some f' /\
    header_maxChunkSize (f_bytes f') = 1048576 /\
    firstn (Z.to_nat (f_pos f) - 20) (skipn 20 (f_bytes f')) =
      skipn 20 (padded f) /\
    skipn (Z.to_nat (f_pos f)) (f_bytes f') = frames zs /\
    Forall2 (fun z c => inflate z = Some c) zs chunks /\
    concat chunks = d /\ uniform 1048576 chunks.
Proof.
  intros HO Hlim Hds Hd HWs HW.
  apply Open_write_writer_at in HO
    as (f1 & Hf1 & At1 & O1 & M1 & S1 & _); [|assumption].
  destruct (Writes_archive ds h1 f1 [] h Hf1 O1) as
    (f & zs0 & cs0 & Hf & At & Of & M & _ & _ & _ & _ & _ & _ & _);
    [lia|assumption|assumption|assumption|].
  cbn [app] in At.
  destruct (Write_archive h f d h' log zs0 Hf Of) as
    (f' & zs & cs & Hf' & F & C & U & B & Sk & _ & _ & _ & _ & _);
    [lia|assumption|assumption|assumption|].
  assert (Mh : maxChunkSize h = 1048576) by congruence.
  clear M M1. rewrite Mh in *.
  exists f, f', zs, cs. split; [assumption|]. split; [assumption|].
  split; [rewrite B; apply header_maxChunkSize_archive|].
  split.
  { rewrite B. destruct At as [Hp Hb]. rewrite Hp.
    assert (E20 : forall t zs', skipn 20 (archive_bytes 1048576 t zs') = frames zs').
    { intros t zs'. unfold archive_bytes. rewrite app_assoc.
      replace 20%nat with (length (header12 1048576 ++ le_split 8 t))
        by (rewrite length_app, length_le_split; reflexivity).
      apply drop_app_length. }
    rewrite E20, frames_app.
    replace (Z.to_nat (20 + len (frames zs0)) - 20)%nat
      with (length (frames zs0)) by (unfold len; lia).
    rewrite take_app_length.
    rewrite Mh in Hb. destruct Hb as [[-> Hb]|Hb].
    - unfold padded. rewrite Hb, Hp. reflexivity.
    - rewrite padded_full by (rewrite Hb, len_archive_bytes; lia).
      rewrite Hb. symmetry. apply E20. }
  split; [assumption|].
  split; [|split; assumption].
  eapply Forall2_impl; [exact F|]. intros z c Hc.
  eapply compress_inflate; [exact Hc|apply maxZippedSize_of_lt].
Qed.

Lemma stored_codec_ok : CodecOk stored_codec.
Proof.
  constructor. intros d. exists (Byte.x78 :: d).
  split; [reflexivity|]. split; [reflexivity|].
  unfold len. cbn [length].
  pose proof (Z.div_pos (Z.of_nat (length d)) 1000). lia.
Qed.

Lemma one_Write_chunks_uniform_witness :
  exists f f' zs chunks,
    file writer_after_one = Some f /\ file writer_after_two = Some f' /\
    header_maxChunkSize (f_bytes f') = 1048576 /\
    firstn (Z.to_nat (f_pos f) - 20) (skipn 20 (f_bytes f')) =
      skipn 20 (padded f) /\
    skipn (Z.to_nat (f_pos f)) (f_bytes f') = frames zs /\
    Forall2 (fun z c => inflate (Codec := stored_codec) z = Some c) zs chunks /\
    concat chunks = hello /\ uniform 1048576 chunks.
Proof.
  apply (one_Write_chunks_uniform (H := stored_codec) (ok := stored_codec_ok)
           empty_disk fresh_disk closed_handle fresh_writer writer_after_one
           writer_after_two "state.rzip" [] [] [hello] hello).
  - vm_compute. reflexivity.
  - vm_compute. reflexivity.
  - constructor; [vm_compute; reflexivity|constructor].
  - vm_compute. reflexivity.
  - vm_compute. reflexivity.
  - vm_compute. reflexivity.
Defined.

(** ** Reading frames *)

Lemma fread_rest f b more :
  readable f -> rest f = b ++ more -> 0 < len b ->
  exists f', fread (len b) f = (f', Some b) /\ readable f' /\
             rest f' = more /\ f_bytes f' = f_bytes f /\
             (remaining f' + Z.to_nat (len b) = remaining f)%nat.
Proof.
  intros [Hw Hp] Hr Hb. unfold rest in Hr.
  assert (Hlen : f_pos f + len b <= len (f_bytes f)).
  { assert (E : len (skipn (Z.to_nat (f_pos f)) (f_bytes f)) = len b + len more)
      by (rewrite Hr; apply len_app).
    rewrite len_skipn in E by assumption. pose proof (len_nonneg more). lia. }
  assert (E' : fread (len b) f =
               (set_pos (f_pos f + len b) f,
                Some (firstn (Z.to_nat (len b))
                             (skipn (Z.to_nat (f_pos f)) (f_bytes f))))).
  { unfold fread. rewrite Hw. cbn [orb].
    destruct (Z.leb_spec (len b) 0); [lia|].
    destruct (Z.ltb_spec (f_pos f) 0); [lia|]. cbn [orb].
    destruct (Z.leb_spec (f_pos f + len b) (len (f_bytes f))); [reflexivity|lia]. }
  exists (set_pos (f_pos f + len b) f).
  split.
  { rewrite E', Hr. unfold len. rewrite Nat2Z.id, take_app_length.
    reflexivity. }
  split; [split; [exact Hw|rsimpl; lia]|].
  split.
  { unfold rest. rsimpl.
    replace (Z.to_nat (f_pos f + len b))
      with (Z.to_nat (f_pos f) + length b)%nat by (unfold len; lia).
    rewrite <- drop_drop, Hr. apply drop_app_length. }
  split; [reflexivity|]. unfold remaining. rsimpl. lia.
Qed.

Lemma refill_frame `{Codec} f h z more :
  readable f -> rest f = frame z ++ more -> 0 < len z < 2 ^ 32 ->
  exists f', readable f' /\ rest f' = more /\ f_bytes f' = f_bytes f /\
    (remaining f' + 5 <= remaining f)%nat /\
    refill f h =
    match uncompress (uLongf (maxChunkSize h)) z with
    | Some d =>
      Proceed f' (set_chunkSize (u32 (len d)) (set_chunk (Some d) (emptied h)))
    | None => Break f' (emptied h) DecompressionError
    end.
Proof.
  intros Hr Hrest Hz. unfold frame in Hrest. rewrite <- app_assoc in Hrest.
  destruct (fread_rest f _ _ Hr Hrest) as (f1 & E1 & R1 & Rest1 & B1 & M1);
    [rewrite len_le_split; lia|].
  destruct (fread_rest f1 _ _ R1 Rest1) as (f2 & E2 & R2 & Rest2 & B2 & M2);
    [lia|].
  rewrite len_le_split in E1, M1.
  exists f2. split; [assumption|]. split; [assumption|].
  split; [congruence|]. split; [lia|].
  unfold refill. fold (emptied h). change (Z.of_nat 4) with 4 in E1.
  rewrite E1, le_combine_split.
  change (2 ^ (Z.of_nat 4 * 8)) with (2 ^ 32).
  rewrite Z.mod_small by lia.
  destruct (Z.eqb_spec (len z) 0); [lia|]. rewrite E2. rsimpl.
  destruct (uncompress _ z); reflexivity.
Qed.

Lemma len_avail h :
  buffer_inv h -> chunk_inv h -> len (avail h) = chunkSize h - chunkIndex h.
Proof.
  intros (H0 & H1 & _) Hc. unfold avail. apply len_chunk_bytes; auto; lia.
Qed.

Lemma consume_stream h l :
  buffer_inv h -> chunk_inv h -> 0 <= l <= chunkSize h - chunkIndex h ->
  chunk_bytes h l = firstn (Z.to_nat l) (avail h) /\
  avail (set_chunkIndex (chunkIndex h + l) h) = skipn (Z.to_nat l) (avail h).
Proof.
  intros (H0 & H1 & _) Hc Hl. unfold avail, chunk_bytes. rsimpl.
  set (c := default [] (chunk h)). split.
  - rewrite take_take. f_equal. lia.
  - replace (Z.to_nat (chunkIndex h + l))
      with (Z.to_nat (chunkIndex h) + Z.to_nat l)%nat by lia.
    rewrite <- drop_drop. rewrite skipn_firstn_comm. f_equal. lia.
Qed.

Lemma Read_loop_stream `{Codec} fuel :
  forall length f h p rv zs chunks more,
  readable f -> rest f = frames zs ++ more ->
  Forall2 (decodes (maxChunkSize h)) zs chunks ->
  buffer_inv h -> chunk_inv h -> 0 <= rv <= length -> length < 2 ^ 32 ->
  length - rv <= len (avail h ++ concat chunks) ->
  (rv < length -> (measure f h < fuel)%nat) ->
  stream_post more (avail h ++ concat chunks) (length - rv) (maxChunkSize h)
              (size h) (f_bytes f) p length
              (Read_loop fuel length f h p rv).
Proof.
  induction fuel as [|fuel IH];
    intros length f h p rv zs chunks more Hr Hrest Hz Hb Hc Hrv Hl Hk Hm.
  all: destruct (Z.le_gt_cases length rv) as [Hd|Hd].
  1,3: rewrite Read_loop_done by assumption;
       replace (length - rv) with 0 by lia;
       exists f, h, zs, chunks; cbn [Z.to_nat firstn skipn];
       rewrite app_nil_r; replace rv with length by lia;
       repeat split; auto; try apply Hr; try apply Hb.
  { specialize (Hm Hd). lia. }
  specialize (Hm Hd).
  assert (Step : forall f1 h1 zs1 cs1,
    readable f1 -> rest f1 = frames zs1 ++ more ->
    Forall2 (decodes (maxChunkSize h)) zs1 cs1 ->
    buffer_inv h1 -> chunk_inv h1 ->
    avail h1 ++ concat cs1 = avail h ++ concat chunks ->
    maxChunkSize h1 = maxChunkSize h -> size h1 = size h ->
    f_bytes f1 = f_bytes f ->
    (2 * remaining f1 + 1 <= measure f h)%nat ->
    stream_post more (avail h ++ concat chunks) (length - rv) (maxChunkSize h)
      (size h) (f_bytes f) p length
      (Read_loop fuel length f1
         (set_chunkIndex (u32 (chunkIndex h1 + copy_length h1 length rv)) h1)
         (p ++ chunk_bytes h1 (copy_length h1 length rv))
         (size_t (rv + copy_length h1 length rv)))).
  { intros f1 h1 zs1 cs1 Hr1 Hrest1 Hz1 Hb1 Hc1 HS M1 S1 B1 Mu.
    pose proof (consume_cases h1 length rv Hb1 Hc1 (conj (proj1 Hrv) Hd) Hl)
      as (Hb2 & Hc2 & C1 & C2 & C3 & C4 & C5 & _).
    pose proof (copy_length_spec h1 length rv Hb1 (conj (proj1 Hrv) Hd) Hl)
      as (_ & L1 & _ & _ & L4 & _).
    set (l := copy_length h1 length rv) in *.
    rewrite C2, L4 in *.
    set (h2 := set_chunkIndex (chunkIndex h1 + l) h1) in *.
    destruct (consume_stream h1 l Hb1 Hc1) as [A1 A2]; [lia|].
    fold h2 in A2.
    pose proof (len_avail h1 Hb1 Hc1) as La.
    assert (Hk2 : length - (rv + l) <= len (avail h2 ++ concat cs1)).
    { rewrite A2, len_app, len_skipn by lia. rewrite <- HS, len_app in Hk. lia. }
    destruct (IH length f1 h2 (p ++ chunk_bytes h1 l) (rv + l) zs1 cs1 more)
      as (f' & h' & zs' & cs' & R & I1 & I2 & I3 & I4 & I5 & I6 & I7 & I8 & I9);
      try assumption; try lia.
    { change (maxChunkSize h2) with (maxChunkSize h1). rewrite M1. assumption. }
    { intros Hlt. unfold measure. rewrite (C5 Hlt), Z.eqb_refl. lia. }
    exists f', h', zs', cs'. rewrite R.
    replace (maxChunkSize h2) with (maxChunkSize h) in * by (symmetry; exact M1).
    replace (size h2) with (size h) in * by (symmetry; exact S1).
    assert (T1 : forall n, (n <= Z.to_nat l)%nat ->
              firstn n (avail h1) = firstn n (avail h ++ concat chunks)).
    { intros n Hn. rewrite <- HS. symmetry. apply take_app_le.
      unfold len in La. lia. }
    assert (T2 : avail h2 ++ concat cs1 =
                 skipn (Z.to_nat l) (avail h ++ concat chunks)).
    { rewrite <- HS, A2. symmetry. apply drop_app_le. unfold len in La. lia. }
    split.
    { f_equal. f_equal. f_equal. f_equal. rewrite <- app_assoc. f_equal.
      rewrite A1, T1 by lia. rewrite T2, take_take_drop. f_equal. lia. }
    split; [assumption|]. split; [assumption|]. split; [assumption|].
    split; [assumption|]. split; [assumption|].
    split.
    { rewrite I6, T2, drop_drop. f_equal. lia. }
    split; [assumption|]. split; [assumption|]. congruence. }
  simpl. destruct (Z.ltb_spec rv length); [|lia].
  destruct (Z.eqb_spec (chunkIndex h) (chunkSize h)) as [E|E].
  2:{ apply (Step f h zs chunks); auto. unfold measure.
      destruct (Z.eqb_spec (chunkIndex h) (chunkSize h)); [contradiction|lia]. }
  assert (Ha : avail h = []).
  { apply len_nil_inv. rewrite len_avail by assumption. lia. }
  rewrite Ha in *. cbn [app] in *.
  destruct Hz as [|z d zs1 cs1 (Hi & Hlz & Hld) Hz1].
  { cbn [concat] in Hk. change (len []) with 0 in Hk. lia. }
  rewrite frames_cons, <- app_assoc in Hrest.
  destruct (refill_frame f h z _ Hr Hrest Hlz) as (f1 & R1 & Rest1 & B1 & M1 & ->).
  pose proof Hb as (_ & _ & _ & Hmax).
  assert (Hm0 : 0 <= maxChunkSize h).
  { destruct Hb as (? & ? & ? & ?). lia. }
  unfold uLongf. rewrite Z.mod_small by lia.
  unfold uncompress. rewrite Hi.
  destruct (Z.leb_spec (len d) (maxChunkSize h)); [|lia].
  pose proof (len_nonneg d). rewrite (u32_small (len d)) by lia.
  set (h1 := set_chunkSize (len d) (set_chunk (Some d) (emptied h))).
  assert (Hb1 : buffer_inv h1) by (unfold buffer_inv, h1; rsimpl; lia).
  assert (Hc1 : chunk_inv h1)
    by (unfold chunk_inv, h1; simpl; lia).
  apply (Step f1 h1 zs1 cs1); auto.
  - cbn [concat]. f_equal. unfold avail, chunk_bytes, h1. rsimpl.
    cbn [from_option id]. rewrite Z.sub_0_r.
    cbn [Z.to_nat skipn]. apply firstn_all2. unfold len. lia.
  - unfold measure. rewrite E, Z.eqb_refl. lia.
Qed.

(** ** Reading a well-formed archive *)

Lemma Read_reader_at `{Codec} h ahead more data length :
  reader_at h ahead more -> 0 <= length < 2 ^ 32 -> length <= len ahead ->
  exists h',
    Read h data length =
      Returns (h', stored data (firstn (Z.to_nat length) ahead), length, []) /\
    reader_at h' (skipn (Z.to_nat length) ahead) more /\
    maxChunkSize h' = maxChunkSize h /\ size h' = size h.
Proof.
  intros (f & zs & chunks & Hf & Hr & Hrest & Hz & Hb & Hc & <-) Hl Hk.
  destruct (Read_loop_stream (read_fuel f) length f h [] 0 zs chunks more)
    as (f' & h' & zs' & cs' & R & I1 & I2 & I3 & I4 & I5 & I6 & I7 & I8 & I9);
    try assumption; try lia.
  { intros _. unfold measure, read_fuel.
    destruct (chunkIndex h =? chunkSize h); lia. }
  rewrite Z.sub_0_r in *. cbn [app] in R.
  exists (set_file (Some f') h'). unfold Read. rewrite Hf, R.
  split; [reflexivity|]. split; [|split; assumption].
  exists f', zs', cs'. rsimpl. rewrite I7.
  repeat split; auto; try apply I1; try apply I4.
Qed.

Lemma stored_full data q : length q = length data -> stored data q = q.
Proof.
  intros E. unfold stored. rewrite E, skipn_all. apply app_nil_r.
Qed.

Lemma Reads_reader_at `{Codec} more dests : forall h ahead,
  reader_at h ahead more ->
  Forall (fun d : list byte => len d < 2 ^ 32) dests ->
  sum (map len dests) <= len ahead ->
  exists h' datas,
    Reads h dests = Returns (h', datas, map len dests) /\
    concat datas = firstn (Z.to_nat (sum (map len dests))) ahead /\
    reader_at h' (skipn (Z.to_nat (sum (map len dests))) ahead) more /\
    maxChunkSize h' = maxChunkSize h /\ size h' = size h.
Proof.
  induction dests as [|d dests IH]; intros h ahead Hat Hd Hs.
  { exists h, []. cbn [Reads map sum fold_right Z.to_nat firstn skipn concat].
    auto. }
  inversion Hd as [|? ? Hd1 Hd2]; subst.
  cbn [map sum fold_right] in *. fold (sum (map len dests)) in *.
  pose proof (len_nonneg d) as H0.
  assert (Hn : 0 <= sum (map len dests)).
  { apply sum_nonneg, Forall_map, Forall_forall. intros x _. apply len_nonneg. }
  destruct (Read_reader_at h ahead more d (len d) Hat) as (h1 & R & At1 & M1 & S1);
    [lia|lia|].
  destruct (IH h1 _ At1 Hd2) as (h2 & datas & Rs & C & At2 & M2 & S2).
  { rewrite len_skipn by lia. lia. }
  exists h2, (stored d (firstn (Z.to_nat (len d)) ahead) :: datas).
  cbn [Reads]. rewrite R, Rs. split; [reflexivity|].
  split.
  { cbn [concat]. rewrite C, stored_full.
    - rewrite Z2Nat.inj_add by lia. apply take_take_drop.
    - rewrite length_firstn. unfold len in *. lia. }
  split.
  { rewrite drop_drop in At2. rewrite Z2Nat.inj_add by lia. exact At2. }
  split; congruence.
Qed.

(** ** Round trip *)

Lemma len_concat_bound (ds : list (list byte)) :
  Forall (fun d => len d <= len (concat ds)) ds.
Proof.
  induction ds as [|d ds IH]; constructor; cbn [concat]; rewrite len_app.
  - pose proof (len_nonneg (concat ds)). lia.
  - eapply Forall_impl; [exact IH|]. cbn beta. intros x Hx.
    pose proof (len_nonneg d). lia.
Qed.

Lemma sum_map_len_bound (ds : list (list byte)) :
  Forall (fun d => len d <= sum (map len ds)) ds.
Proof.
  induction ds as [|d ds IH]; constructor; cbn [map sum fold_right];
    fold (sum (map len ds)).
  - assert (0 <= sum (map len ds)); [|lia].
    apply sum_nonneg, Forall_map, Forall_forall. intros x _. apply len_nonneg.
  - eapply Forall_impl; [exact IH|]. cbn beta. intros x Hx.
    pose proof (len_nonneg d). lia.
Qed.

Lemma Forall2_decodes `{Codec} {ok : CodecOk _} n m zs cs :
  n < 2 ^ 32 ->
  Forall2 (fun z d => compress n d = Some z) zs cs ->
  Forall (fun c => len c <= m) cs ->
  Forall2 (decodes m) zs cs.
Proof.
  intros Hn F. induction F as [|z c zs cs Hc F IH]; intros Hm; constructor.
  - inversion Hm; subst. destruct (compress_inflate _ _ _ Hc Hn).
    split; [assumption|]. split; assumption.
  - apply IH. inversion Hm; assumption.
Qed.

Lemma skipn_20_archive m total zs :
  skipn 20 (archive_bytes m total zs) = frames zs.
Proof.
  unfold archive_bytes. rewrite app_assoc.
  replace 20%nat with (length (header12 m ++ le_split 8 total)).
  - apply drop_app_length.
  - rewrite length_app, length_le_split.
    pose proof (len_header12 m). unfold len in *. lia.
Qed.

(** C1, amended: when a handle opened for writing has accepted the
    buffers of one or more Write calls, fewer than 2^32 bytes in all,
    and is closed, Open in read mode succeeds on the file, reports their
    total as size, and any run of Read calls whose lengths add up to
    that total fills the destination buffers with those bytes, in
    order. *)
Theorem round_trip `{Codec} {ok : CodecOk _} (fs fs1 fs3 : FileSystem)
    (h0 h1 h2 h3 : RZipFile) (path : string) (log0 : list warning)
    (ds dests : list (list byte)) :
  Open fs h0 path true = Returns (fs1, h1, true, log0) ->
  fs_limit fs < 2 ^ 63 ->
  ds <> [] -> len (concat ds) < 2 ^ 32 ->
  Writes h1 ds = Returns (h2, map len ds) ->
  Close fs1 h2 = (fs3, h3) ->
  sum (map len dests) = len (concat ds) ->
  exists h4 h5 datas,
    Open fs3 h3 path false = Returns (fs3, h4, true, []) /\
    size h4 = len (concat ds) /\
    Reads h4 dests = Returns (h5, datas, map len dests) /\
    concat datas = concat ds.
Proof.
  intros HO Hlim Hne Htot HWs HC Hsum.
  pose proof (len_nonneg (concat ds)) as Hnn.
  apply Open_write_writer_at in HO
    as (f1 & Hf1 & At1 & O1 & M1 & S1 & W1 & P1 & L1 & Hfs1); [|assumption].
  destruct (Writes_archive ds h1 f1 [] h2 Hf1 O1) as
    (f2 & zs & cs & Hf2 & _ & _ & M2 & F & Cc & S2 & W2 & L2 & P2 & B2 & Fa);
    [lia| |assumption|assumption|].
  { eapply Forall_impl; [apply len_concat_bound|]. cbn beta. intros; lia. }
  specialize (B2 Hne). cbn [app] in B2. rewrite M1 in *.
  rewrite S1, Z.add_0_l, (u64_small (len (concat ds))) in S2 by lia.
  unfold Close in HC. rewrite Hf2 in HC. unfold fclose in HC.
  rewrite W2, W1, P2, P1 in HC. injection HC as <- <-.
  assert (Hsz : le_combine (le_split 8 (size h2)) = len (concat ds)).
  { rewrite le_combine_split. exact S2. }
  assert (Hlook : fs_files
            (mkFS (<[path := f_bytes f2]> (fs_files fs1)) (fs_limit fs1)
                  (fs_denied fs1))
            !! path =
          Some (RZipHeader ++ le_split 4 1048576 ++ le_split 8 (size h2)
                ++ frames zs)).
  { cbn [fs_files]. rewrite lookup_insert_eq, B2. unfold archive_bytes, header12.
    rewrite <- app_assoc. reflexivity. }
  pose proof (Open_read_header _ (set_chunk None (set_file None h2)) path
                _ _ _ eq_refl (length_le_split 4 1048576)
                (length_le_split 8 (size h2)) Hlook) as HOr.
  rewrite Hsz in HOr.
  replace (Z.shiftr (len (concat ds)) 32 =? 0) with true in HOr.
  2:{ symmetry. apply Z.eqb_eq. rewrite Z.shiftr_div_pow2 by lia.
      apply Z.div_small. lia. }
  eexists _. rewrite HOr. cbn [size].
  set (f4 := mkFILE path false _ 20 _).
  set (h4 := mkRZipFile (Some f4) _ _ _ _ _ _).
  assert (At : reader_at h4 (concat ds) []).
  { exists f4, zs, cs. split; [reflexivity|].
    split; [split; [reflexivity|cbn; lia]|].
    split.
    { unfold rest, f4. cbn [f_pos f_bytes]. rewrite app_nil_r.
      change (Z.to_nat 20) with 20%nat.
      rewrite <- (skipn_20_archive 1048576 (size h2) zs).
      unfold archive_bytes, header12. rewrite <- app_assoc. reflexivity. }
    split.
    { change (maxChunkSize h4) with (le_combine (le_split 4 1048576)).
      change (le_combine (le_split 4 1048576)) with 1048576.
      eapply Forall2_decodes; [apply maxZippedSize_of_lt|exact F|exact Fa]. }
    split.
    { unfold buffer_inv, h4. cbn [chunkIndex chunkSize maxChunkSize].
      change (le_combine (le_split 4 1048576)) with 1048576. lia. }
    split.
    { unfold chunk_inv, h4. cbn [chunkSize chunk from_option id].
      change (len []) with 0. lia. }
    rewrite <- Cc. reflexivity. }
  destruct (Reads_reader_at [] dests h4 (concat ds) At)
    as (h5 & datas & Rs & C & _); [|lia|].
  { eapply Forall_impl; [apply sum_map_len_bound|]. cbn beta. intros; lia. }
  exists h5, datas. split; [reflexivity|]. split; [reflexivity|].
  split; [assumption|]. rewrite C, Hsum. unfold len. rewrite Nat2Z.id.
  apply firstn_all.
Qed.

Lemma round_trip_witness :
  exists h4 h5 datas,
    Open (fst (Close fresh_disk writer_after_two))
         (snd (Close fresh_disk writer_after_two)) "state.rzip" false =
      Returns (fst (Close fresh_disk writer_after_two), h4, true, []) /\
    size h4 = len (concat [hello; hello]) /\
    Reads (H := stored_codec) h4 [repeat Byte.xff 3; repeat Byte.xff 7] =
      Returns (h5, datas, map len [repeat Byte.xff 3; repeat Byte.xff 7]) /\
    concat datas = concat [hello; hello].
Proof.
  apply (round_trip (H := stored_codec) (ok := stored_codec_ok)
           empty_disk fresh_disk (fst (Close fresh_disk writer_after_two))
           closed_handle fresh_writer writer_after_two
           (snd (Close fresh_disk writer_after_two)) "state.rzip" []
           [hello; hello] [repeat Byte.xff 3; repeat Byte.xff 7]).
  - vm_compute. reflexivity.
  - vm_compute. reflexivity.
  - discriminate.
  - vm_compute. reflexivity.
  - vm_compute. reflexivity.
  - reflexivity.
  - vm_compute. reflexivity.
Defined.

(** The two Read calls of the witness, run: three bytes, then seven. *)
Example Reads_sample_3_7 :
  Reads (H := stored_codec) sample_reader [repeat Byte.xff 3; repeat Byte.xff 7] =
  Returns (mkRZipFile (Some (mkFILE "state.rzip" false sample_archive 40 65536))
                      10 1048576 (Some hello) 5 5 false,
           [firstn 3 hello; skipn 3 hello ++ hello], [3; 7]).
Proof. vm_compute. reflexivity. Qed.

(** ** Frames of length zero *)

Lemma len_rest f : readable f -> len (rest f) = Z.max 0 (len (f_bytes f) - f_pos f).
Proof. intros [_ Hp]. unfold rest. apply len_skipn. assumption. Qed.














Lemma rest_at_prefix path limit pre tail :
  rest (mkFILE path false (pre ++ tail) (len pre) limit) = tail.
Proof.
  unfold rest, len. cbn [f_pos f_bytes]. rewrite Nat2Z.id.
  apply drop_app_length.
Qed.



(** The run of the witness on the archive with the inserted frame. *)
Example run_sample_archive_0 :
  run (H := stored_codec)
      (set_file (Some (mkFILE "other.rzip" false sample_archive_0 20 65536))
                sample_reader)
      [DoRead (repeat Byte.xff 3) 3; DoSkip 4; DoRead (repeat Byte.xff 5) 5] =
  Returns (mkRZipFile (Some (mkFILE "other.rzip" false sample_archive_0 44 65536))
                      10 1048576 (Some hello) 0 0 false,
           [ReadReply (firstn 3 hello) 3 [];
            SkipReply 4 [];
            ReadReply [Byte.x6c; Byte.x6c; Byte.x6f; Byte.xff; Byte.xff] 3
                      [FailedToReadSize]]).
Proof. vm_compute. reflexivity. Qed.

(** ** A Write that finds room *)

Lemma fwrite_ok data f :
  f_wr f = true -> 0 < len data -> f_pos f + len data <= f_limit f ->
  fwrite data f =
  (set_pos (f_pos f + len data)
           (set_bytes (write_at (f_pos f) data (f_bytes f)) f), true).
Proof.
  intros Hw Hn Hl. unfold fwrite. rewrite Hw. cbn [negb orb].
  destruct (Z.eqb_spec (len data) 0); [lia|].
  destruct (Z.leb_spec (f_pos f + len data) (f_limit f)); [reflexivity|lia].
Qed.

Lemma frame_cost n : 0 < n -> 4 + (n + n / 1000 + 12) <= 18 * n.
Proof.
  intros Hn. assert (n / 1000 <= n); [|lia].
  apply Z.div_le_upper_bound; lia.
Qed.

Lemma Write_loop_accepts `{Codec} {ok : CodecOk _} fuel :
  forall length mz f h p rv,
  0 < maxChunkSize h < 2 ^ 32 ->
  maxChunkSize h + maxChunkSize h / 1000 + 12 <= mz -> mz < 2 ^ 32 ->
  0 <= rv <= length -> length < 2 ^ 32 -> len p = length - rv ->
  f_wr f = true -> 0 <= f_pos f ->
  f_pos f + 18 * (length - rv) <= f_limit f ->
  (Z.to_nat (length - rv) < fuel)%nat ->
  exists f' h', Write_loop fuel length mz f h p rv = Returns (f', h', length, []).
Proof.
  induction fuel as [|fuel IH];
    intros length mz f h p rv Hm Hmz Hmz2 Hrv Hl Hp Hw Hpos Hroom Hf; [lia|].
  destruct (Z.le_gt_cases length rv) as [Hd|Hd].
  { rewrite Write_loop_done by assumption. replace rv with length by lia. eauto. }
  simpl. destruct (Z.ltb_spec rv length); [|lia].
  pose proof (uncompressedSize_spec (maxChunkSize h) length rv Hm
                (conj (proj1 Hrv) Hd) Hl) as (N1 & N2 & N3).
  set (n := uLongf (Z.min (maxChunkSize h) (u32 (length - rv)))) in *.
  assert (Ld : len (firstn (Z.to_nat n) p) = n) by (apply len_firstn; lia).
  destruct (deflate_inflate (firstn (Z.to_nat n) p)) as (z & Hz & _ & Hlz).
  rewrite Ld in Hlz.
  assert (Hdiv : n / 1000 <= maxChunkSize h / 1000)
    by (apply Z.div_le_mono; lia).
  unfold compress. rewrite Hz.
  destruct (Z.leb_spec (len z) mz); [|lia].
  pose proof (frame_cost n N2) as Hc.
  rewrite u32_small by lia.
  rewrite fwrite_ok; [|assumption|rewrite len_le_split; lia
                      |rewrite len_le_split; lia].
  rewrite fwrite_ok; rsimpl; [|assumption|lia|rewrite len_le_split; lia].
  rewrite N3. rewrite len_le_split.
  apply IH; rsimpl; try assumption; try lia.
  rewrite len_skipn by lia. lia.
Qed.

Lemma maxZippedSize_of_exact h :
  0 <= maxChunkSize h -> maxChunkSize h + maxChunkSize h / 1000 + 12 < 2 ^ 32 ->
  maxZippedSize_of h = maxChunkSize h + maxChunkSize h / 1000 + 12.
Proof.
  intros H0 H1. assert (0 <= maxChunkSize h / 1000) by (apply Z.div_pos; lia).
  unfold maxZippedSize_of, uLongf. rewrite !u32_small; try lia.
  - apply Z.mod_small. lia.
  - rewrite u32_small; lia.
Qed.

Lemma Write_accepts `{Codec} {ok : CodecOk _} h f data zs0 :
  file h = Some f -> offsets_ok f -> f_wr f = true -> writer_at h f zs0 ->
  0 < maxChunkSize h -> maxChunkSize h + maxChunkSize h / 1000 + 12 < 2 ^ 32 ->
  len data < 2 ^ 32 -> f_pos f + 18 * len data <= f_limit f ->
  exists h', Write h data (len data) = Returns (h', len data, []).
Proof.
  intros Hf Ho Hw [Hp Hby] Hm0 Hm1 Hl Hroom. pose proof (len_nonneg data).
  assert (0 <= maxChunkSize h / 1000) by (apply Z.div_pos; lia).
  pose proof (len_nonneg (frames zs0)).
  destruct (Write_loop_accepts (S (Z.to_nat (len data))) (len data)
              (maxZippedSize_of h) f h data 0) as (f1 & h1 & L);
    try assumption; try lia.
  { rewrite maxZippedSize_of_exact by lia. lia. }
  { apply maxZippedSize_of_lt. }
  destruct (Write_unfold h f data (len data) Hf Ho)
    as (f1' & h1' & rv & log & L' & W & _ & _ & _ & O1 & W1 & L1 & _);
    [lia|lia|].
  rewrite L in L'. injection L' as <- <- <- <-.
  rewrite W. unfold rewrite_size, ftell, fseek_set.
  change (len RZipHeader + 4) with 12. change (12 <? 0) with false. cbv iota.
  destruct O1 as [P1 Q1].
  assert (Hp1 : f_pos f <= f_pos f1).
  { destruct (Write_loop_spec (S (Z.to_nat (len data))) (len data)
                (maxZippedSize_of h) f h data 0) as (? & ? & ? & ? & L2 & _);
      [lia|lia|lia|assumption|lia|].
    clear L2. 
    destruct (Z.eq_dec (len data) 0) as [E0|E0].
    - rewrite E0 in L. rewrite Write_loop_done in L by lia.
      injection L as <- _. lia.
    - apply Write_loop_content in L as (zs & cs & _ & _ & _ & _ & P & _);
        try lia; [|apply maxZippedSize_of_lt|].
      + pose proof (len_nonneg (frames zs)). lia.
      + destruct Hby as [[_ Hb]|Hb];
          rewrite Hb, ?len_header12, ?len_archive_bytes; lia. }
  rewrite fwrite_ok; rsimpl;
    [|congruence|rewrite len_le_split; lia|rewrite len_le_split; lia].
  rewrite u64_small by lia.
  destruct (Z.ltb_spec (f_pos f1) 0); [lia|]. eauto.
Qed.

Lemma uniform_pos m cs :
  0 < m -> uniform m cs -> Forall (fun c : list byte => 0 < len c) cs.
Proof. induction 2; constructor; auto; lia. Qed.

Lemma frames_bound `{Codec} {ok : CodecOk _} mz zs cs :
  Forall2 (fun z c => compress mz c = Some z) zs cs ->
  Forall (fun c : list byte => 0 < len c) cs ->
  len (frames zs) <= 18 * len (concat cs).
Proof.
  induction 1 as [|z c zs cs Hc F IH]; intros Hp.
  - change (len (frames [])) with 0. change (len (concat [])) with 0. lia.
  - inversion Hp as [|? ? Hc0 Hp']; subst.
    rewrite frames_cons. cbn [concat]. rewrite !len_app.
    unfold frame. rewrite len_app, len_le_split.
    apply compress_Some in Hc as [Hd _].
    destruct (deflate_inflate c) as (z' & Hd' & _ & Hl).
    rewrite Hd in Hd'. injection Hd' as <-.
    pose proof (frame_cost (len c) Hc0). specialize (IH Hp'). lia.
Qed.

(** A frame the codec rejects, met by a call that starts on an empty
    buffer, ends the call with nothing read. *)
Lemma Read_rejected_frame `{Codec} h f data length z more :
  file h = Some f -> readable f -> chunkIndex h = chunkSize h ->
  rest f = frame z ++ more -> 0 < len z < 2 ^ 32 ->
  uncompress (uLongf (maxChunkSize h)) z = None -> 0 < length ->
  exists f', Read h data length =
             Returns (set_file (Some f') (emptied h), data, 0,
                      [DecompressionError]).
Proof.
  intros Hf Hr Hi Hrest Hz Hu Hl.
  destruct (refill_frame f h z more Hr Hrest Hz) as (f' & _ & _ & _ & _ & R).
  rewrite Hu in R. exists f'. unfold Read, read_fuel. rewrite Hf.
  cbn [Read_loop]. destruct (Z.ltb_spec 0 length); [|lia].
  rewrite Hi, Z.eqb_refl, R. reflexivity.
Qed.

Lemma uniform_first m cs :
  0 <= m -> uniform m cs -> m < len (concat cs) ->
  exists c cs', cs = c :: cs' /\ len c = m.
Proof.
  intros Hm U Hl. destruct U as [|d Hd|d ds Hd _ _].
  - change (len (concat [])) with 0 in Hl. lia.
  - cbn [concat] in Hl. rewrite app_nil_r in Hl. lia.
  - eauto.
Qed.

Lemma round_trip_fails_from_4GiB_on (big : list byte) :
  len big = 2 ^ 31 ->
  ~ round_trip_claim stored_codec big_disk closed_handle "state.rzip"
      [big; big] [[Byte.x00]; skipn 1 (big ++ big)].
Proof.
  intros Hbig C.
  set (path := "state.rzip"%string) in *.
  set (f1 := mkFILE path true (header12 1048576) 20 (2 ^ 40)).
  set (h1 := mkRZipFile (Some f1) 0 1048576 None 0 0 true).
  assert (HO : Open big_disk closed_handle path true =
               Returns (mkFS (<[path := []]> ∅) (2 ^ 40) ∅, h1, true, []))
    by (vm_compute; reflexivity).
  assert (Of1 : offsets_ok f1) by (unfold offsets_ok, f1; cbn; lia).
  assert (At0 : writer_at h1 f1 [])
    by (split; [reflexivity|left; split; reflexivity]).
  assert (Hm : 0 < maxChunkSize h1 < 2 ^ 32)
    by (split; vm_compute; reflexivity).
  assert (Hm1 : maxChunkSize h1 + maxChunkSize h1 / 1000 + 12 < 2 ^ 32)
    by (vm_compute; reflexivity).
  assert (Hl : len big < 2 ^ 32) by lia.
  (* the first Write *)
  destruct (Write_accepts (ok := stored_codec_ok) h1 f1 big [] eq_refl Of1
              eq_refl At0) as (h2a & W1); try assumption; try lia.
  { change (f_pos f1) with 20. change (f_limit f1) with (2 ^ 40). lia. }
  destruct (Write_archive (H := stored_codec) h1 f1 big h2a [] []
              eq_refl Of1 Hm Hl At0 W1)
    as (f2a & zs1 & cs1 & Hf2a & F1 & C1 & U1 & _ & _ & P1 & At1 & S1 & M1
        & O1 & Wr1 & L1 & Pa1 & _).
  pose proof (frames_bound (ok := stored_codec_ok) _ _ _ F1
                (uniform_pos _ _ (proj1 Hm) U1)) as Fb1.
  rewrite C1 in Fb1.
  change (f_pos f1) with 20 in P1. change (f_limit f1) with (2 ^ 40) in L1.
  change (f_wr f1) with true in Wr1. change (f_path f1) with path in Pa1.
  change (maxChunkSize h1) with 1048576 in *. change (size h1) with 0 in S1.
  (* the second Write *)
  destruct (Write_accepts (ok := stored_codec_ok) h2a f2a big ([] ++ zs1)
              Hf2a O1 Wr1 At1) as (h2 & W2); try lia.
  { rewrite M1. vm_compute. reflexivity. }
  destruct (Write_archive (H := stored_codec) h2a f2a big h2 [] ([] ++ zs1)
              Hf2a O1) as
    (f2 & zs2 & cs2 & Hf2 & F2 & C2 & U2 & B2 & _ & _ & _ & S2 & M2 & O2 & Wr2
     & L2 & Pa2 & _); try assumption; try lia.
  cbn [app] in *. rewrite M1 in *.
  assert (Hs : u64 (size h2) = 4294967296).
  { rewrite S2, <- u64_add_l, S1, Hbig. reflexivity. }
  assert (HWs : Writes (H := stored_codec) h1 [big; big] =
                Returns (h2, map len [big; big])).
  { cbn [Writes map]. rewrite W1, W2. reflexivity. }
  destruct (Close (mkFS (<[path := []]> ∅) (2 ^ 40) ∅) h2) as [fs3 h3] eqn:HC.
  assert (Hsum : sum (map len [[Byte.x00]; skipn 1 (big ++ big)]) =
                 len (concat [big; big])).
  { cbn [map sum fold_right concat]. rewrite app_nil_r.
    change 1%nat with (Z.to_nat 1). rewrite len_skipn by lia.
    rewrite len_app, Hbig. change (len [Byte.x00]) with 1. lia. }
  destruct (C _ _ _ _ _ _ HO HWs HC Hsum)
    as (fs4 & h4 & log & h5 & datas & HOr & HR & _).
  unfold Close in HC. rewrite Hf2 in HC. unfold fclose in HC.
  rewrite Wr2, Wr1, Pa2, Pa1 in HC. injection HC as <- <-.
  (* the first frame *)
  destruct (uniform_first 1048576 _ ltac:(lia) U1) as (c1 & cs1' & -> & Hc1);
    [rewrite C1; lia|].
  inversion F1 as [|z1 ? zs1' ? Hz1 F1']; subst.
  apply compress_Some in Hz1 as [Hz1 _]. cbn in Hz1. injection Hz1 as <-.
  (* Open in read mode *)
  assert (Hlook : fs_files
            (mkFS (<[path := f_bytes f2]> (<[path := []]> ∅)) (2 ^ 40) ∅) !! path =
          Some (RZipHeader ++ le_split 4 1048576 ++ le_split 8 (size h2)
                ++ frames ((Byte.x78 :: c1) :: zs1' ++ zs2))).
  { cbn [fs_files]. rewrite lookup_insert_eq, B2. unfold archive_bytes, header12.
    rewrite <- app_assoc. reflexivity. }
  pose proof (Open_read_header _ (set_chunk None (set_file None h2)) path
                _ _ _ eq_refl (length_le_split 4 1048576)
                (length_le_split 8 (size h2)) Hlook) as HOr'.
  assert (Hsz : le_combine (le_split 8 (size h2)) = 4294967296).
  { rewrite le_combine_split. exact Hs. }
  rewrite Hsz in HOr'. change (Z.shiftr 4294967296 32 =? 0) with false in HOr'.
  cbv iota in HOr'. rewrite HOr' in HOr. injection HOr as _ <- _.
  (* the first Read *)
  cbn [Reads map] in HR.
  match type of HR with
  | context [Read ?h _ _] => set (h4 := h) in *
  end.
  destruct (Read_rejected_frame (H := stored_codec) h4
              (mkFILE path false
                 (RZipHeader ++ le_split 4 1048576 ++ le_split 8 (size h2)
                  ++ frames ((Byte.x78 :: c1) :: zs1' ++ zs2)) 16 (2 ^ 40))
              [Byte.x00] (len [Byte.x00]) [Byte.x01]
              ([Byte.x00; Byte.x10; Byte.x00] ++ (Byte.x78 :: c1)
               ++ frames (zs1' ++ zs2)))
    as (f' & R).
  - reflexivity.
  - split; [reflexivity|cbn; lia].
  - reflexivity.
  - unfold rest. cbn [f_pos f_bytes].
    rewrite (le_split_mod (size h2) 8).
    change (size h2 mod 2 ^ (Z.of_nat 8 * 8)) with (u64 (size h2)). rewrite Hs.
    rewrite frames_cons. unfold frame at 1.
    replace (len (Byte.x78 :: c1)) with 1048577
      by (unfold len in *; cbn [length]; lia).
    rewrite <- !app_assoc. reflexivity.
  - split; vm_compute; reflexivity.
  - reflexivity.
  - vm_compute. reflexivity.
  - rewrite R in HR.
    cbv beta iota in HR.
    destruct (Read (H := stored_codec) _ _ _) as [[[[a b] c] d]| |];
      discriminate.
Qed.

(** C1, as stated: two Write calls of 2^31 bytes each are accepted and
    bring the size field to 2^32.  Open in read mode finds its high half
    set, keeps size 0 and goes back to offset 16, so the first Read
    takes the 1 in bytes 16..19 for the length of a frame and the byte
    at offset 20 for its payload; the codec rejects it and the Read
    returns 0 bytes instead of the first byte written. *)
Lemma round_trip_fails_from_4GiB :
  ~ round_trip_claim stored_codec big_disk closed_handle "state.rzip"
      [two_GiB; two_GiB] [[Byte.x00]; skipn 1 (two_GiB ++ two_GiB)].
Proof.
  apply round_trip_fails_from_4GiB_on.
  unfold two_GiB, len. rewrite repeat_length. apply Z2Nat.id. lia.
Qed.

(** With no Write call at all the claim fails too: the file Close
    leaves has no size field and Open in read mode refuses it. *)
Lemma round_trip_fails_without_Write :
  ~ round_trip_claim stored_codec empty_disk closed_handle "state.rzip" [] [].
Proof.
  intros C.
  destruct (C fresh_disk fresh_writer [] fresh_writer
              (fst (Close fresh_disk fresh_writer))
              (snd (Close fresh_disk fresh_writer)))
    as (fs4 & h4 & log & h5 & datas & HO & _).
  - vm_compute. reflexivity.
  - reflexivity.
  - reflexivity.
  - reflexivity.
  - vm_compute in HO. discriminate HO.
Qed.

(** * Further properties of the calls *)

(** ** Close *)

(** X1: Close leaves a closed handle whatever it is given, so a second
    Close changes nothing.  It writes the content of a stream opened for
    writing to the file of that stream's path and to no other file, and
    leaves the file system alone for a stream opened for reading and
    for a handle that is already closed. *)
Theorem Close_releases_and_is_idempotent (fs : FileSystem) (h : RZipFile) :
  file (snd (Close fs h)) = None /\
  Close (fst (Close fs h)) (snd (Close fs h)) = Close fs h /\
  fs_limit (fst (Close fs h)) = fs_limit fs /\
  match file h with
  | Some f =>
    chunk (snd (Close fs h)) = None /\
    (forall p, p <> f_path f ->
               fs_files (fst (Close fs h)) !! p = fs_files fs !! p) /\
    fs_files (fst (Close fs h)) !! f_path f =
      (if f_wr f then Some (f_bytes f) else fs_files fs !! f_path f)
  | None => Close fs h = (fs, h)
  end.
Proof.
  unfold Close. destruct (file h) as [f|] eqn:Hf; cbn [fst snd].
  - rsimpl. cbn [fst snd]. split; [reflexivity|]. split; [reflexivity|].
    unfold fclose. destruct (f_wr f); cbn [fs_files fs_limit].
    + split; [reflexivity|]. split; [reflexivity|].
      split; [|apply lookup_insert_eq].
      intros p Hp. apply lookup_insert_ne. congruence.
    + auto.
  - rewrite Hf. auto.
Qed.

(** ** Open *)

Lemma bytes_eqb_eq a : forall b, bytes_eqb a b = true -> a = b.
Proof.
  induction a as [|x a IH]; intros [|y b]; cbn [bytes_eqb]; try discriminate;
    [reflexivity|].
  intros [Hx Hab]%andb_true_iff. apply Byte.byte_dec_bl in Hx.
  f_equal; auto.
Qed.

Lemma split_header bytes :
  firstn 8 bytes = RZipHeader -> 20 <= len bytes ->
  exists mcs sz tail,
    bytes = RZipHeader ++ mcs ++ sz ++ tail /\
    length mcs = 4%nat /\ length sz = 8%nat.
Proof.
  intros Hh Hl.
  exists (firstn 4 (skipn 8 bytes)), (firstn 8 (skipn 12 bytes)), (skipn 20 bytes).
  unfold len in Hl. split.
  - rewrite <- Hh.
    replace (skipn 20 bytes) with (skipn 8 (skipn 12 bytes))
      by (rewrite skipn_skipn; reflexivity).
    rewrite (firstn_skipn 8 (skipn 12 bytes)).
    replace (skipn 12 bytes) with (skipn 4 (skipn 8 bytes))
      by (rewrite skipn_skipn; reflexivity).
    rewrite (firstn_skipn 4 (skipn 8 bytes)).
    symmetry. apply firstn_skipn.
  - rewrite !length_firstn, !length_skipn. lia.
Qed.

(** X2: Open in read mode succeeds exactly on the files that start with the
    magic and hold the 20 bytes of a header; it then leaves the file
    system as it was.  When it fails the handle is closed again and the
    file system is still the same. *)
Theorem Open_read_succeeds_iff (fs : FileSystem) (h : RZipFile) (path : string) :
  file h = None ->
  exists fs' h' ok log,
    Open fs h path false = Returns (fs', h', ok, log) /\
    fs' = fs /\
    (ok = true <->
     exists bytes, fs_files fs !! path = Some bytes /\
                   firstn 8 bytes = RZipHeader /\ 20 <= len bytes) /\
    (ok = true -> log = [] /\
       exists f, file h' = Some f /\ f_wr f = false /\ f_path f = path) /\
    (ok = false -> file h' = None).
Proof.
  intros Hf.
  destruct (fs_files fs !! path) as [bytes|] eqn:Hlook.
  2:{ unfold Open, fopen. rewrite Hf, Hlook.
      exists fs, h, false, []. split; [reflexivity|]. split; [reflexivity|].
      split; [split; [discriminate|intros (b & Hb & _); discriminate]|].
      split; [discriminate|auto]. }
  assert (D : {firstn 8 bytes = RZipHeader /\ 20 <= len bytes} +
              {~ (firstn 8 bytes = RZipHeader /\ 20 <= len bytes)}).
  { destruct (List.list_eq_dec Byte.byte_eq_dec (firstn 8 bytes) RZipHeader),
             (Z_le_dec 20 (len bytes)); [left; auto|right; tauto..]. }
  destruct D as [[Hh Hl]|D].
  - 
    destruct (split_header bytes Hh Hl) as (mcs & sz & tail & -> & Hm & Hs).
    rewrite (Open_read_header fs h path mcs sz tail Hf Hm Hs Hlook).
    eexists _, _, true, []. split; [reflexivity|]. split; [reflexivity|].
    split; [split; [eauto|reflexivity]|].
    split; [|discriminate]. intros _. split; [reflexivity|].
    eexists. split; [reflexivity|]. split; reflexivity.
  - assert (Bad : forall fs' h' log,
              Open fs h path false = Returns (fs', h', true, log) -> False).
    { intros fs' h' log. unfold Open, fopen. rewrite Hf, Hlook.
      change (negb false) with true. cbv iota. unfold Close.
      destruct (fread (len RZipHeader) _) as [f1 [hd|]] eqn:E1; [|discriminate].
      destruct (bytes_eqb hd RZipHeader) eqn:Eh; [|discriminate].
      change (negb true) with false. cbv iota.
      destruct (fread 4 f1) as [f2 [b|]] eqn:E2; [|discriminate].
      destruct (fread 8 f2) as [f3 [b8|]] eqn:E3; [|discriminate].
      intros _. apply D.
      apply fread_Some in E1 as (_ & _ & _ & L1 & -> & ->).
      apply fread_Some in E2 as (_ & _ & _ & L2 & -> & _).
      apply fread_Some in E3 as (_ & _ & _ & L3 & _ & _).
      rsimpl. change (len RZipHeader) with 8 in *.
      apply bytes_eqb_eq in Eh. split; [exact Eh|lia]. }
    assert (Shape : exists h' log,
              Open fs h path false = Returns (fs, h', true, log) \/
              (Open fs h path false = Returns (fs, h', false, log) /\
               file h' = None)).
    { unfold Open, fopen. rewrite Hf, Hlook.
      change (negb false) with true. cbv iota. unfold Close, fclose. rsimpl.
      destruct (fread (len RZipHeader) _) as [f1 [hd|]] eqn:E1.
      2:{ apply fread_None in E1 as (_ & -> & _). eexists _, _. right.
          split; reflexivity. }
      pose proof (fread_Some _ _ _ _ E1) as (_ & _ & _ & _ & -> & _).
      destruct (bytes_eqb hd RZipHeader).
      2:{ rsimpl. eexists _, _. right. split; reflexivity. }
      change (negb true) with false. cbv iota.
      destruct (fread 4 _) as [f2 [b|]] eqn:E2.
      2:{ apply fread_None in E2 as (_ & -> & _). eexists _, _. right.
          split; reflexivity. }
      pose proof (fread_Some _ _ _ _ E2) as (_ & _ & _ & _ & -> & _).
      destruct (fread 8 _) as [f3 [b8|]] eqn:E3.
      2:{ apply fread_None in E3 as (_ & -> & _). eexists _, _. right.
          split; reflexivity. }
      destruct (negb _); eexists _, _; left; reflexivity. }
    destruct Shape as (h' & log & [E|[E Hn]]); [exfalso; eapply Bad, E|].
    exists fs, h', false, log. split; [assumption|]. split; [reflexivity|].
    split; [split; [discriminate|]|split; [discriminate|auto]].
    intros (b & Hb & Hh & Hl). exfalso. apply D.
    assert (b = bytes) as -> by congruence. auto.
Qed.

Lemma Open_read_succeeds_iff_witness :
  exists fs' h' ok log,
    Open sample_disk closed_handle "state.rzip" false =
      Returns (fs', h', ok, log) /\
    fs' = sample_disk /\
    (ok = true <->
     exists bytes, fs_files sample_disk !! "state.rzip" = Some bytes /\
                   firstn 8 bytes = RZipHeader /\ 20 <= len bytes) /\
    (ok = true -> log = [] /\
       exists f, file h' = Some f /\ f_wr f = false /\
                 f_path f = "state.rzip"%string) /\
    (ok = false -> file h' = None).
Proof.
  apply (Open_read_succeeds_iff sample_disk closed_handle "state.rzip").
  reflexivity.
Defined.

Lemma fwrite_false data f f' :
  fwrite data f = (f', false) -> f_wr f = true -> 0 < len data ->
  f_limit f < f_pos f + len data /\ f_path f' = f_path f /\ f_wr f' = true.
Proof.
  unfold fwrite. intros E Hw Hd. rewrite Hw in E. cbn [negb orb] in E.
  destruct (Z.eqb_spec (len data) 0); [lia|].
  destruct (Z.leb_spec (f_pos f + len data) (f_limit f)); [discriminate|].
  injection E as <-. rsimpl. auto.
Qed.

(** X3: Open in write mode succeeds exactly when the system lets the
    path be opened for writing and the device has room for the twelve
    bytes it writes.  When [fopen] is refused, Open returns false with
    no warning and changes nothing; when the header cannot be written,
    it logs that and closes the handle again.  No other file is touched.
    On success the handle records size 0 and a maximum chunk size of
    1 MiB, and its stream stands at offset 20 behind the twelve bytes. *)
Theorem Open_write_succeeds_iff (fs : FileSystem) (h : RZipFile) (path : string) :
  file h = None ->
  exists fs' h' ok log,
    Open fs h path true = Returns (fs', h', ok, log) /\
    (ok = true <-> path ∉ fs_denied fs /\ 12 <= fs_limit fs) /\
    (forall p, p <> path -> fs_files fs' !! p = fs_files fs !! p) /\
    (ok = true ->
       log = [] /\
       size h' = 0 /\ maxChunkSize h' = 1048576 /\ writing h' = true /\
       exists f, file h' = Some f /\ f_wr f = true /\ f_path f = path /\
                 f_pos f = 20 /\ f_bytes f = header12 1048576) /\
    (ok = false -> file h' = None) /\
    (path ∈ fs_denied fs -> fs' = fs /\ h' = h /\ log = []) /\
    (path ∉ fs_denied fs -> ok = false -> log = [FailedToWriteHeader]).
Proof.
  intros Hf.
  assert (Hne : forall (p : string) (b : list byte) (m : gmap string (list byte)),
             p <> path -> <[path := b]> m !! p = m !! p).
  { intros p b m Hp. apply lookup_insert_ne. congruence. }
  unfold Open, fopen. rewrite Hf. cbv iota.
  destruct (bool_decide (path ∈ fs_denied fs)) eqn:D.
  { apply bool_decide_eq_true in D.
    exists fs, h, false, []. split; [reflexivity|].
    split; [split; [discriminate|intros [N _]; contradiction]|].
    split; [reflexivity|]. split; [discriminate|]. split; [auto|].
    split; [auto|]. intros N. contradiction. }
  apply bool_decide_eq_false in D.
  change (negb true) with false. cbv iota.
  unfold Close, fclose. rsimpl.
  destruct (fwrite RZipHeader _) as [f1 [|]] eqn:W1.
  2:{ apply fwrite_false in W1 as (L1 & P1 & Q1); [|reflexivity..].
      rsimpl. rewrite Q1, P1. cbn [f_path] in *.
      change (len RZipHeader) with 8 in L1.
      eexists _, _, false, _. split; [reflexivity|].
      split; [split; [discriminate|lia]|]. cbn [fs_files].
      split; [intros p Hp; rewrite !Hne by assumption; reflexivity|].
      split; [discriminate|]. split; [reflexivity|].
      split; [intros N; contradiction|reflexivity]. }
  apply fwrite_true in W1 as (_ & _ & L1 & ->). rsimpl.
  change (len RZipHeader) with 8 in *.
  destruct (fwrite (le_split 4 _) _) as [f2 [|]] eqn:W2.
  2:{ apply fwrite_false in W2 as (L2 & P2 & Q2);
        [|reflexivity|rewrite len_le_split; lia].
      rsimpl. rewrite Q2, P2. rewrite len_le_split in L2.
      eexists _, _, false, _. split; [reflexivity|].
      split; [split; [discriminate|lia]|]. cbn [fs_files].
      split; [intros p Hp; rewrite !Hne by assumption; reflexivity|].
      split; [discriminate|]. split; [reflexivity|].
      split; [intros N; contradiction|reflexivity]. }
  apply fwrite_true in W2 as (_ & _ & L2 & ->). rsimpl.
  rewrite len_le_split in *. unfold fseek_cur. rsimpl.
  change (0 + 8 + 4 + 8 <? 0) with false. cbv iota.
  eexists _, _, true, _. split; [reflexivity|].
  split; [split; [split; [assumption|lia]|reflexivity]|]. cbn [fs_files].
  split; [intros p Hp; apply Hne; assumption|].
  split; [|split; [discriminate|split; [intros N; contradiction|discriminate]]].
  intros _. split; [reflexivity|].
  rsimpl. split; [reflexivity|]. split; [vm_compute; reflexivity|].
  split; [reflexivity|]. eexists. split; [reflexivity|]. rsimpl.
  split; [reflexivity|]. split; [reflexivity|]. split; [reflexivity|].
  vm_compute. reflexivity.
Qed.

Lemma Open_write_succeeds_iff_witness :
  exists fs' h' ok log,
    Open empty_disk closed_handle "state.rzip" true =
      Returns (fs', h', ok, log) /\
    (ok = true <->
     "state.rzip"%string ∉ fs_denied empty_disk /\ 12 <= fs_limit empty_disk) /\
    (forall p, p <> "state.rzip"%string ->
               fs_files fs' !! p = fs_files empty_disk !! p) /\
    (ok = true ->
       log = [] /\
       size h' = 0 /\ maxChunkSize h' = 1048576 /\ writing h' = true /\
       exists f, file h' = Some f /\ f_wr f = true /\
                 f_path f = "state.rzip"%string /\
                 f_pos f = 20 /\ f_bytes f = header12 1048576) /\
    (ok = false -> file h' = None) /\
    ("state.rzip"%string ∈ fs_denied empty_disk ->
     fs' = empty_disk /\ h' = closed_handle /\ log = []) /\
    ("state.rzip"%string ∉ fs_denied empty_disk -> ok = false ->
     log = [FailedToWriteHeader]).
Proof.
  apply (Open_write_succeeds_iff empty_disk closed_handle "state.rzip").
  reflexivity.
Defined.

(** On a disk where the path may not be created, [fopen] gives the null
    pointer: Open answers false, logs nothing and leaves the handle and
    the disk as they were. *)
Example Open_write_refused_path :
  Open locked_disk closed_handle "state.rzip" true =
  Returns (locked_disk, closed_handle, false, []).
Proof. vm_compute. reflexivity. Qed.

(** ** Write *)

Lemma Writes_accepts `{Codec} {ok : CodecOk _} ds : forall h f zs0,
  file h = Some f -> offsets_ok f -> f_wr f = true -> writer_at h f zs0 ->
  0 < maxChunkSize h -> maxChunkSize h + maxChunkSize h / 1000 + 12 < 2 ^ 32 ->
  Forall (fun d : list byte => len d < 2 ^ 32) ds ->
  f_pos f + 18 * len (concat ds) <= f_limit f ->
  exists h' f',
    Writes h ds = Returns (h', map len ds) /\ file h' = Some f' /\
    f_pos f' <= f_pos f + 18 * len (concat ds).
Proof.
  induction ds as [|d ds IH]; intros h f zs0 Hf Ho Hw Hat Hm0 Hm1 Hds Hroom.
  { exists h, f. split; [reflexivity|]. split; [assumption|].
    change (len (concat [])) with 0. lia. }
  inversion Hds as [|? ? Hd Hds']; subst.
  cbn [concat] in Hroom. rewrite len_app in Hroom.
  pose proof (len_nonneg d). pose proof (len_nonneg (concat ds)).
  assert (0 <= maxChunkSize h / 1000) by (apply Z.div_pos; lia).
  destruct (Write_accepts h f d zs0 Hf Ho Hw Hat Hm0 Hm1 Hd) as (h1 & W);
    [lia|].
  destruct (Write_archive h f d h1 [] zs0 Hf Ho ltac:(lia) Hd Hat W)
    as (f1 & zs & chunks & Hf1 & Hc & Hcat & Hu & _ & _ & Hp1 & Hat1 & _ & Hm
        & Ho1 & Hw1 & Hl1 & _).
  pose proof (frames_bound _ zs chunks Hc (uniform_pos _ _ Hm0 Hu)) as Hb.
  rewrite Hcat in Hb.
  destruct (IH h1 f1 (zs0 ++ zs) Hf1 Ho1) as (h2 & f2 & W2 & Hf2 & Hp2);
    try rewrite Hm; try assumption; try congruence; [lia|].
  exists h2, f2. cbn [Writes map]. rewrite W, W2.
  split; [reflexivity|]. split; [assumption|].
  cbn [concat]. rewrite len_app. lia.
Qed.

(** X4: Under the contract of zlib a freshly opened writer accepts every
    buffer in full as long as the device has room for 20 bytes of header
    and 18 bytes per byte of input: each Write returns its length, and
    the stream ends no further than that bound. *)
Theorem Writes_accepted_when_room `{Codec} {ok : CodecOk _}
    (fs fs1 : FileSystem) (h0 h1 : RZipFile) (path : string)
    (log0 : list warning) (ds : list (list byte)) :
  Open fs h0 path true = Returns (fs1, h1, true, log0) ->
  fs_limit fs < 2 ^ 63 ->
  Forall (fun d : list byte => len d < 2 ^ 32) ds ->
  20 + 18 * len (concat ds) <= fs_limit fs ->
  exists h2 f2,
    Writes h1 ds = Returns (h2, map len ds) /\ file h2 = Some f2 /\
    f_pos f2 <= 20 + 18 * len (concat ds).
Proof.
  intros HO Hlim Hds Hroom.
  destruct (Open_write_writer_at _ _ _ _ _ _ HO Hlim)
    as (f & Hf & Hat & Ho & Hm & _ & Hw & _ & Hl & _).
  pose proof Hat as [Hp _]. change (len (frames [])) with 0 in Hp.
  destruct (Writes_accepts ds h1 f [] Hf Ho Hw Hat) as (h2 & f2 & W & Hf2 & Hp2);
    try assumption.
  - rewrite Hm. lia.
  - rewrite Hm. vm_compute. reflexivity.
  - rewrite Hp, Hl. lia.
  - exists h2, f2. split; [assumption|]. split; [assumption|]. lia.
Qed.

Lemma Writes_accepted_when_room_witness :
  exists h2 f2,
    Writes (H := stored_codec) fresh_writer [hello; hello] =
      Returns (h2, map len [hello; hello]) /\
    file h2 = Some f2 /\ f_pos f2 <= 20 + 18 * len (concat [hello; hello]).
Proof.
  apply (Writes_accepted_when_room (H := stored_codec) (ok := stored_codec_ok)
           empty_disk fresh_disk closed_handle fresh_writer "state.rzip" []).
  - vm_compute. reflexivity.
  - vm_compute. reflexivity.
  - repeat constructor.
  - vm_compute. discriminate.
Defined.

(** ** Read and Skip at the end of the archive *)

Lemma fread_short n f :
  readable f -> len (rest f) < n ->
  exists f', fread n f = (f', None) /\ readable f' /\ rest f' = [] /\
             f_bytes f' = f_bytes f.
Proof.
  intros [Hw Hp] Hn. pose proof (len_nonneg (rest f)).
  rewrite len_rest in Hn by (split; assumption).
  exists (set_pos (Z.max (f_pos f) (len (f_bytes f))) f).
  split.
  { unfold fread. rewrite Hw. cbn [orb].
    destruct (Z.leb_spec n 0); [lia|].
    destruct (Z.ltb_spec (f_pos f) 0); [lia|]. cbn [orb].
    destruct (Z.leb_spec (f_pos f + n) (len (f_bytes f))); [lia|reflexivity]. }
  split; [split; [exact Hw|rsimpl; lia]|].
  split; [|reflexivity].
  unfold rest. rsimpl. apply skipn_all2. unfold len. lia.
Qed.

Lemma refill_truncated `{Codec} f h more w :
  readable f -> rest f = more -> truncated more w ->
  exists f', refill f h = Break f' (emptied h) w /\ readable f' /\
             rest f' = [] /\ f_bytes f' = f_bytes f.
Proof.
  intros Hr Hrest [[Hl ->]|(n & part & -> & Hn & Hp & ->)].
  - destruct (fread_short 4 f Hr) as (f' & E & R & Re & B); [rewrite Hrest; lia|].
    exists f'. unfold refill. fold (emptied h). rewrite E. auto.
  - destruct (fread_rest f _ _ Hr Hrest) as (f1 & E1 & R1 & Rest1 & B1 & _);
      [rewrite len_le_split; lia|].
    rewrite len_le_split in E1. change (Z.of_nat 4) with 4 in E1.
    destruct (fread_short n f1 R1) as (f' & E & R & Re & B);
      [rewrite Rest1; lia|].
    exists f'. unfold refill. fold (emptied h). rewrite E1, le_combine_split.
    change (2 ^ (Z.of_nat 4 * 8)) with (2 ^ 32).
    rewrite Z.mod_small by lia.
    destruct (Z.eqb_spec n 0); [lia|]. rewrite E.
    split; [reflexivity|]. split; [assumption|]. split; [assumption|].
    congruence.
Qed.

Lemma avail_emptied h : avail (emptied h) = [].
Proof. reflexivity. Qed.

Lemma Read_loop_drain `{Codec} fuel :
  forall length f h p rv zs chunks more w behind,
  readable f -> rest f = frames zs ++ more ->
  stops_at (maxChunkSize h) more w behind ->
  Forall2 (decodes (maxChunkSize h)) zs chunks ->
  buffer_inv h -> chunk_inv h -> 0 <= rv -> length < 2 ^ 32 ->
  len (avail h ++ concat chunks) < length - rv ->
  (measure f h < fuel)%nat ->
  exists f' h',
    Read_loop fuel length f h p rv =
      Returns (f', h', p ++ avail h ++ concat chunks,
               rv + len (avail h ++ concat chunks), [w]) /\
    readable f' /\ rest f' = behind /\ buffer_inv h' /\ chunk_inv h' /\
    avail h' = [] /\ maxChunkSize h' = maxChunkSize h /\ size h' = size h /\
    f_bytes f' = f_bytes f.
Proof.
  induction fuel as [|fuel IH];
    intros length f h p rv zs chunks more w behind Hr Hrest Ht Hz Hb Hc Hrv Hl
           Hk Hm;
    [lia|].
  pose proof (len_nonneg (avail h ++ concat chunks)) as Hnn.
  assert (Hd : rv < length) by lia.
  assert (Step : forall f1 h1 zs1 cs1,
    readable f1 -> rest f1 = frames zs1 ++ more ->
    Forall2 (decodes (maxChunkSize h)) zs1 cs1 ->
    buffer_inv h1 -> chunk_inv h1 ->
    avail h1 ++ concat cs1 = avail h ++ concat chunks ->
    maxChunkSize h1 = maxChunkSize h -> size h1 = size h ->
    f_bytes f1 = f_bytes f ->
    (2 * remaining f1 + 1 <= measure f h)%nat ->
    exists f' h',
      Read_loop fuel length f1
         (set_chunkIndex (u32 (chunkIndex h1 + copy_length h1 length rv)) h1)
         (p ++ chunk_bytes h1 (copy_length h1 length rv))
         (size_t (rv + copy_length h1 length rv)) =
      Returns (f', h', p ++ avail h ++ concat chunks,
               rv + len (avail h ++ concat chunks), [w]) /\
      readable f' /\ rest f' = behind /\ buffer_inv h' /\ chunk_inv h' /\
      avail h' = [] /\ maxChunkSize h' = maxChunkSize h /\ size h' = size h /\
      f_bytes f' = f_bytes f).
  { intros f1 h1 zs1 cs1 Hr1 Hrest1 Hz1 Hb1 Hc1 HS M1 S1 B1 Mu.
    pose proof (consume_cases h1 length rv Hb1 Hc1 (conj Hrv Hd) Hl)
      as (Hb2 & Hc2 & C1 & C2 & C3 & C4 & C5 & _).
    pose proof (copy_length_spec h1 length rv Hb1 (conj Hrv Hd) Hl)
      as (_ & L1 & _ & L3 & L4 & _).
    set (l := copy_length h1 length rv) in *.
    rewrite C2, L4 in *.
    set (h2 := set_chunkIndex (chunkIndex h1 + l) h1) in *.
    pose proof (len_avail h1 Hb1 Hc1) as La.
    pose proof (len_nonneg (concat cs1)) as Hcs.
    assert (Ltot : len (avail h1) + len (concat cs1) =
                   len (avail h ++ concat chunks))
      by (rewrite <- HS, len_app; reflexivity).
    assert (Hl1 : l = chunkSize h1 - chunkIndex h1) by lia.
    destruct (consume_stream h1 l Hb1 Hc1) as [A1 A2]; [lia|].
    fold h2 in A2.
    assert (A1' : chunk_bytes h1 l = avail h1).
    { rewrite A1. apply firstn_all2. unfold len in La. lia. }
    assert (A2' : avail h2 = []).
    { rewrite A2. apply skipn_all2. unfold len in La. lia. }
    destruct (IH length f1 h2 (p ++ chunk_bytes h1 l) (rv + l) zs1 cs1 more w
                 behind)
      as (f' & h' & R & I1 & I2 & I3 & I4 & I5 & I6 & I7 & I8);
      try assumption; try lia.
    { change (maxChunkSize h2) with (maxChunkSize h1). rewrite M1. assumption. }
    { change (maxChunkSize h2) with (maxChunkSize h1). rewrite M1. assumption. }
    { rewrite A2'. cbn [app]. lia. }
    { unfold measure. replace (chunkIndex h2) with (chunkSize h2)
        by (unfold h2; rsimpl; lia).
      rewrite Z.eqb_refl. lia. }
    exists f', h'. rewrite R, A2', A1'. cbn [app].
    split.
    { replace ((p ++ avail h1) ++ concat cs1) with (p ++ avail h ++ concat chunks)
        by (rewrite <- app_assoc, HS; reflexivity).
      replace (rv + l + len (concat cs1))
        with (rv + len (avail h ++ concat chunks)) by lia.
      reflexivity. }
    split; [assumption|]. split; [assumption|]. split; [assumption|].
    split; [assumption|]. split; [assumption|].
    change (maxChunkSize h2) with (maxChunkSize h1) in I6.
    change (size h2) with (size h1) in I7.
    split; [congruence|]. split; [congruence|]. congruence. }
  simpl. destruct (Z.ltb_spec rv length); [|lia].
  destruct (Z.eqb_spec (chunkIndex h) (chunkSize h)) as [E|E].
  2:{ apply (Step f h zs chunks); auto. unfold measure.
      destruct (Z.eqb_spec (chunkIndex h) (chunkSize h)); [contradiction|lia]. }
  assert (Ha : avail h = []).
  { apply len_nil_inv. rewrite len_avail by assumption. lia. }
  pose proof Hb as (Hi0 & Hi1 & Hi2 & Hmax).
  rewrite Ha in *. cbn [app] in *.
  destruct Hz as [|z d zs1 cs1 (Hi & Hlz & Hld) Hz1].
  { cbn [frames map concat app] in Hrest.
    destruct (Ht f h Hr Hrest eq_refl) as (f' & -> & R & Re & B).
    exists f', (emptied h). cbn [concat]. rewrite app_nil_r.
    change (len []) with 0. rewrite Z.add_0_r.
    split; [reflexivity|]. split; [assumption|]. split; [assumption|].
    split; [unfold buffer_inv; rsimpl; lia|].
    split; [unfold chunk_inv; rsimpl; apply len_nonneg|].
    split; [apply avail_emptied|]. auto. }
  rewrite frames_cons, <- app_assoc in Hrest.
  destruct (refill_frame f h z _ Hr Hrest Hlz) as (f1 & R1 & Rest1 & B1 & M1 & ->).
  unfold uLongf. rewrite Z.mod_small by lia.
  unfold uncompress. rewrite Hi.
  destruct (Z.leb_spec (len d) (maxChunkSize h)); [|lia].
  pose proof (len_nonneg d). rewrite (u32_small (len d)) by lia.
  set (h1 := set_chunkSize (len d) (set_chunk (Some d) (emptied h))).
  assert (Hb1 : buffer_inv h1) by (unfold buffer_inv, h1; rsimpl; lia).
  assert (Hc1 : chunk_inv h1)
    by (unfold chunk_inv, h1; simpl; lia).
  apply (Step f1 h1 zs1 cs1); auto.
  - cbn [concat]. f_equal. unfold avail, chunk_bytes, h1. rsimpl.
    cbn [from_option id]. rewrite Z.sub_0_r.
    cbn [Z.to_nat skipn]. apply firstn_all2. unfold len. lia.
  - unfold measure. rewrite E, Z.eqb_refl. lia.
Qed.

Lemma Read_reader_at_stop `{Codec} h ahead more data w behind length :
  reader_at h ahead more -> stops_at (maxChunkSize h) more w behind ->
  len ahead < length < 2 ^ 32 ->
  exists h',
    Read h data length = Returns (h', stored data ahead, len ahead, [w]) /\
    Skip h length = Returns (h', len ahead, [w]) /\
    reader_at h' [] behind /\
    maxChunkSize h' = maxChunkSize h /\ size h' = size h.
Proof.
  intros (f & zs & chunks & Hf & Hr & Hrest & Hz & Hb & Hc & <-) Ht Hl.
  destruct (Read_loop_drain (read_fuel f) length f h [] 0 zs chunks more w
              behind)
    as (f' & h' & R & I1 & I2 & I3 & I4 & I5 & I6 & I7 & I8);
    try assumption; try lia.
  { unfold measure, read_fuel. destruct (chunkIndex h =? chunkSize h); lia. }
  cbn [app] in R. rewrite Z.add_0_l in R.
  assert (RD : Read h data length =
               Returns (set_file (Some f') h',
                        stored data (avail h ++ concat chunks),
                        len (avail h ++ concat chunks), [w]))
    by (unfold Read; rewrite Hf, R; reflexivity).
  exists (set_file (Some f') h'). split; [exact RD|].
  split; [rewrite (Skip_as_Read h data length), RD; reflexivity|].
  split; [|split; assumption].
  exists f', [], []. rsimpl. cbn [frames map concat app].
  change (avail (set_file (Some f') h')) with (avail h'). rewrite I5.
  repeat split; auto; try apply I1; try apply I3; constructor.
Qed.

Lemma truncated_stops `{Codec} m more w :
  truncated more w -> stops_at m more w [].
Proof.
  intros T f h Hr Hrest _. apply (refill_truncated f h more w Hr Hrest T).
Qed.

Lemma truncated_nil : truncated [] FailedToReadSize.
Proof. left. split; [reflexivity|reflexivity]. Qed.

(** X5: A Read or Skip that asks for more than a well-formed archive still
    holds delivers all that is left, logs that the next frame could not
    be read, and returns the number of bytes delivered.  The handle is
    then at the end of the file: every later Read of a positive length
    returns 0, leaves its destination alone and logs that no frame
    length could be read. *)
Theorem Read_past_the_end `{Codec} (h : RZipFile) (ahead more data : list byte)
    (w : warning) (length : Z) :
  reader_at h ahead more -> truncated more w ->
  len ahead < length < 2 ^ 32 ->
  exists h',
    Read h data length = Returns (h', stored data ahead, len ahead, [w]) /\
    Skip h length = Returns (h', len ahead, [w]) /\
    maxChunkSize h' = maxChunkSize h /\ size h' = size h /\
    forall data' n, 0 < n < 2 ^ 32 ->
      exists h'', Read h' data' n = Returns (h'', data', 0, [FailedToReadSize]).
Proof.
  intros At T Hl.
  destruct (Read_reader_at_stop h ahead more data w [] length At
              (truncated_stops _ more w T) Hl) as (h' & R & S & At' & M & Sz).
  exists h'. split; [exact R|]. split; [exact S|]. split; [exact M|].
  split; [exact Sz|]. intros data' n Hn.
  destruct (Read_reader_at_stop h' [] [] data' FailedToReadSize [] n At'
              (truncated_stops _ [] _ truncated_nil)) as (h'' & R' & _).
  { change (len []) with 0. lia. }
  exists h''. rewrite R'. reflexivity.
Qed.

Lemma Read_past_the_end_witness :
  exists h',
    Read (H := stored_codec) sample_reader (repeat Byte.xff 12) 12 =
      Returns (h', stored (repeat Byte.xff 12) (hello ++ hello),
               len (hello ++ hello), [FailedToReadSize]) /\
    Skip (H := stored_codec) sample_reader 12 =
      Returns (h', len (hello ++ hello), [FailedToReadSize]) /\
    maxChunkSize h' = maxChunkSize sample_reader /\ size h' = size sample_reader /\
    forall data' n, 0 < n < 2 ^ 32 ->
      exists h'',
        Read (H := stored_codec) h' data' n =
          Returns (h'', data', 0, [FailedToReadSize]).
Proof.
  apply (Read_past_the_end (H := stored_codec) sample_reader (hello ++ hello) []
           (repeat Byte.xff 12) FailedToReadSize 12).
  - exists (mkFILE "state.rzip" false sample_archive 20 65536),
           [Byte.x78 :: hello; Byte.x78 :: hello], [hello; hello].
    split; [reflexivity|]. split; [split; [reflexivity|cbn; lia]|].
    split; [vm_compute; reflexivity|].
    split.
    { repeat constructor; vm_compute; congruence. }
    split; [unfold buffer_inv; cbn; lia|].
    split; [unfold chunk_inv; vm_compute; discriminate|].
    reflexivity.
  - left. split; [vm_compute; reflexivity|reflexivity].
  - vm_compute. split; reflexivity.
Defined.

(** ** Opening and reading well-formed archives *)

Lemma rest_after path limit pre tail pos :
  pos = len pre -> rest (mkFILE path false (pre ++ tail) pos limit) = tail.
Proof. intros ->. apply rest_at_prefix. Qed.

Lemma opened_reader_at `{Codec} path limit bytes pos total m zs chunks more :
  0 <= pos -> 0 <= m < 2 ^ 32 ->
  rest (mkFILE path false bytes pos limit) = frames zs ++ more ->
  Forall2 (decodes m) zs chunks ->
  reader_at (mkRZipFile (Some (mkFILE path false bytes pos limit))
                        total m (Some []) 0 0 false)
            (concat chunks) more.
Proof.
  intros Hp Hm Hrest Hz. eexists _, zs, chunks.
  split; [reflexivity|]. split; [split; [reflexivity|exact Hp]|].
  split; [exact Hrest|]. split; [exact Hz|].
  split; [unfold buffer_inv; rsimpl; lia|].
  split; [unfold chunk_inv; rsimpl; cbn [from_option id]; apply len_nonneg|].
  reflexivity.
Qed.

Lemma Open_archive_reader_at `{Codec} fs h path m total zs chunks more :
  file h = None -> 0 <= m < 2 ^ 32 -> 0 <= total < 2 ^ 32 ->
  fs_files fs !! path = Some (archive_bytes m total zs ++ more) ->
  Forall2 (decodes m) zs chunks ->
  exists h',
    Open fs h path false = Returns (fs, h', true, []) /\
    reader_at h' (concat chunks) more /\
    maxChunkSize h' = m /\ size h' = total.
Proof.
  intros Hf Hm Ht Hlook Hz.
  assert (Hb : archive_bytes m total zs ++ more =
               RZipHeader ++ le_split 4 m ++ le_split 8 total
               ++ (frames zs ++ more)).
  { unfold archive_bytes, header12. rewrite <- !app_assoc. reflexivity. }
  rewrite Hb in Hlook.
  pose proof (Open_read_header fs h path _ _ _ Hf (length_le_split 4 m)
                (length_le_split 8 total) Hlook) as HO.
  rewrite !le_combine_split in HO.
  change (2 ^ (Z.of_nat 8 * 8)) with (2 ^ 64) in HO.
  change (2 ^ (Z.of_nat 4 * 8)) with (2 ^ 32) in HO.
  rewrite (Z.mod_small total), (Z.mod_small m) in HO by lia.
  replace (Z.shiftr total 32 =? 0) with true in HO.
  2:{ symmetry. apply Z.eqb_eq. rewrite Z.shiftr_div_pow2 by lia.
      apply Z.div_small. lia. }
  eexists. split; [exact HO|]. split; [|split; reflexivity].
  apply opened_reader_at with (zs := zs); [lia|assumption| |assumption].
  replace (RZipHeader ++ le_split 4 m ++ le_split 8 total ++ frames zs ++ more)
    with ((RZipHeader ++ le_split 4 m ++ le_split 8 total) ++ frames zs ++ more)
    by (rewrite <- !app_assoc; reflexivity).
  apply rest_after. rewrite !len_app, !len_le_split. reflexivity.
Qed.

Lemma legacy_size_field total n :
  0 <= total < 2 ^ 32 -> 0 < n < 2 ^ 32 ->
  (Z.shiftr (le_combine (le_split 4 total ++ le_split 4 n)) 32 =? 0) = false /\
  Z.land (le_combine (le_split 4 total ++ le_split 4 n)) 4294967295 = total.
Proof.
  intros Ht Hn. split.
  - apply Z.eqb_neq. rewrite le_combine_app, length_le_split, !le_combine_split.
    change (2 ^ (Z.of_nat 4 * 8)) with (2 ^ 32).
    change (Z.of_nat 4 * 8) with 32.
    rewrite !Z.mod_small by lia.
    rewrite Z.shiftr_lor, Z.shiftr_shiftl_l, Z.sub_diag, Z.shiftl_0_r by lia.
    rewrite Z.shiftr_div_pow2, Z.div_small by lia.
    rewrite Z.lor_0_l. lia.
  - change 4294967295 with (Z.ones 32). rewrite Z.land_ones by lia.
    change (2 ^ 32) with (2 ^ (8 * Z.of_nat 4)).
    rewrite <- le_combine_firstn.
    replace (firstn 4 (le_split 4 total ++ le_split 4 n)) with (le_split 4 total).
    + rewrite le_combine_split. apply Z.mod_small.
      change (2 ^ (Z.of_nat 4 * 8)) with (2 ^ 32). lia.
    + symmetry. rewrite <- (length_le_split 4 total) at 1.
      apply take_app_length.
Qed.

Lemma Open_legacy_reader_at `{Codec} fs h path m total z zs chunks more :
  file h = None -> 0 <= m < 2 ^ 32 -> 0 <= total < 2 ^ 32 ->
  fs_files fs !! path = Some (legacy_bytes m total (z :: zs) ++ more) ->
  Forall2 (decodes m) (z :: zs) chunks ->
  exists h',
    Open fs h path false = Returns (fs, h', true, []) /\
    reader_at h' (concat chunks) more /\
    maxChunkSize h' = m /\ size h' = total.
Proof.
  intros Hf Hm Ht Hlook Hz.
  assert (Hlz : 0 < len z < 2 ^ 32).
  { inversion Hz as [|? d ? ? (_ & Hl & _) _]; subst. exact Hl. }
  assert (Hb : legacy_bytes m total (z :: zs) ++ more =
               RZipHeader ++ le_split 4 m
               ++ (le_split 4 total ++ le_split 4 (len z))
               ++ (z ++ frames zs ++ more)).
  { unfold legacy_bytes, header12. rewrite frames_cons. unfold frame.
    rewrite <- !app_assoc. reflexivity. }
  rewrite Hb in Hlook.
  assert (L8 : length (le_split 4 total ++ le_split 4 (len z)) = 8%nat)
    by (rewrite length_app, !length_le_split; reflexivity).
  pose proof (Open_read_header fs h path _ _ _ Hf (length_le_split 4 m)
                L8 Hlook) as HO.
  destruct (legacy_size_field total (len z) Ht Hlz) as [S1 S2].
  rewrite S1, S2 in HO. rewrite le_combine_split in HO.
  change (2 ^ (Z.of_nat 4 * 8)) with (2 ^ 32) in HO.
  rewrite (Z.mod_small m) in HO by lia.
  eexists. split; [exact HO|]. split; [|split; reflexivity].
  apply opened_reader_at with (zs := z :: zs); [lia|assumption| |assumption].
  replace (RZipHeader ++ le_split 4 m
           ++ (le_split 4 total ++ le_split 4 (len z))
           ++ z ++ frames zs ++ more)
    with ((RZipHeader ++ le_split 4 m ++ le_split 4 total)
          ++ frames (z :: zs) ++ more).
  apply rest_after. rewrite !len_app, !len_le_split. reflexivity.
Qed.

(** X6: On a file that holds a header with a total below 2^32 and then
    frames that each decode to a chunk within the maximum chunk size,
    Open succeeds and reports the total of the header, and Skip of [n]
    followed by Read of [k] delivers the bytes [n] to [n + k] of the
    chunks put end to end.  What the size field says about their total
    plays no part, nor do bytes behind the last frame. *)
Theorem Open_Skip_Read_slice `{Codec} (fs : FileSystem) (h : RZipFile)
    (path : string) (m total : Z) (zs chunks : list (list byte))
    (more data : list byte) (n k : Z) :
  file h = None -> 0 <= m < 2 ^ 32 -> 0 <= total < 2 ^ 32 ->
  fs_files fs !! path = Some (archive_bytes m total zs ++ more) ->
  Forall2 (decodes m) zs chunks ->
  0 <= n -> 0 <= k -> n + k <= len (concat chunks) -> n + k < 2 ^ 32 ->
  exists h1 h2 h3,
    Open fs h path false = Returns (fs, h1, true, []) /\
    size h1 = total /\ maxChunkSize h1 = m /\
    Skip h1 n = Returns (h2, n, []) /\
    Read h2 data k =
      Returns (h3, stored data (firstn (Z.to_nat k)
                                  (skipn (Z.to_nat n) (concat chunks))),
               k, []).
Proof.
  intros Hf Hm Ht Hlook Hz Hn Hk Hnk Hb.
  destruct (Open_archive_reader_at fs h path m total zs chunks more)
    as (h1 & HO & At & M1 & S1); try assumption.
  destruct (Read_reader_at h1 _ more [] n At) as (h2 & R1 & At2 & _);
    [lia|lia|].
  destruct (Read_reader_at h2 _ more data k At2) as (h3 & R2 & _);
    [lia|rewrite len_skipn by lia; lia|].
  exists h1, h2, h3. split; [assumption|]. split; [assumption|].
  split; [assumption|].
  split; [rewrite (Skip_as_Read h1 [] n), R1; reflexivity|assumption].
Qed.

Lemma Open_Skip_Read_slice_witness :
  exists h1 h2 h3,
    Open sample_disk closed_handle "state.rzip" false =
      Returns (sample_disk, h1, true, []) /\
    size h1 = 10 /\ maxChunkSize h1 = 1048576 /\
    Skip (H := stored_codec) h1 3 = Returns (h2, 3, []) /\
    Read (H := stored_codec) h2 (repeat Byte.xff 4) 4 =
      Returns (h3, stored (repeat Byte.xff 4)
                     (firstn (Z.to_nat 4)
                        (skipn (Z.to_nat 3) (concat [hello; hello]))),
               4, []).
Proof.
  apply (Open_Skip_Read_slice (H := stored_codec) sample_disk closed_handle
           "state.rzip" 1048576 10 [Byte.x78 :: hello; Byte.x78 :: hello]
           [hello; hello] [] (repeat Byte.xff 4) 3 4).
  - reflexivity.
  - lia.
  - lia.
  - vm_compute. reflexivity.
  - repeat constructor; vm_compute; congruence.
  - lia.
  - lia.
  - vm_compute. discriminate.
  - lia.
Defined.

(** X7: An archive of the older layout, with the total in four bytes and a
    first frame that is not empty right behind it, is opened as well:
    Open reports that total, and Read calls that ask for no more than
    the chunks hold fill their buffers with the bytes of the chunks, in
    order. *)
Theorem legacy_archive_reads_back `{Codec} (fs : FileSystem) (h : RZipFile)
    (path : string) (m total : Z) (z : list byte) (zs chunks : list (list byte))
    (more : list byte) (dests : list (list byte)) :
  file h = None -> 0 <= m < 2 ^ 32 -> 0 <= total < 2 ^ 32 ->
  fs_files fs !! path = Some (legacy_bytes m total (z :: zs) ++ more) ->
  Forall2 (decodes m) (z :: zs) chunks ->
  Forall (fun d : list byte => len d < 2 ^ 32) dests ->
  sum (map len dests) <= len (concat chunks) ->
  exists h1 h2 datas,
    Open fs h path false = Returns (fs, h1, true, []) /\
    size h1 = total /\ maxChunkSize h1 = m /\
    Reads h1 dests = Returns (h2, datas, map len dests) /\
    concat datas = firstn (Z.to_nat (sum (map len dests))) (concat chunks).
Proof.
  intros Hf Hm Ht Hlook Hz Hd Hs.
  destruct (Open_legacy_reader_at fs h path m total z zs chunks more)
    as (h1 & HO & At & M1 & S1); try assumption.
  destruct (Reads_reader_at more dests h1 _ At Hd Hs) as (h2 & datas & R & C & _).
  exists h1, h2, datas. auto.
Qed.

Lemma legacy_archive_reads_back_witness :
  exists h1 h2 datas,
    Open (mkFS (<["old.rzip" := legacy_archive]> ∅) 65536 ∅) closed_handle
         "old.rzip" false =
      Returns (mkFS (<["old.rzip" := legacy_archive]> ∅) 65536 ∅, h1, true, []) /\
    size h1 = 5 /\ maxChunkSize h1 = 1048576 /\
    Reads (H := stored_codec) h1 [repeat Byte.xff 2; repeat Byte.xff 3] =
      Returns (h2, datas, map len [repeat Byte.xff 2; repeat Byte.xff 3]) /\
    concat datas =
      firstn (Z.to_nat (sum (map len [repeat Byte.xff 2; repeat Byte.xff 3])))
             (concat [hello]).
Proof.
  apply (legacy_archive_reads_back (H := stored_codec)
           (mkFS (<["old.rzip" := legacy_archive]> ∅) 65536 ∅) closed_handle
           "old.rzip" 1048576 5 (Byte.x78 :: hello) [] [hello] []
           [repeat Byte.xff 2; repeat Byte.xff 3]).
  - reflexivity.
  - lia.
  - lia.
  - vm_compute. reflexivity.
  - repeat constructor; vm_compute; congruence.
  - repeat constructor.
  - vm_compute. discriminate.
Defined.

(** ** What Read and Skip leave alone *)

Lemma fread_forward n f f' o :
  fread n f = (f', o) ->
  f_pos f <= f_pos f' /\ f_path f' = f_path f /\ f_wr f' = f_wr f /\
  f_limit f' = f_limit f /\ f_bytes f' = f_bytes f.
Proof.
  unfold fread. destruct (f_wr f || (n <=? 0) || (f_pos f <? 0)) eqn:G.
  { intros [= <- _]. repeat split; lia. }
  destruct (Z.leb_spec n 0).
  { rewrite orb_true_r in G. discriminate. }
  destruct (f_pos f + n <=? len (f_bytes f)); intros [= <- _]; rsimpl;
    repeat split; lia.
Qed.

Lemma refill_forward `{Codec} f h :
  match refill f h with
  | Break f' _ _ | Continue f' _ | Proceed f' _ =>
    f_pos f <= f_pos f' /\ f_path f' = f_path f /\ f_wr f' = f_wr f /\
    f_limit f' = f_limit f
  end.
Proof.
  unfold refill.
  destruct (fread 4 f) as [f1 [b|]] eqn:E1;
    apply fread_forward in E1 as (P1 & A1 & W1 & L1 & _); [|auto].
  destruct (le_combine b =? 0); [auto|].
  destruct (fread (le_combine b) f1) as [f2 [z|]] eqn:E2;
    apply fread_forward in E2 as (P2 & A2 & W2 & L2 & _).
  - destruct (uncompress _ z); repeat split; try congruence; lia.
  - repeat split; try congruence; lia.
Qed.

Lemma Read_loop_forward `{Codec} fuel :
  forall length f h p rv f' h' p' rv' log,
  Read_loop fuel length f h p rv = Returns (f', h', p', rv', log) ->
  f_pos f <= f_pos f' /\ f_path f' = f_path f /\ f_wr f' = f_wr f /\
  f_limit f' = f_limit f.
Proof.
  induction fuel as [|fuel IH]; intros length f h p rv f' h' p' rv' log;
    cbn [Read_loop]; destruct (rv <? length).
  - discriminate.
  - intros [= <- _ _ _ _]. repeat split; lia.
  - destruct (chunkIndex h =? chunkSize h).
    + pose proof (refill_forward f h) as F.
      destruct (refill f h) as [f1 h1 w|f1 h1|f1 h1].
      * intros [= <- _ _ _ _]. exact F.
      * intros E. apply IH in E. destruct F as (? & ? & ? & ?).
        destruct E as (? & ? & ? & ?). repeat split; try congruence; lia.
      * intros E. apply IH in E. destruct F as (? & ? & ? & ?).
        destruct E as (? & ? & ? & ?). repeat split; try congruence; lia.
    + intros E. apply IH in E. exact E.
  - intros [= <- _ _ _ _]. repeat split; lia.
Qed.

(** X8: A Read or a Skip on an open handle returns, and the two leave the
    same handle.  The file behind it keeps its bytes, its path and its
    mode; the position in it never goes back; and the size, the maximum
    chunk size and the mode recorded in the handle stay as they are. *)
Theorem Read_Skip_leave_archive_alone `{Codec} (h : RZipFile) (f : FILE)
    (data : list byte) (length : Z) :
  open_handle h -> file h = Some f -> 0 <= length < 2 ^ 32 ->
  exists h' f' data' rv log,
    Read h data length = Returns (h', data', rv, log) /\
    Skip h length = Returns (h', rv, log) /\
    file h' = Some f' /\
    f_bytes f' = f_bytes f /\ f_path f' = f_path f /\ f_wr f' = f_wr f /\
    f_limit f' = f_limit f /\ f_pos f <= f_pos f' /\
    size h' = size h /\ maxChunkSize h' = maxChunkSize h /\
    writing h' = writing h.
Proof.
  intros (_ & Hb & Hc) Hf Hl.
  destruct (Read_spec h f data length Hf Hb Hc Hl)
    as (f' & h' & q & log & L & R & _ & _ & _ & _ & M & S & W & B).
  apply Read_loop_forward in L as (P & A & Wr & Li).
  exists (set_file (Some f') h'), f', (stored data q), (len q), log.
  rewrite (Skip_as_Read h data length), R. rsimpl.
  repeat split; auto.
Qed.

Lemma Read_Skip_leave_archive_alone_witness :
  exists h' f' data' rv log,
    Read (H := stored_codec) sample_reader (repeat Byte.xff 7) 7 =
      Returns (h', data', rv, log) /\
    Skip (H := stored_codec) sample_reader 7 = Returns (h', rv, log) /\
    file h' = Some f' /\
    f_bytes f' = sample_archive /\ f_path f' = "state.rzip"%string /\
    f_wr f' = false /\ f_limit f' = 65536 /\ 20 <= f_pos f' /\
    size h' = 10 /\ maxChunkSize h' = 1048576 /\ writing h' = false.
Proof.
  apply (Read_Skip_leave_archive_alone (H := stored_codec) sample_reader
           (mkFILE "state.rzip" false sample_archive 20 65536)
           (repeat Byte.xff 7) 7).
  - split; [eexists; reflexivity|].
    split; [unfold buffer_inv; cbn; lia|].
    unfold chunk_inv. vm_compute. discriminate.
  - reflexivity.
  - lia.
Defined.

(** ** An archive whose header gives a maximum chunk size of zero *)

Lemma Read_loop_no_room `{Codec} fuel :
  forall length f h p rv f' h' p' rv' log,
  buffer_inv h -> chunk_inv h -> maxChunkSize h = 0 ->
  0 <= rv -> length < 2 ^ 32 ->
  Read_loop fuel length f h p rv = Returns (f', h', p', rv', log) ->
  p' = p /\ rv' = rv.
Proof.
  induction fuel as [|fuel IH];
    intros length f h p rv f' h' p' rv' log Hb Hc Hm Hrv Hl;
    cbn [Read_loop]; destruct (Z.ltb_spec rv length).
  - discriminate.
  - intros [= _ _ <- <- _]. auto.
  - pose proof (enter_cases f h Hb Hc) as En.
    destruct (if chunkIndex h =? chunkSize h then refill f h else Proceed f h)
      as [f1 h1 w|f1 h1|f1 h1].
    + intros [= _ _ <- <- _]. auto.
    + destruct En as (Hb1 & Hc1 & M1 & _).
      apply IH; try assumption. congruence.
    + destruct En as (Hb1 & Hc1 & M1 & _).
      pose proof (consume_cases h1 length rv Hb1 Hc1 (conj Hrv H0) Hl)
        as (Hb2 & Hc2 & C1 & C2 & C3 & _).
      pose proof (copy_length_spec h1 length rv Hb1 (conj Hrv H0) Hl)
        as (_ & L1 & _).
      set (l := copy_length h1 length rv) in *.
      assert (l = 0).
      { destruct Hb1 as (? & ? & ? & ?). lia. }
      assert (E : chunk_bytes h1 l = []) by (apply len_nil_inv; lia).
      rewrite E, C2, app_nil_r. replace (rv + l) with rv by lia.
      apply IH; try assumption.
      change (maxChunkSize h1 = 0). congruence.
  - intros [= _ _ <- <- _]. auto.
Qed.

(** X9: When the maximum chunk size of the handle is zero, as after Open on
    a file whose header says so, no Read or Skip of a positive length
    delivers a byte: whatever the file holds, the call returns 0, leaves
    the destination as it was and logs one failure. *)
Theorem no_byte_from_zero_maxChunkSize `{Codec} (h : RZipFile)
    (data : list byte) (length : Z) :
  open_handle h -> maxChunkSize h = 0 -> 0 < length < 2 ^ 32 ->
  exists h' w,
    Read h data length = Returns (h', data, 0, [w]) /\
    Skip h length = Returns (h', 0, [w]).
Proof.
  intros ([f Hf] & Hb & Hc) Hm Hl.
  destruct (Read_spec h f data length Hf Hb Hc)
    as (f' & h' & q & log & L & R & _ & _ & _ & Hlog & _); [lia|].
  apply Read_loop_no_room in L as [-> _]; try assumption; try lia.
  change (len []) with 0 in *.
  destruct Hlog as [[_ ?]|(w & -> & _)]; [lia|].
  exists (set_file (Some f') h'), w.
  rewrite (Skip_as_Read h data length), R.
  unfold stored. cbn [app List.length skipn]. auto.
Qed.

Lemma no_byte_from_zero_maxChunkSize_witness :
  exists h' w,
    Read (H := stored_codec)
         (mkRZipFile (Some (mkFILE "state.rzip" false
                              (RZipHeader ++ le_split 4 0 ++ le_split 8 5
                               ++ le_split 4 6 ++ Byte.x78 :: hello)
                              20 65536))
                     5 0 (Some []) 0 0 false)
         (repeat Byte.xff 5) 5 =
      Returns (h', repeat Byte.xff 5, 0, [w]) /\
    Skip (H := stored_codec)
         (mkRZipFile (Some (mkFILE "state.rzip" false
                              (RZipHeader ++ le_split 4 0 ++ le_split 8 5
                               ++ le_split 4 6 ++ Byte.x78 :: hello)
                              20 65536))
                     5 0 (Some []) 0 0 false)
         5 =
      Returns (h', 0, [w]).
Proof.
  apply (no_byte_from_zero_maxChunkSize (H := stored_codec)).
  - split; [eexists; reflexivity|].
    split; [unfold buffer_inv; cbn; lia|].
    unfold chunk_inv. vm_compute. discriminate.
  - reflexivity.
  - lia.
Defined.

(** ** Write on a handle opened for reading *)

Lemma Open_read_stream fs h path fs' h' log :
  Open fs h path false = Returns (fs', h', true, log) ->
  exists f, file h' = Some f /\ f_wr f = false.
Proof.
  unfold Open, fopen. destruct (file h); [discriminate|].
  destruct (fs_files fs !! path) as [bytes|]; [|discriminate].
  change (negb false) with true. cbv iota. unfold Close.
  destruct (fread (len RZipHeader) _) as [f1 [hd|]] eqn:E1; [|discriminate].
  destruct (negb (bytes_eqb hd RZipHeader)); [discriminate|].
  destruct (fread 4 f1) as [f2 [b|]] eqn:E2; [|discriminate].
  destruct (fread 8 f2) as [f3 [b8|]] eqn:E3; [|discriminate].
  apply fread_forward in E1 as (_ & _ & W1 & _).
  apply fread_forward in E2 as (_ & _ & W2 & _).
  apply fread_forward in E3 as (_ & _ & W3 & _).
  assert (W : f_wr f3 = false) by (rewrite W3, W2, W1; reflexivity).
  destruct (negb _); intros [= _ <- _]; eexists; (split; [reflexivity|]);
    [|exact W].
  unfold fseek_cur. destruct (f_pos f3 + -4 <? 0); rsimpl; exact W.
Qed.

Lemma Read_keeps_mode `{Codec} h f data length h' data' rv log :
  file h = Some f -> f_wr f = false ->
  Read h data length = Returns (h', data', rv, log) ->
  exists f', file h' = Some f' /\ f_wr f' = false.
Proof.
  intros Hf Hw. unfold Read. rewrite Hf.
  destruct (Read_loop _ _ _ _ _ _) as [[[[[f1 h1] p] rv1] log1]| |] eqn:E;
    try discriminate.
  apply Read_loop_forward in E as (_ & _ & W & _).
  intros [= <- _ _ _]. exists f1. split; [reflexivity|congruence].
Qed.

Lemma reader_state_stream `{Codec} h :
  reader_state h -> exists f, file h = Some f /\ f_wr f = false.
Proof.
  intros R.
  induction R as [fs h path fs' h' log HO
                 |h data length h' data' rv log _ (f & Hf & Hw) HR
                 |h length h' rv log _ (f & Hf & Hw) HS].
  - eapply Open_read_stream, HO.
  - eapply Read_keeps_mode; eassumption.
  - rewrite (Skip_as_Read h [] length) in HS.
    destruct (Read h [] length) as [[[[h1 d1] rv1] log1]| |] eqn:E;
      try discriminate.
    injection HS as <- _ _. eapply Read_keeps_mode; eassumption.
Qed.

Lemma Write_not_writable `{Codec} h f data length :
  file h = Some f -> f_wr f = false -> Write h data length = Aborts.
Proof.
  intros Hf Hw. unfold Write. rewrite Hf.
  assert (L : exists rv log,
            Write_loop (S (Z.to_nat length)) length
              (uLongf (u32 (u32 (maxChunkSize h + maxChunkSize h / 1000) + 12)))
              f h data 0 = Returns (f, h, rv, log)).
  { cbn [Write_loop]. destruct (0 <? length); [|eauto].
    destruct (compress _ _); [|eauto].
    unfold fwrite. rewrite Hw. cbn [negb orb]. eauto. }
  destruct L as (rv & log & ->).
  unfold rewrite_size, fseek_set, fwrite.
  change (len RZipHeader + 4 <? 0) with false. cbv iota. rsimpl.
  rewrite Hw. reflexivity.
Qed.

(** X10: on a handle opened for reading, the one a successful Open in
    read mode returns or one reached from it by Read and Skip calls, a
    Write never returns: for every buffer and every length, zero too,
    nothing is written, the size field cannot be stored, and the call
    ends in the failed [verify]. *)
Theorem Write_on_reader_fails_verify `{Codec} (h : RZipFile)
    (data : list byte) (length : Z) :
  reader_state h -> Write h data length = Aborts.
Proof.
  intros R. destruct (reader_state_stream h R) as (f & Hf & Hw).
  exact (Write_not_writable h f data length Hf Hw).
Qed.

Lemma Write_on_reader_fails_verify_witness :
  Write (H := stored_codec) sample_reader_3 hello 5 = Aborts.
Proof.
  apply (Write_on_reader_fails_verify (H := stored_codec) sample_reader_3
           hello 5).
  eapply (reader_read (H := stored_codec) sample_reader [] 3).
  - eapply reader_opened. exact sample_reader_opened.
  - vm_compute. reflexivity.
Defined.

(** ** The frames of one Write *)

Lemma uniform_count m (cs : list (list byte)) :
  0 < m -> uniform m cs ->
  Z.of_nat (length cs) = (len (concat cs) + m - 1) / m.
Proof.
  intros Hm U. induction U as [|d Hd|d ds Hd Hne U IH].
  - change (len (concat [])) with 0. cbn [length].
    symmetry. apply Z.div_small. lia.
  - cbn [concat length]. rewrite app_nil_r.
    change (Z.of_nat 1) with 1.
    apply Z.div_unique with (r := len d - 1); lia.
  - cbn [concat]. rewrite len_app, Hd.
    replace (m + len (concat ds) + m - 1)
      with (1 * m + (len (concat ds) + m - 1)) by lia.
    rewrite Z.div_add_l by lia. rewrite <- IH.
    change (length (d :: ds)) with (S (length ds)). lia.
Qed.

(** X11: A Write that accepts all [n] bytes of its input appends one frame
    for each started mebibyte of it, that is [(n + 2^20 - 1) / 2^20]
    frames: none for an empty input.  Each frame is 4 bytes of length
    and a payload of at least 1 and at most 1049636 bytes, and the
    stream ends behind the last of them. *)
Theorem Write_frame_count `{Codec} {ok : CodecOk _}
    (fs fs1 : FileSystem) (h0 h1 h h' : RZipFile) (path : string)
    (log0 log : list warning) (ds : list (list byte)) (d : list byte) :
  Open fs h0 path true = Returns (fs1, h1, true, log0) ->
  fs_limit fs < 2 ^ 63 ->
  Forall (fun d : list byte => len d < 2 ^ 32) ds -> len d < 2 ^ 32 ->
  Writes h1 ds = Returns (h, map len ds) ->
  Write h d (len d) = Returns (h', len d, log) ->
  exists f f' zs,
    file h = Some f /\ file h' = Some f' /\
    skipn (Z.to_nat (f_pos f)) (f_bytes f') = frames zs /\
    f_pos f' = f_pos f + len (frames zs) /\
    Z.of_nat (length zs) = (len d + 1048575) / 1048576 /\
    Forall (fun z : list byte => 0 < len z <= 1049636) zs.
Proof.
  intros HO Hlim Hds Hd HWs HW.
  apply Open_write_writer_at in HO
    as (f1 & Hf1 & At1 & O1 & M1 & S1 & _); [|assumption].
  destruct (Writes_archive ds h1 f1 [] h Hf1 O1) as
    (f & zs0 & cs0 & Hf & At & Of & M & _ & _ & _ & _ & _ & _ & _);
    [lia|assumption|assumption|assumption|].
  cbn [app] in At.
  destruct (Write_archive h f d h' log zs0 Hf Of) as
    (f' & zs & cs & Hf' & F & C & U & _ & Sk & P & _);
    [lia|assumption|assumption|assumption|].
  assert (Mh : maxChunkSize h = 1048576) by congruence.
  rewrite Mh in U.
  exists f, f', zs. split; [assumption|]. split; [assumption|].
  split; [assumption|]. split; [assumption|].
  split.
  - rewrite (Forall2_length _ _ _ F), <- C.
    rewrite (uniform_count 1048576 cs) by (lia || assumption).
    f_equal. lia.
  - assert (Mz : maxZippedSize_of h = 1049636).
    { unfold maxZippedSize_of. rewrite Mh. vm_compute. reflexivity. }
    rewrite Mz in F. clear - F ok.
    induction F as [|z c zs cs Hc F IH]; constructor; [|exact IH].
    apply compress_Some in Hc as [Hdz Hlz].
    destruct (deflate_inflate c) as (z' & Hd' & _ & Hl).
    rewrite Hdz in Hd'. injection Hd' as <-. lia.
Qed.

Lemma Write_frame_count_witness :
  exists f f' zs,
    file writer_after_one = Some f /\ file writer_after_two = Some f' /\
    skipn (Z.to_nat (f_pos f)) (f_bytes f') = frames zs /\
    f_pos f' = f_pos f + len (frames zs) /\
    Z.of_nat (length zs) = (len hello + 1048575) / 1048576 /\
    Forall (fun z : list byte => 0 < len z <= 1049636) zs.
Proof.
  apply (Write_frame_count (H := stored_codec) (ok := stored_codec_ok)
           empty_disk fresh_disk closed_handle fresh_writer writer_after_one
           writer_after_two "state.rzip" [] [] [hello] hello).
  - vm_compute. reflexivity.
  - vm_compute. reflexivity.
  - constructor; [vm_compute; reflexivity|constructor].
  - vm_compute. reflexivity.
  - vm_compute. reflexivity.
  - vm_compute. reflexivity.
Defined.

(** ** A frame the codec rejects *)

Lemma rejected_stops `{Codec} m z behind :
  0 < len z < 2 ^ 32 -> uncompress (uLongf m) z = None ->
  stops_at m (frame z ++ behind) DecompressionError behind.
Proof.
  intros Hz Hu f h Hr Hrest Hm.
  destruct (refill_frame f h z behind Hr Hrest Hz) as (f' & R & Re & B & _ & E).
  rewrite Hm, Hu in E. exists f'. auto.
Qed.

(** X13: When the frame that follows the bytes still ahead is one the codec
    rejects, or one that holds more than the maximum chunk size, a Read
    or Skip that asks for more than those bytes delivers them, logs a
    decompression error and returns their number.  The handle does not
    stay in error: the rejected frame is consumed, and the next calls
    deliver the chunks of the frames behind it, so that the bytes of
    the rejected chunk are missing from what the caller receives. *)
Theorem Read_drops_rejected_chunk `{Codec} (h : RZipFile)
    (ahead z more data : list byte) (zs chunks : list (list byte))
    (length : Z) :
  reader_at h ahead (frame z ++ frames zs ++ more) ->
  0 < len z < 2 ^ 32 ->
  uncompress (uLongf (maxChunkSize h)) z = None ->
  Forall2 (decodes (maxChunkSize h)) zs chunks ->
  len ahead < length < 2 ^ 32 ->
  exists h',
    Read h data length =
      Returns (h', stored data ahead, len ahead, [DecompressionError]) /\
    Skip h length = Returns (h', len ahead, [DecompressionError]) /\
    forall data' k, 0 <= k <= len (concat chunks) -> k < 2 ^ 32 ->
      exists h'',
        Read h' data' k =
          Returns (h'', stored data' (firstn (Z.to_nat k) (concat chunks)),
                   k, []).
Proof.
  intros At Hz Hu F Hl.
  destruct (Read_reader_at_stop h ahead _ data DecompressionError
              (frames zs ++ more) length At (rejected_stops _ z _ Hz Hu) Hl)
    as (h' & R & S & (f' & zs' & cs' & Hf & Hr & Hrest & F' & Hb & Hc & Ha)
        & M & _).
  exists h'. split; [exact R|]. split; [exact S|].
  intros data' k Hk Hk2.
  assert (At' : reader_at h' (concat chunks) more).
  { exists f', (zs' ++ zs), (cs' ++ chunks).
    split; [assumption|]. split; [assumption|].
    split; [rewrite frames_app, <- app_assoc; exact Hrest|].
    split; [rewrite M; apply Forall2_app; [rewrite <- M; exact F'|exact F]|].
    split; [assumption|]. split; [assumption|].
    rewrite concat_app, app_assoc, Ha. reflexivity. }
  destruct (Read_reader_at h' _ more data' k At') as (h'' & R' & _);
    [lia|lia|].
  exists h''. exact R'.
Qed.

Lemma Read_drops_rejected_chunk_witness :
  exists h',
    Read (H := stored_codec)
         (mkRZipFile
            (Some (mkFILE "state.rzip" false
                     (RZipHeader ++ le_split 4 1048576 ++ le_split 8 10
                      ++ (le_split 4 6 ++ Byte.x00 :: hello)
                      ++ (le_split 4 6 ++ Byte.x78 :: hello))
                     20 65536))
            10 1048576 (Some []) 0 0 false)
         (repeat Byte.xff 10) 10 =
      Returns (h', stored (repeat Byte.xff 10) [], len (@nil byte),
               [DecompressionError]) /\
    Skip (H := stored_codec)
         (mkRZipFile
            (Some (mkFILE "state.rzip" false
                     (RZipHeader ++ le_split 4 1048576 ++ le_split 8 10
                      ++ (le_split 4 6 ++ Byte.x00 :: hello)
                      ++ (le_split 4 6 ++ Byte.x78 :: hello))
                     20 65536))
            10 1048576 (Some []) 0 0 false)
         10 =
      Returns (h', len (@nil byte), [DecompressionError]) /\
    forall data' k, 0 <= k <= len (concat [hello]) -> k < 2 ^ 32 ->
      exists h'',
        Read (H := stored_codec) h' data' k =
          Returns (h'', stored data' (firstn (Z.to_nat k) (concat [hello])),
                   k, []).
Proof.
  apply (Read_drops_rejected_chunk (H := stored_codec) _ []
           (Byte.x00 :: hello) [] (repeat Byte.xff 10) [Byte.x78 :: hello]
           [hello] 10).
  - eexists _, [], [].
    split; [reflexivity|]. split; [split; [reflexivity|cbn; lia]|].
    split; [vm_compute; reflexivity|].
    split; [constructor|].
    split; [unfold buffer_inv; cbn; lia|].
    split; [unfold chunk_inv; vm_compute; discriminate|].
    reflexivity.
  - vm_compute. split; reflexivity.
  - reflexivity.
  - repeat constructor; vm_compute; congruence.
  - vm_compute. split; reflexivity.
Defined.
